(** * Crop recommendation: the scoring engine of [src/main.jsx]

    A shallow embedding of [computeRecommendations] (lines 128-167 of
    [src/main.jsx]) and of the JavaScript primitives it calls.

    JavaScript numbers are IEEE 754 binary64 values; they are modelled by
    Rocq's primitive [float], whose operations are the binary64 operations
    with round-to-nearest-even, specified in [FloatAxioms] through
    [SpecFloat].  Decimal literals denote the nearest binary64 value, as in
    JavaScript. *)

From Stdlib Require Import ZArith QArith Qpower Qround Qabs Lia Lqa Bool String Ascii List.
From Stdlib Require Import Permutation Sorted.
From Stdlib Require Import Floats.
Import ListNotations.

Set Warnings "-inexact-float".

Local Open Scope float_scope.

(** ** JavaScript primitives *)

Module JS.

(** [Math.abs]. *)
Definition Math_abs (x : float) : float := abs x.

(** [Math.max(a, b)]: NaN if either argument is NaN, and [+0] is larger
    than [-0]. *)
Definition Math_max (a b : float) : float :=
  if is_nan a || is_nan b then nan
  else if a <? b then b
  else if b <? a then a
  else if get_sign a then b else a.

(** [Math.min(a, b)]: NaN if either argument is NaN, and [-0] is smaller
    than [+0]. *)
Definition Math_min (a b : float) : float :=
  if is_nan a || is_nan b then nan
  else if a <? b then a
  else if b <? a then b
  else if get_sign a then a else b.

(** The binary64 value of an integer (exact below 2^53). *)
Definition Z2float (k : Z) : float :=
  SF2Prim (binary_normalize prec emax k 0 false).

(** [Math.round(x)]: the integer nearest to [x], ties towards +infinity;
    NaN, the infinities and the zeros are returned unchanged, and a
    result of zero keeps the sign of [x].  A finite [x] is [n * 2^e] with
    [n] an integer; when [e < 0] the result is [floor (n * 2^e + 1/2)],
    computed exactly on integers. *)
Definition Math_round (x : float) : float :=
  match Prim2SF x with
  | S754_finite s m e =>
      if (0 <=? e)%Z then x
      else
        let n := cond_Zopp s (Zpos m) in
        let k := ((2 * n + 2 ^ (- e)) / 2 ^ (1 - e))%Z in
        if (k =? 0)%Z then (if s then neg_zero else zero) else Z2float k
  | _ => x
  end.

(** [String.prototype.toLowerCase], on ASCII letters. *)
Definition lower_ascii (c : ascii) : ascii :=
  let n := nat_of_ascii c in
  if (65 <=? n)%nat && (n <=? 90)%nat then ascii_of_nat (n + 32) else c.

Fixpoint toLowerCase (s : string) : string :=
  match s with
  | EmptyString => EmptyString
  | String c s' => String (lower_ascii c) (toLowerCase s')
  end.

(** [String.prototype.includes]: [sub] occurs somewhere in [s]. *)
Fixpoint String_includes (s sub : string) : bool :=
  String.prefix sub s ||
  match s with
  | EmptyString => false
  | String _ s' => String_includes s' sub
  end.

(** [Array.prototype.includes] on an array of strings ([===] on strings). *)
Definition Array_includes (l : list string) (x : string) : bool :=
  existsb (String.eqb x) l.

Section Sort.
Context {A : Type}.
(** The comparator [(a, b) => number]: a positive result puts [b] before
    [a]; a result that is negative, zero or NaN leaves [a] first. *)
Variable cmp : A -> A -> float.

Fixpoint insert (x : A) (l : list A) : list A :=
  match l with
  | [] => [x]
  | y :: l' => if 0 <? cmp x y then y :: insert x l' else x :: y :: l'
  end.

(** [Array.prototype.sort(cmp)], a stable sort (ECMAScript 2019);
    realised as the insertion sort that engines run on short arrays. *)
Definition Array_sort (l : list A) : list A := fold_right insert [] l.
End Sort.

(** [Array.prototype.slice(0, n)]. *)
Definition slice0 {A : Type} (n : nat) (l : list A) : list A := firstn n l.

End JS.
Import JS.

(** ** Data model *)

(** The [ideal] sub-object of an entry of [cropBank]. *)
Record Ideal := {
  ideal_ph       : float * float;
  ideal_temp     : float * float;
  ideal_rainfall : float * float;
  seasons        : list string
}.

(** An entry of [cropBank]. *)
Record Crop := {
  name       : string;
  ideal      : Ideal;
  baseYield  : float;
  fertilizer : string;
  water      : string
}.

(** The fields of the [inputs] object that [computeRecommendations]
    destructures. *)
Record Inputs := {
  ph          : float;
  temperature : float;
  rainfall    : float;
  soilType    : string;
  area        : float;
  season      : string;
  preference  : string
}.

(** The object returned by [scoreCrop]:
    [{ ...crop, score, expectedYield, expectedYieldValue }]. *)
Record RankedCrop := {
  crop               : Crop;
  score              : float;
  expectedYield      : float;
  expectedYieldValue : float
}.

Local Open Scope string_scope.

Definition cropBank : list Crop := [
  {| name := "Wheat";
     ideal := {| ideal_ph := (6.0, 7.5); ideal_temp := (10, 25);
                 ideal_rainfall := (300, 900); seasons := ["Rabi"] |};
     baseYield := 3.0; fertilizer := "NPK 20-20-0"; water := "Medium" |};
  {| name := "Rice";
     ideal := {| ideal_ph := (5.5, 7.0); ideal_temp := (20, 35);
                 ideal_rainfall := (1000, 2000); seasons := ["Kharif"] |};
     baseYield := 4.0; fertilizer := "NPK 16-16-8"; water := "High" |};
  {| name := "Maize";
     ideal := {| ideal_ph := (5.5, 7.5); ideal_temp := (18, 32);
                 ideal_rainfall := (500, 1200); seasons := ["Kharif"; "Rabi"] |};
     baseYield := 5.5; fertilizer := "NPK 18-46-0"; water := "Medium" |};
  {| name := "Cotton";
     ideal := {| ideal_ph := (5.5, 7.5); ideal_temp := (20, 35);
                 ideal_rainfall := (500, 1500); seasons := ["Kharif"] |};
     baseYield := 2.2; fertilizer := "NPK 10-26-26"; water := "Medium" |};
  {| name := "Mustard";
     ideal := {| ideal_ph := (6.0, 7.5); ideal_temp := (5, 25);
                 ideal_rainfall := (200, 600); seasons := ["Rabi"] |};
     baseYield := 1.1; fertilizer := "NPK 15-15-15"; water := "Low" |};
  {| name := "Pulses";
     ideal := {| ideal_ph := (6.0, 7.5); ideal_temp := (15, 30);
                 ideal_rainfall := (400, 800); seasons := ["Rabi"; "Kharif"] |};
     baseYield := 1.4; fertilizer := "DAP + Urea (split)"; water := "Low" |}
].

(** ** The scorer *)

(** [prefBonus(crop)], lines 138-144; [preference] is the variable of the
    enclosing [computeRecommendations]. *)
Definition prefBonus (preference : string) (crop : Crop) : float :=
  if (preference =? "Low water") && (water crop =? "Low") then 0.08
  else if (preference =? "High yield") && (3.5 <=? baseYield crop)%float then 0.06
  else if (preference =? "Short duration")
          && Array_includes ["Pulses"; "Maize"] (name crop) then 0.06
  else if (preference =? "Market demand")
          && Array_includes ["Rice"; "Wheat"; "Cotton"] (name crop) then 0.04
  else 0.

Local Open Scope float_scope.

(** One range statement of [scoreCrop] (lines 148-155):
    [if (v >= r[0] && v <= r[1]) score += w;
     else score += Math.max(0, w - (Math.abs(((r[0] + r[1]) / 2) - v) / d));] *)
Definition rangeStep (w d : float) (r : float * float) (v score : float) : float :=
  if (fst r <=? v) && (v <=? snd r) then score + w
  else score + Math_max 0 (w - (Math_abs (((fst r + snd r) / 2) - v) / d)).

(** The value of the local variable [score] of [scoreCrop] after the pH
    statement (lines 147-149): the pH term. *)
Definition phScore (inp : Inputs) (crop : Crop) : float :=
  let score := 0 in
  rangeStep 0.28 10 (ideal_ph (ideal crop)) (ph inp) score.

(** The value of [score] when the yields are derived (line 161): the raw,
    unclamped score. *)
Definition rawScore (inp : Inputs) (crop : Crop) : float :=
  let score := phScore inp crop in
  let score := rangeStep 0.24 50 (ideal_temp (ideal crop)) (temperature inp) score in
  let score := rangeStep 0.24 2000 (ideal_rainfall (ideal crop)) (rainfall inp) score in
  let score := if Array_includes (seasons (ideal crop)) (season inp)
               then score + 0.16 else score in
  let score := if String_includes (toLowerCase (soilType inp)) "loam"
               then score + 0.05 else score in
  score + prefBonus (preference inp) crop.

(** [scoreCrop(crop)], lines 146-164. *)
Definition scoreCrop (inp : Inputs) (crop : Crop) : RankedCrop :=
  let score := rawScore inp crop in
  let expectedYieldPerHa :=
    Math_round ((baseYield crop * (1 + score * 0.4)) * 10) / 10 in
  let expectedYield := Math_round (expectedYieldPerHa * area inp * 10) / 10 in
  {| crop := crop;
     score := Math_min 1 score;
     expectedYield := expectedYield;
     expectedYieldValue := expectedYieldPerHa |}.

(** Line 166 over an arbitrary crop table:
    [bank.map(scoreCrop).sort((a, b) => b.score - a.score).slice(0, 3)]. *)
Definition computeRecommendationsOn (bank : list Crop) (inp : Inputs)
  : list RankedCrop :=
  slice0 3 (Array_sort (fun a b => score b - score a) (map (scoreCrop inp) bank)).

(** [computeRecommendations(inputs)], lines 128-167. *)
Definition computeRecommendations (inp : Inputs) : list RankedCrop :=
  computeRecommendationsOn cropBank inp.

(** The initial form state of the application (lines 50-61). *)
Definition defaultInputs : Inputs :=
  {| ph := 6.5; temperature := 26; rainfall := 300; soilType := "Loam";
     area := 1.0; season := "Kharif"; preference := "High yield" |}.

(** ** The preference bonus *)

Local Open Scope string_scope.

(** A preference rule of the specification: the preference it belongs to,
    the crops it rewards and the bonus it awards. *)
Record PrefRule := {
  rule_preference : string;
  rule_applies    : Crop -> bool;
  rule_bonus      : float
}.

(** The four rules, in the priority order of the specification. *)
Definition prefRules : list PrefRule := [
  {| rule_preference := "Low water";
     rule_applies := fun c => water c =? "Low";
     rule_bonus := 0.08%float |};
  {| rule_preference := "High yield";
     rule_applies := fun c => (3.5 <=? baseYield c)%float;
     rule_bonus := 0.06%float |};
  {| rule_preference := "Short duration";
     rule_applies := fun c => (name c =? "Pulses") || (name c =? "Maize");
     rule_bonus := 0.06%float |};
  {| rule_preference := "Market demand";
     rule_applies := fun c =>
       (name c =? "Rice") || (name c =? "Wheat") || (name c =? "Cotton");
     rule_bonus := 0.04%float |}
].

(** First match wins, default 0. *)
Definition spec_prefBonus (preference : string) (c : Crop) : float :=
  match find (fun r => (preference =? rule_preference r) && rule_applies r c)
             prefRules with
  | Some r => rule_bonus r
  | None => 0%float
  end.

Local Open Scope float_scope.

(** ** The pH term *)

(** [v] lies in the inclusive range [r]. *)
Definition within (r : float * float) (v : float) : bool :=
  (fst r <=? v) && (v <=? snd r).

Definition midpoint (r : float * float) : float := (fst r + snd r) / 2.

(** The pH term as the specification words it: the full weight inside the
    ideal range, otherwise a linear decay anchored at the midpoint of the
    range and floored at zero. *)
Definition spec_phTerm (r : float * float) (ph : float) : float :=
  if within r ph then 0.28
  else Math_max 0 (0.28 - Math_abs (midpoint r - ph) / 10).

(** ** Derived yields and scenarios *)

(** Rounding to one decimal place: the nearest number of tenths, divided
    by ten ([Math.round(x * 10) / 10] in the source). *)
Definition round1 (x : float) : float := Math_round (x * 10) / 10.

(** The scenario [inp] with another preference, everything else unchanged. *)
Definition withPreference (inp : Inputs) (p : string) : Inputs :=
  {| ph := ph inp; temperature := temperature inp; rainfall := rainfall inp;
     soilType := soilType inp; area := area inp; season := season inp;
     preference := p |}.

(** The scenario [inp] with another area, everything else unchanged. *)
Definition withArea (inp : Inputs) (a : float) : Inputs :=
  {| ph := ph inp; temperature := temperature inp; rainfall := rainfall inp;
     soilType := soilType inp; area := a; season := season inp;
     preference := preference inp |}.

(** A Rabi scenario on loam inside every ideal range of Mustard and of
    Pulses. *)
Definition rabiInputs (p : string) : Inputs :=
  {| ph := 6.5; temperature := 20; rainfall := 500; soilType := "Loam";
     area := 2.0; season := "Rabi"; preference := p |}.

(** Entries of [cropBank], by position. *)
Definition cropAt (i : nat) : Crop :=
  nth i cropBank
      {| name := ""; ideal := {| ideal_ph := (0, 0); ideal_temp := (0, 0);
                                 ideal_rainfall := (0, 0); seasons := [] |};
         baseYield := 0; fertilizer := ""; water := "" |}.

Definition wheat : Crop := Eval cbv in cropAt 0.
Definition mustard : Crop := Eval cbv in cropAt 4.
Definition pulses : Crop := Eval cbv in cropAt 5.

(** ** Relative order in a sequence *)

(** [before a b l]: an occurrence of [a] in [l] is followed, later in [l],
    by an occurrence of [b]. *)
Inductive before {A : Type} (a b : A) : list A -> Prop :=
| before_here (l : list A) : In b l -> before a b (a :: l)
| before_later (y : A) (l : list A) : before a b l -> before a b (y :: l).


(** ** Reading binary64 values *)

Local Open Scope Z_scope.

(** The number of bits that [shr_fexp] drops from [m * 2^e]. *)
Definition dropped (m e : Z) : Z := Z.max 0 (fexp prec emax (Zdigits2 m + e) - e).

(** Classes of binary64 values, read on [Prim2SF]. *)
Definition SFnan (x : spec_float) : bool :=
  match x with S754_nan => true | _ => false end.

Definition SFsign (x : spec_float) : bool :=
  match x with
  | S754_zero s | S754_infinity s | S754_finite s _ _ => s
  | S754_nan => false
  end.

Definition SFfinite (x : spec_float) : bool :=
  match x with S754_zero _ | S754_finite _ _ _ => true | _ => false end.

(** [+0], a positive number or [+infinity]. *)
Definition SFnonneg (x : spec_float) : bool := negb (SFnan x) && negb (SFsign x).

Definition nonneg (x : float) : bool := SFnonneg (Prim2SF x).

(** A positive finite number. *)
Definition finite_pos (x : float) : bool :=
  match Prim2SF x with S754_finite false _ _ => true | _ => false end.

(** The reference data a crop must carry for the scorer's arithmetic: ideal
    ranges with a finite midpoint and a positive base yield. *)
Definition wf_crop (c : Crop) : bool :=
  is_finite (midpoint (ideal_ph (ideal c)))
  && is_finite (midpoint (ideal_temp (ideal c)))
  && is_finite (midpoint (ideal_rainfall (ideal c)))
  && finite_pos (baseYield c).

(** A scenario whose numeric fields are finite numbers. *)
Definition numeric (inp : Inputs) : bool :=
  is_finite (ph inp) && is_finite (temperature inp)
  && is_finite (rainfall inp) && is_finite (area inp).

(** An order-preserving reading of the binary64 numbers as integers: a
    finite value in units of [2^emin], the infinities beyond every finite
    value. *)
Definition SFord (x : spec_float) : Z :=
  match x with
  | S754_zero _ | S754_nan => 0
  | S754_infinity s => cond_Zopp s (2 ^ 2098)
  | S754_finite s m e => cond_Zopp s (Zpos m * 2 ^ (e - emin))
  end.

Definition ord (x : float) : Z := SFord (Prim2SF x).

Local Open Scope Q_scope.

(** The rational value of a finite binary64 number (0 for the others). *)
Definition SF2Q (x : spec_float) : Q :=
  match x with
  | S754_finite s m e => inject_Z (cond_Zopp s (Zpos m)) * 2 ^ e
  | _ => 0
  end.

Definition F2Q (x : float) : Q := SF2Q (Prim2SF x).

(** The absolute rounding error allowed for results below 127: [2^-45]. *)
Definition eps : Q := 1 # 35184372088832.

(** [x] is a non-negative finite number of value at most [a]. *)
Definition below (x : float) (a : Q) : Prop :=
  SFfinite (Prim2SF x) = true /\ nonneg x = true /\ F2Q x <= a.

(** ** Bounds used for the yields *)

(** An upper bound of every raw score: the weights and the largest bonus
    add up to 1.05. *)
Definition rawMax : Q := 1051 # 1000.

(** Upper bounds of the intermediate results of
    [(baseYield * (1 + score * 0.4)) * 10] when the raw score is at most
    [R]. *)
Definition bound_scaled (R : Q) : Q := R * F2Q 0.4 + eps.
Definition bound_factor (R : Q) : Q := 1 + bound_scaled R + eps.
Definition bound_yield (R : Q) (b : float) : Q := F2Q b * bound_factor R + eps.
Definition bound_tenths (R : Q) (b : float) : Q := bound_yield R b * F2Q 10 + eps.

(** All of them stay below 127, where the rounding error is at most
    [eps]. *)
Definition yield_ok (R : Q) (b : float) : bool :=
  Qle_bool (R * F2Q 0.4) 127 && Qle_bool (1 + bound_scaled R) 127
  && Qle_bool (F2Q b * bound_factor R) 127
  && Qle_bool (bound_yield R b * F2Q 10) 127
  && Qle_bool (bound_tenths R b) 127.

(** The largest number of tenths that [Math.round] can then return. *)
Definition tenths_cap (R : Q) (b : float) : Z :=
  Qfloor (bound_tenths R b + (1 # 2)).

(** The integers [0 .. n-1]. *)
Definition Zrange (n : nat) : list Z := map Z.of_nat (seq 0 n).

Local Open Scope float_scope.


(** The same with the bound [rawMax] of every raw score and the cap of
    42 percent. *)
Definition cap42_check (c : Crop) : bool :=
  yield_ok rawMax (baseYield c)
  && forallb (fun k => Z2float k / 10 <=? round1 (baseYield c * 1.42))
             (Zrange (S (Z.to_nat (tenths_cap rawMax (baseYield c))))).


(** A closed inequality between rationals, by evaluation. *)
Ltac qle := apply Qle_bool_iff; vm_compute; reflexivity.

(** ** Two-sided bounds *)

Local Open Scope Q_scope.

(** [x] is a non-negative finite number of value between [a] and [b]. *)
Definition between (x : float) (a b : Q) : Prop := below x b /\ a <= F2Q x.

(** The integers [lo .. hi]. *)
Definition Zinterval (lo hi : Z) : list Z :=
  map (fun i => (lo + Z.of_nat i)%Z) (seq 0 (Z.to_nat (hi - lo + 1))).

(** ** More of the scorer's arithmetic *)

(** Lower bounds of the intermediate results of
    [(baseYield * (1 + score * 0.4)) * 10], whatever the raw score. *)
Definition low_yield (b : float) : Q := F2Q b * (1 - eps) - eps.
Definition low_tenths (b : float) : Q := low_yield b * F2Q 10 - eps.

(** The smallest number of tenths that [Math.round] can return. *)
Definition tenths_floor (b : float) : Z := Qfloor (low_tenths b + (1 # 2)).

Local Open Scope float_scope.

(** Checked by evaluation on the reference table: every attainable number
    of tenths gives a yield per hectare between the base yield and the
    42 percent cap. *)
Definition yield_range_check (c : Crop) : bool :=
  Qle_bool 0 (low_yield (baseYield c))
  && forallb (fun k => (baseYield c <=? Z2float k / 10)
                       && (Z2float k / 10 <=? round1 (baseYield c * 1.42)))
             (Zinterval (tenths_floor (baseYield c))
                        (tenths_cap rawMax (baseYield c))).

(** Every attainable yield per hectare is its own total on an area of
    one hectare. *)
Definition unit_area_check (c : Crop) : bool :=
  forallb (fun k => round1 (Z2float k / 10 * 1) =? Z2float k / 10)
          (Zinterval (tenths_floor (baseYield c))
                     (tenths_cap rawMax (baseYield c))).

(** The scenario [inp] with another season, or another soil type,
    everything else unchanged. *)
Definition withSeason (inp : Inputs) (s : string) : Inputs :=
  {| ph := ph inp; temperature := temperature inp; rainfall := rainfall inp;
     soilType := soilType inp; area := area inp; season := s;
     preference := preference inp |}.

Definition withSoilType (inp : Inputs) (s : string) : Inputs :=
  {| ph := ph inp; temperature := temperature inp; rainfall := rainfall inp;
     soilType := s; area := area inp; season := season inp;
     preference := preference inp |}.

(** The value of [score] after the three range statements (line 155). *)
Definition rangeScore (inp : Inputs) (crop : Crop) : float :=
  rangeStep 0.24 2000 (ideal_rainfall (ideal crop)) (rainfall inp)
    (rangeStep 0.24 50 (ideal_temp (ideal crop)) (temperature inp)
       (phScore inp crop)).

(** The three statements that follow (lines 157-159), from the score so
    far, the outcome of the two tests and the preference bonus. *)
Definition bonusSteps (inSeason loam : bool) (bonus score : float) : float :=
  let score := if inSeason then score + 0.16 else score in
  let score := if loam then score + 0.05 else score in
  score + bonus.

(** ** The component around the scorer *)

Module App.

(** JavaScript truthiness of a number and of a string, for [x || d]. *)
Definition truthy (x : float) : bool := negb (is_nan x || is_zero x).
Definition orElse (x d : float) : float := if truthy x then x else d.
Definition orElseStr (s d : string) : string :=
  if (s =? "")%string then d else s.

(** The [inputs] state of the form (lines 50-61): the three fields that
    [computeRecommendations] does not destructure, and the seven it does. *)
Record FormInputs := {
  location     : string;
  soilMoisture : float;
  irrigation   : string;
  scored       : Inputs
}.

(** An entry of [savedScenarios]: [{ id, createdAt, inputs }]. *)
Record Scenario := {
  sc_id        : float;
  sc_createdAt : string;
  sc_inputs    : FormInputs
}.

(** An entry of [history]:
    [{ id, when, location, ph, temp, rain, topCrop }]. *)
Record HistoryEntry := {
  h_id       : float;
  h_when     : string;
  h_location : string;
  h_ph       : float;
  h_temp     : float;
  h_rain     : float;
  h_topCrop  : string
}.

(** [saveScenario()], lines 109-114: the new list of saved scenarios;
    [now] is [Date.now()] and [iso] is [new Date().toISOString()]. *)
Definition saveScenario (now : float) (iso : string) (inputs : FormInputs)
  (savedScenarios : list Scenario) : list Scenario :=
  let toSave := {| sc_id := now; sc_createdAt := iso; sc_inputs := inputs |} in
  slice0 50 (toSave :: savedScenarios).

(** [loadScenario(s)], lines 116-119: the new [inputs]. *)
Definition loadScenario (s : Scenario) : FormInputs := sc_inputs s.

(** [deleteScenario(id)], lines 121-125: [s.id !== id] on numbers. *)
Definition deleteScenario (id : float) (savedScenarios : list Scenario)
  : list Scenario :=
  filter (fun s => negb (sc_id s =? id)) savedScenarios.

(** [recs[0]?.name || "-"], line 202. *)
Definition topCrop (recs : list RankedCrop) : string :=
  match recs with
  | [] => "-"%string
  | r :: _ => orElseStr (name (crop r)) "-"
  end.

(** The history entry that [handleRecommend] pushes (lines 196-203). *)
Definition historyEntry (now : float) (iso : string) (inputs : FormInputs)
  (recs : list RankedCrop) : HistoryEntry :=
  {| h_id := now; h_when := iso; h_location := location inputs;
     h_ph := ph (scored inputs); h_temp := temperature (scored inputs);
     h_rain := rainfall (scored inputs); h_topCrop := topCrop recs |}.

(** The new [history] after the timer of [handleRecommend] has fired
    (lines 180, 196-205). *)
Definition pushHistory (now : float) (iso : string) (inputs : FormInputs)
  (history : list HistoryEntry) : list HistoryEntry :=
  let recs := computeRecommendations (scored inputs) in
  slice0 200 (historyEntry now iso inputs recs :: history).

(** [toggleCompare(rec)], lines 248-254: the new [compare.items]. *)
Definition toggleCompare (rec : RankedCrop) (items : list RankedCrop)
  : list RankedCrop :=
  let same := fun i : RankedCrop => (name (crop i) =? name (crop rec))%string in
  if existsb same items then filter (fun i => negb (same i)) items
  else slice0 3 (items ++ [rec]).

(** The percentage shown for a record, [Math.round(rec.score * 100)]
    (lines 354, 484, 735). *)
Definition percent (r : RankedCrop) : float := Math_round (score r * 100).

(** The chart preview (lines 89-98). *)
Definition months : list string :=
  ["Jan"; "Feb"; "Mar"; "Apr"; "May"; "Jun";
   "Jul"; "Aug"; "Sep"; "Oct"; "Nov"; "Dec"]%string.

(** [results[0]?.expectedYieldValue || 2.5]. *)
Definition chartBaseline (results : list RankedCrop) : float :=
  match results with
  | [] => 2.5
  | r :: _ => orElse (expectedYieldValue r) 2.5
  end.

(** One point of the chart, for the month of index [i]. *)
Definition chartPoint (baseline : float) (i : nat) : float :=
  Math_round ((baseline * (0.85 + Z2float (Z.of_nat (i mod 6)) * 0.05)) * 10) / 10.

Definition chartData (results : list RankedCrop) : list (string * float) :=
  let baseline := chartBaseline results in
  map (fun mi => (fst mi, chartPoint baseline (snd mi)))
      (combine months (seq 0 12)).

(** The placeholder feature importances of [handleRecommend]
    (lines 183-192); [r1 .. r5] are the five results of [Math.random()]. *)
Definition shapData (r1 r2 r3 r4 r5 : float) : list (string * float) :=
  Array_sort (fun a b => snd b - snd a)
    (map (fun x => (fst x, Math_round (snd x * 100) / 100))
         [("Soil pH"%string, r1); ("Temperature"%string, r2);
          ("Rainfall"%string, r3); ("Area"%string, r4);
          ("Soil Type"%string, r5)]).

(** A result of [Math.random()]: a number of positive sign, at least [+0]
    and below 1. *)
Definition random01 (x : float) : bool := nonneg x && (x <? 1).

(** [Math.round(x * 100) / 100]. *)
Definition hundredths (x : float) : float := Math_round (x * 100) / 100.

(** Checked by evaluation: every whole number of hundredths up to 100 is a
    number between 0 and 1. *)
Definition hundredths_check : bool :=
  forallb (fun k => (0 <=? Z2float k / 100) && (Z2float k / 100 <=? 1))
          (Zrange 101).

(** A list of numbers that never decreases. *)
Fixpoint rising (l : list float) : bool :=
  match l with
  | x :: (y :: _) as t => (x <=? y) && rising t
  | _ => true
  end.

(** Checked by evaluation on the reference table: every attainable yield
    per hectare is a positive number, hence truthy, and gives a chart that
    never decreases over the first six months. *)
Definition chart_check (c : Crop) : bool :=
  forallb (fun k => let y := Z2float k / 10 in
                    truthy y && (0 <? y)
                    && rising (map (chartPoint y) (seq 0 6)))
          (Zinterval (tenths_floor (baseYield c))
                     (tenths_cap rawMax (baseYield c))).

(** The initial [inputs] state (lines 50-61). *)
Definition defaultForm : FormInputs :=
  {| location := "Agra, IN"; soilMoisture := 30; irrigation := "Canal";
     scored := defaultInputs |}.

(** Fifty saved scenarios, with the ids 1 to 50. *)
Definition fiftyScenarios : list Scenario :=
  map (fun i => {| sc_id := Z2float (Z.of_nat i); sc_createdAt := "";
                   sc_inputs := defaultForm |})
      (seq 1 50).

(** A recommendation takes two steps (lines 169-208).  Submitting the form
    calls the [handleRecommend] of the last render, which starts a timer
    of 500 ms; its callback holds the [inputs] and the [history] of that
    render.  When the timer fires, the callback computes the
    recommendations from those inputs and sets the history to the new
    entry in front of the history it holds (line 204 passes a value to
    [setHistory], not an update function).  Timers of equal delay fire in
    the order in which they were started. *)
Record Pending := {
  p_inputs  : FormInputs;
  p_history : list HistoryEntry
}.

Record RunState := {
  st_history : list HistoryEntry;
  st_timers  : list Pending
}.

Inductive Event :=
| Submit (inputs : FormInputs)
| TimerFires (now : float) (iso : string).

Definition step (s : RunState) (e : Event) : RunState :=
  match e with
  | Submit inputs =>
      {| st_history := st_history s;
         st_timers := (st_timers s
                       ++ [{| p_inputs := inputs;
                              p_history := st_history s |}])%list |}
  | TimerFires now iso =>
      match st_timers s with
      | [] => s
      | p :: rest =>
          {| st_history := pushHistory now iso (p_inputs p) (p_history p);
             st_timers := rest |}
      end
  end.

Definition runEvents (s : RunState) (events : list Event) : RunState :=
  fold_left step events s.

End App.

(** ** Measurements that are not numbers *)

Local Open Scope float_scope.

(** One of [ph], [temperature] and [rainfall] is NaN. *)
Definition anyNaN (inp : Inputs) : bool :=
  is_nan (ph inp) || is_nan (temperature inp) || is_nan (rainfall inp).

(** The scenario [inp] with another pH, or another temperature,
    everything else unchanged. *)
Definition withPh (inp : Inputs) (v : float) : Inputs :=
  {| ph := v; temperature := temperature inp; rainfall := rainfall inp;
     soilType := soilType inp; area := area inp; season := season inp;
     preference := preference inp |}.

Definition withTemperature (inp : Inputs) (v : float) : Inputs :=
  {| ph := ph inp; temperature := v; rainfall := rainfall inp;
     soilType := soilType inp; area := area inp; season := season inp;
     preference := preference inp |}.

(** ** What an engine may do for [sort] *)

(** [Array.prototype.sort] is left to the engine, within a contract
    (ECMAScript 2019, 22.1.3.27): the result is the array rearranged by a
    permutation of its indices, here the list [p] of the original index of
    each position of the result; no element is followed by one that the
    comparator puts strictly before it; and two elements that the
    comparator does not order strictly keep their original order (the sort
    is stable).  As in [insert], a comparator result that is negative,
    zero or NaN is not positive. *)
Definition pick {A : Type} (l : list A) (p : list nat) : list A :=
  flat_map (fun i => match nth_error l i with Some x => [x] | None => [] end) p.

Definition is_permutation (n : nat) (p : list nat) : bool :=
  (length p =? n)%nat && forallb (fun i => existsb (Nat.eqb i) p) (seq 0 n).

(** [R x y] for every [x] followed, later in the list, by [y]. *)
Fixpoint all_pairs {A : Type} (R : A -> A -> bool) (l : list A) : bool :=
  match l with
  | [] => true
  | x :: t => forallb (R x) t && all_pairs R t
  end.

Definition sort_contract {A : Type} (cmp : A -> A -> float) (l : list A)
  (p : list nat) : bool :=
  is_permutation (length l) p
  && all_pairs (fun i j =>
                  match nth_error l i, nth_error l j with
                  | Some a, Some b =>
                      negb (0 <? cmp a b) && ((0 <? cmp b a) || (i <? j)%nat)
                  | _, _ => false
                  end) p.

(** Line 166 with the sort of any engine that keeps the contract:
    [out] is a possible result of [computeRecommendations(inp)]. *)
Definition recommends (inp : Inputs) (out : list RankedCrop) : Prop :=
  exists p : list nat,
    sort_contract (fun a b => score b - score a)
                  (map (scoreCrop inp) cropBank) p = true
    /\ out = slice0 3 (pick (map (scoreCrop inp) cropBank) p).

(** ** Rounding to one decimal place *)

Local Open Scope Q_scope.


(** [k] tenths as the code returns them: the binary64 quotient of the
    whole number [k] by 10. *)
Definition tenths (k : Z) : float := (Z2float k / 10)%float.




(** [expectedYieldPerHectare * area] in exact arithmetic, from the
    binary64 values of the yield per hectare and of the area. *)
Definition exactYieldTotal (inp : Inputs) (c : Crop) : Q :=
  F2Q (expectedYieldValue (scoreCrop inp c)) * F2Q (area inp).


Local Open Scope float_scope.




(** * Binary64 arithmetic *)

(** ** Sums with zero *)

Local Open Scope float_scope.

Lemma Prim2SF_zero : Prim2SF 0 = S754_zero false.
Proof. reflexivity. Qed.

(** Adding [+0] first does not change a sum with a non-zero finite term. *)
Lemma add_zero_then_add (x c : float) (s : bool) (m : positive) (e : Z) :
  Prim2SF c = S754_finite s m e -> (x + 0) + c = x + c.
Proof.
  intros Hc. apply Prim2SF_inj.
  rewrite !add_spec, Prim2SF_zero, Hc.
  destruct (Prim2SF x) as [[|]| [|] | |sx mx ex]; reflexivity.
Qed.

(** ** Mantissa digits and right shifts *)

Local Open Scope Z_scope.

Lemma digits2_pos_size (m : positive) : digits2_pos m = Pos.size m.
Proof. induction m; simpl; congruence. Qed.

Lemma digits2_bounds (m : positive) :
  2 ^ (Zpos (digits2_pos m) - 1) <= Zpos m < 2 ^ Zpos (digits2_pos m).
Proof.
  rewrite digits2_pos_size. split.
  - pose proof (Pos.size_le m) as H.
    apply Pos2Z.pos_le_pos in H. rewrite Pos2Z.inj_pow in H.
    change (Zpos m~0) with (2 * Zpos m) in H.
    replace (Zpos (Pos.size m)) with (Zpos (Pos.size m) - 1 + 1) in H by lia.
    rewrite Z.pow_add_r in H by lia. lia.
  - pose proof (Pos.size_gt m) as H.
    apply Pos2Z.pos_lt_pos in H. rewrite Pos2Z.inj_pow in H. exact H.
Qed.

Lemma shr_1_m (mrs : shr_record) :
  0 <= shr_m mrs -> shr_m (shr_1 mrs) = shr_m mrs / 2.
Proof.
  destruct mrs as [[|[p|p|]|p] r s]; cbn [shr_m shr_1]; intros H;
    try lia; rewrite <- Z.div2_div; reflexivity.
Qed.

Lemma iter_shr_1_m (p : positive) :
  forall mrs : shr_record,
    0 <= shr_m mrs ->
    shr_m (iter_pos shr_1 p mrs) = shr_m mrs / 2 ^ Zpos p.
Proof.
  induction p as [p IH|p IH|]; intros mrs H; cbn [iter_pos].
  - assert (H1 : 0 <= shr_m (shr_1 mrs))
      by (rewrite shr_1_m by assumption; apply Z.div_pos; lia).
    assert (H2 : 0 <= shr_m (iter_pos shr_1 p (shr_1 mrs)))
      by (rewrite IH by assumption; apply Z.div_pos; lia).
    rewrite IH, IH, shr_1_m by assumption.
    rewrite !Z.div_div by lia.
    replace (Zpos p~1) with (1 + Zpos p + Zpos p) by lia.
    rewrite !Z.pow_add_r, Z.pow_1_r by lia. f_equal. ring.
  - assert (H2 : 0 <= shr_m (iter_pos shr_1 p mrs))
      by (rewrite IH by assumption; apply Z.div_pos; lia).
    rewrite IH, IH by assumption.
    rewrite !Z.div_div by lia.
    replace (Zpos p~0) with (Zpos p + Zpos p) by lia.
    rewrite !Z.pow_add_r by lia. f_equal.
  - rewrite shr_1_m by assumption. reflexivity.
Qed.

Lemma shr_record_of_loc_m (m : Z) (l : location) :
  shr_m (shr_record_of_loc m l) = m.
Proof. destruct l as [|[| |]]; reflexivity. Qed.

Lemma shr_fexp_spec (m e : Z) (l : location) :
  0 <= m ->
  shr_m (fst (shr_fexp prec emax m e l)) = m / 2 ^ dropped m e
  /\ snd (shr_fexp prec emax m e l) = e + dropped m e.
Proof.
  intros Hm. unfold shr_fexp, shr, dropped.
  destruct (fexp prec emax (Zdigits2 m + e) - e) as [|p|p]; cbn [fst snd].
  - rewrite shr_record_of_loc_m, Z.div_1_r. lia.
  - rewrite iter_shr_1_m by (rewrite shr_record_of_loc_m; exact Hm).
    rewrite shr_record_of_loc_m. split; [reflexivity|lia].
  - rewrite shr_record_of_loc_m, Z.div_1_r. lia.
Qed.

Lemma round_nearest_even_range (m : Z) (l : location) :
  m <= round_nearest_even m l <= m + 1
  /\ (l = loc_Exact -> round_nearest_even m l = m).
Proof.
  destruct l as [|[| |]]; cbn [round_nearest_even];
    try destruct (Z.even m); split; intros; try lia; discriminate.
Qed.

Lemma dropped_nonneg (m e : Z) : 0 <= dropped m e.
Proof. unfold dropped. lia. Qed.

Lemma shr_fexp_exact (m e : Z) (l : location) :
  dropped m e = 0 ->
  loc_of_shr_record (fst (shr_fexp prec emax m e l)) = l.
Proof.
  unfold dropped, shr_fexp, shr. intros H.
  destruct (fexp prec emax (Zdigits2 m + e) - e) as [|p|p]; try lia;
    destruct l as [|[| |]]; reflexivity.
Qed.

(** Dropping bits leaves a full mantissa, unless nothing is dropped or the
    smallest exponent is reached. *)
Lemma dropped_digits (m : positive) (e : Z) :
  dropped (Zpos m) e = 0
  \/ e + dropped (Zpos m) e = emin
  \/ 2 ^ (prec - 1) <= Zpos m / 2 ^ dropped (Zpos m) e.
Proof.
  unfold dropped, fexp. cbn [Zdigits2].
  pose proof (digits2_bounds m) as [Hd _].
  set (d := Zpos (digits2_pos m)) in *.
  destruct (Z.max_spec 0 (Z.max (d + e - prec) emin - e)) as [[H1 ->]|[H1 ->]];
    [|left; reflexivity].
  destruct (Z.max_spec (d + e - prec) emin) as [[H2 H3]|[H2 H3]]; rewrite H3 in *.
  - right; left. lia.
  - right; right. replace (d + e - prec - e) with (d - prec) by lia.
    apply Z.div_le_lower_bound; [apply Z.pow_pos_nonneg; lia|].
    rewrite <- Z.pow_add_r by (unfold prec in *; lia).
    replace (d - prec + (prec - 1)) with (d - 1) by lia. exact Hd.
Qed.

(** Above the smallest exponent the dropped bits never exhaust the
    mantissa. *)
Lemma dropped_small (m : positive) (e : Z) :
  emin <= e -> 2 ^ dropped (Zpos m) e <= Zpos m.
Proof.
  intros He. unfold dropped, fexp. cbn [Zdigits2].
  pose proof (digits2_bounds m) as [Hd _].
  set (d := Zpos (digits2_pos m)) in *.
  assert (Hn : Z.max 0 (Z.max (d + e - prec) emin - e) <= d - 1)
    by (unfold prec, d in *; lia).
  eapply Z.le_trans; [|exact Hd].
  apply Z.pow_le_mono_r; lia.
Qed.

(** The two shifts and the rounding step of [binary_round_aux], on
    integers. *)
Lemma binary_round_aux_cases (sx : bool) (mx ex : Z) (lx : location) :
  0 <= mx ->
  exists m2 m3 e1 e2 : Z,
    e1 = ex + dropped mx ex
    /\ mx / 2 ^ dropped mx ex <= m2 <= mx / 2 ^ dropped mx ex + 1
    /\ (lx = loc_Exact -> dropped mx ex = 0 -> m2 = mx)
    /\ e2 = e1 + dropped m2 e1
    /\ m3 = m2 / 2 ^ dropped m2 e1
    /\ binary_round_aux prec emax sx mx ex lx
       = match m3 with
         | Z0 => S754_zero sx
         | Zpos m =>
             if e2 <=? emax - prec then S754_finite sx m e2
             else S754_infinity sx
         | Zneg _ => S754_nan
         end.
Proof.
  intros Hmx. unfold binary_round_aux.
  pose proof (shr_fexp_spec mx ex lx Hmx) as [Hm1 He1].
  pose proof (shr_fexp_exact mx ex lx) as Hl1.
  destruct (shr_fexp prec emax mx ex lx) as [mrs1 e1]. cbn [fst snd] in *.
  pose proof (round_nearest_even_range (shr_m mrs1) (loc_of_shr_record mrs1))
    as [Hr Hrx].
  set (m2 := round_nearest_even (shr_m mrs1) (loc_of_shr_record mrs1)) in *.
  assert (Hm2 : 0 <= m2).
  { assert (0 <= shr_m mrs1).
    { rewrite Hm1. apply Z.div_pos; [lia|].
      apply Z.pow_pos_nonneg; [lia|apply dropped_nonneg]. }
    lia. }
  pose proof (shr_fexp_spec m2 e1 loc_Exact Hm2) as [Hm3 He2].
  destruct (shr_fexp prec emax m2 e1 loc_Exact) as [mrs2 e2]. cbn [fst snd] in *.
  exists m2, (shr_m mrs2), e1, e2.
  repeat split; try lia; try assumption.
  intros Hx Hd. rewrite Hrx by (rewrite Hl1; assumption).
  rewrite Hm1, Hd, Z.div_1_r. reflexivity.
Qed.

(** ** Signs and NaN *)

Lemma binary_round_aux_sign (sx : bool) (mx ex : Z) (lx : location) :
  0 <= mx ->
  SFnan (binary_round_aux prec emax sx mx ex lx) = false
  /\ SFsign (binary_round_aux prec emax sx mx ex lx) = sx.
Proof.
  intros Hmx.
  destruct (binary_round_aux_cases sx mx ex lx Hmx)
    as (m2 & m3 & e1 & e2 & He1 & Hm2 & _ & He2 & Hm3 & ->).
  assert (H3 : 0 <= m3).
  { subst m3. apply Z.div_pos; [|apply Z.pow_pos_nonneg; [lia|apply dropped_nonneg]].
    assert (0 <= mx / 2 ^ dropped mx ex)
      by (apply Z.div_pos; [lia|apply Z.pow_pos_nonneg; [lia|apply dropped_nonneg]]).
    lia. }
  destruct m3 as [|m|m]; [split; reflexivity| |lia].
  destruct (e2 <=? emax - prec); split; reflexivity.
Qed.

Lemma binary_round_sign (sx : bool) (mx : positive) (ex : Z) :
  SFnan (binary_round prec emax sx mx ex) = false
  /\ SFsign (binary_round prec emax sx mx ex) = sx.
Proof.
  unfold binary_round.
  destruct (shl_align mx ex (fexp prec emax (Zpos (digits2_pos mx) + ex)))
    as [mz ez].
  apply binary_round_aux_sign. lia.
Qed.

Lemma binary_normalize_sign (m e : Z) (sz : bool) :
  SFnan (binary_normalize prec emax m e sz) = false
  /\ SFsign (binary_normalize prec emax m e sz)
     = match m with Z0 => sz | Zpos _ => false | Zneg _ => true end.
Proof.
  destruct m as [|m|m]; cbn [binary_normalize]; [split; reflexivity| |];
    apply binary_round_sign.
Qed.

Lemma SFcompare_refl (x : spec_float) :
  SFcompare x x = if SFnan x then None else Some Eq.
Proof.
  destruct x as [s|s| |s m e]; cbn; try reflexivity.
  - destruct s; reflexivity.
  - rewrite Z.compare_refl, Pos.compare_cont_refl. destruct s; reflexivity.
Qed.

Lemma is_nan_spec (x : float) : is_nan x = SFnan (Prim2SF x).
Proof.
  unfold is_nan. rewrite eqb_spec. unfold SFeqb. rewrite SFcompare_refl.
  destruct (SFnan (Prim2SF x)); reflexivity.
Qed.

Lemma Prim2SF_infinity : Prim2SF infinity = S754_infinity false.
Proof. reflexivity. Qed.

Lemma is_finite_spec (x : float) : is_finite x = SFfinite (Prim2SF x).
Proof.
  unfold is_finite, is_infinity. rewrite is_nan_spec, eqb_spec, abs_spec.
  rewrite Prim2SF_infinity.
  destruct (Prim2SF x) as [s|s| |s m e]; reflexivity.
Qed.

Lemma is_finite_not_nan (x : float) :
  is_finite x = true -> SFnan (Prim2SF x) = false.
Proof.
  rewrite is_finite_spec. destruct (Prim2SF x); try reflexivity; discriminate.
Qed.

Lemma SFcompare_swap (x y : spec_float) :
  SFcompare y x = option_map CompOpp (SFcompare x y).
Proof.
  destruct x as [sx|sx| |sx mx ex], y as [sy|sy| |sy my ey]; cbn;
    try reflexivity;
    try (destruct sx; reflexivity); try (destruct sy; reflexivity);
    try (destruct sx, sy; reflexivity).
  rewrite (Z.compare_antisym ey ex).
  pose proof (Pos.compare_cont_antisym mx my Eq) as H.
  change (CompOpp Eq) with Eq in H. rewrite <- H.
  destruct sx, sy, (ey ?= ex); cbn; reflexivity.
Qed.

Lemma SFsub_not_nan (x y : spec_float) :
  SFnan x = false -> SFnan y = false ->
  SFfinite x = true \/ SFfinite y = true ->
  SFnan (SFsub prec emax x y) = false.
Proof.
  destruct x as [sx|sx| |sx mx ex], y as [sy|sy| |sy my ey]; cbn;
    intros Hx Hy [H|H]; try discriminate; try reflexivity;
    try (destruct sx, sy; reflexivity);
    apply binary_normalize_sign.
Qed.

Lemma SFabs_nonneg (x : spec_float) :
  SFnan x = false -> SFnonneg (SFabs x) = true.
Proof. destruct x; cbn; intros H; try discriminate; reflexivity. Qed.

Lemma SFdiv_core_binary_nonneg (m1 : positive) (e1 : Z) (m2 : positive) (e2 : Z) :
  0 <= fst (fst (SFdiv_core_binary prec emax (Zpos m1) e1 (Zpos m2) e2)).
Proof.
  unfold SFdiv_core_binary.
  set (s := _ - _ - _).
  set (m' := match s with Z0 => Zpos m1 | Zpos _ => Z.shiftl (Zpos m1) s
                     | Zneg _ => 0 end).
  assert (Hm' : 0 <= m').
  { unfold m'. destruct s; try lia. apply Z.shiftl_nonneg. lia. }
  pose proof (Z.div_pos m' (Zpos m2) Hm' ltac:(lia)) as Hq.
  unfold Z.div in Hq.
  destruct (Z.div_eucl m' (Zpos m2)) as [q r]. exact Hq.
Qed.

Lemma SFdiv_nonneg (x : spec_float) (m : positive) (e : Z) :
  SFnonneg x = true ->
  SFnonneg (SFdiv prec emax x (S754_finite false m e)) = true.
Proof.
  destruct x as [[|]|[|]| |[|] mx ex]; cbn [SFnonneg SFnan SFsign negb andb];
    intros H; try discriminate; try reflexivity.
  cbn [SFdiv xorb].
  pose proof (SFdiv_core_binary_nonneg mx ex m e) as Hq.
  destruct (SFdiv_core_binary prec emax (Zpos mx) ex (Zpos m) e) as [[q e'] l].
  cbn [fst] in Hq.
  destruct (binary_round_aux_sign false q e' l Hq) as [H1 H2].
  unfold SFnonneg. rewrite H1, H2. reflexivity.
Qed.

Lemma SFadd_nonneg (x y : spec_float) :
  SFnonneg x = true -> SFnonneg y = true ->
  SFnonneg (SFadd prec emax x y) = true.
Proof.
  destruct x as [[|]|[|]| |[|] mx ex], y as [[|]|[|]| |[|] my ey];
    cbn [SFnonneg SFnan SFsign negb andb];
    intros Hx Hy; try discriminate; try reflexivity.
  cbn [SFadd cond_Zopp].
  match goal with
  | |- context [binary_normalize _ _ ?m ?e ?s] =>
      pose proof (binary_normalize_sign m e s) as [H1 H2]
  end.
  unfold SFnonneg. rewrite H1, H2. reflexivity.
Qed.

(** ** The same facts on [float] *)

Local Open Scope float_scope.

Lemma nonneg_not_nan (x : float) : nonneg x = true -> is_nan x = false.
Proof.
  unfold nonneg, SFnonneg. rewrite is_nan_spec.
  destruct (SFnan (Prim2SF x)); [discriminate|reflexivity].
Qed.

Lemma add_nonneg (x y : float) :
  nonneg x = true -> nonneg y = true -> nonneg (x + y) = true.
Proof. unfold nonneg. rewrite add_spec. apply SFadd_nonneg. Qed.

Lemma zero_ltb (t : float) :
  (0 <? t) = negb (SFnan (Prim2SF t)) && negb (SFsign (Prim2SF t))
             && negb (match Prim2SF t with S754_zero _ => true | _ => false end).
Proof.
  rewrite ltb_spec, Prim2SF_zero. unfold SFltb.
  destruct (Prim2SF t) as [[|]|[|]| |[|] m e]; reflexivity.
Qed.

(** [Math.max(0, t)] is [t] when [t] is positive and [0] otherwise. *)
Lemma Math_max_0 (t : float) :
  is_nan t = false ->
  Math_max 0 t = (if 0 <? t then t else 0)
  /\ nonneg (Math_max 0 t) = true.
Proof.
  intros Hn.
  assert (E : Math_max 0 t = if 0 <? t then t else 0).
  { unfold Math_max. rewrite Hn. cbn [orb].
    change (is_nan 0) with false. cbn [orb].
    change (get_sign 0) with false.
    destruct (0 <? t), (t <? 0); reflexivity. }
  split; [exact E|]. rewrite E.
  destruct (0 <? t) eqn:Hlt; [|reflexivity].
  rewrite zero_ltb in Hlt. unfold nonneg, SFnonneg.
  destruct (SFnan (Prim2SF t)), (SFsign (Prim2SF t)); try discriminate.
  reflexivity.
Qed.

Lemma SFcompare_some (x y : spec_float) :
  SFnan x = false -> SFnan y = false -> exists c, SFcompare x y = Some c.
Proof.
  destruct x, y; cbn; intros Hx Hy; try discriminate; eexists; reflexivity.
Qed.

(** On numbers the order is total. *)
Lemma leb_of_not_ltb (x y : float) :
  is_nan x = false -> is_nan y = false -> (x <? y) = false -> (y <=? x) = true.
Proof.
  rewrite !is_nan_spec, ltb_spec, leb_spec. unfold SFltb, SFleb.
  intros Hx Hy. rewrite (SFcompare_swap (Prim2SF x) (Prim2SF y)).
  destruct (SFcompare_some _ _ Hx Hy) as [c ->].
  destruct c; cbn; intros H; try discriminate; reflexivity.
Qed.

Lemma zero_leb_nonneg (x : float) : nonneg x = true -> (0 <=? x) = true.
Proof.
  unfold nonneg. rewrite leb_spec, Prim2SF_zero.
  destruct (Prim2SF x) as [[|]|[|]| |[|] m e]; cbn; intros H;
    try discriminate; reflexivity.
Qed.

(** [Math.min(1, s)] of a non-negative [s] lies between 0 and 1. *)
Lemma Math_min_1_range (s : float) :
  nonneg s = true ->
  (0 <=? Math_min 1 s) = true /\ (Math_min 1 s <=? 1) = true.
Proof.
  intros Hs. pose proof (nonneg_not_nan s Hs) as Hn.
  unfold Math_min. rewrite Hn.
  change (is_nan 1) with false. change (get_sign 1) with false. cbn [orb].
  destruct (1 <? s) eqn:H1; [split; reflexivity|].
  assert (E : (if s <? 1 then s else s) = s) by (destruct (s <? 1); reflexivity).
  rewrite E. split; [apply zero_leb_nonneg; exact Hs|].
  apply leb_of_not_ltb; [reflexivity|exact Hn|exact H1].
Qed.

(** The decay term is a non-negative number whenever the measured value is
    a number. *)
Lemma decay_nonneg (w d mid v : float) :
  is_finite w = true -> finite_pos d = true -> is_finite mid = true ->
  is_nan v = false ->
  nonneg (Math_max 0 (w - Math_abs (mid - v) / d)) = true.
Proof.
  intros Hw Hd Hmid Hv. apply Math_max_0.
  rewrite is_nan_spec in Hv |- *. rewrite is_finite_spec in Hw, Hmid.
  unfold Math_abs, finite_pos in *.
  rewrite sub_spec, div_spec, abs_spec, sub_spec.
  unfold SF64sub, SF64div.
  destruct (Prim2SF d) as [| | |[|] md ed]; try discriminate.
  assert (Hz : SFnonneg (SFdiv prec emax
                 (SFabs (SFsub prec emax (Prim2SF mid) (Prim2SF v)))
                 (S754_finite false md ed)) = true).
  { apply SFdiv_nonneg, SFabs_nonneg, SFsub_not_nan; auto.
    destruct (Prim2SF mid); try discriminate; reflexivity. }
  apply SFsub_not_nan; auto.
  - destruct (Prim2SF w); try discriminate; reflexivity.
  - apply andb_prop in Hz. destruct Hz as [Hz _].
    apply negb_true_iff in Hz. exact Hz.
Qed.

(** Starting the sum at [+0] leaves the first term as it is. *)
Lemma zero_add_Math_max (t : float) : 0 + Math_max 0 t = Math_max 0 t.
Proof.
  destruct (is_nan t) eqn:Hn.
  - unfold Math_max. rewrite Hn, orb_true_r. reflexivity.
  - destruct (Math_max_0 t Hn) as [-> _].
    destruct (0 <? t) eqn:Hlt; [|reflexivity].
    rewrite zero_ltb in Hlt. apply Prim2SF_inj.
    rewrite add_spec, Prim2SF_zero.
    destruct (Prim2SF t) as [[|]|[|]| |[|] m e]; try discriminate; reflexivity.
Qed.

(** ** The order of binary64 numbers *)

Local Open Scope Z_scope.

Lemma bounded_facts (m : positive) (e : Z) :
  bounded prec emax m e = true ->
  emin <= e <= emax - prec
  /\ Zpos m < 2 ^ prec
  /\ (e = emin \/ 2 ^ (prec - 1) <= Zpos m).
Proof.
  unfold bounded, canonical_mantissa, fexp. intros H.
  apply andb_prop in H. destruct H as [H1 H2].
  apply Z.eqb_eq in H1. apply Z.leb_le in H2.
  pose proof (digits2_bounds m) as [Hd1 Hd2].
  set (d := Zpos (digits2_pos m)) in *.
  assert (Hd : d <= prec) by lia.
  split; [lia|]. split.
  - eapply Z.lt_le_trans; [exact Hd2|]. apply Z.pow_le_mono_r; lia.
  - destruct (Z.eq_dec e emin) as [He|He]; [left; exact He|right].
    assert (d = prec) by lia. subst d. rewrite <- H. exact Hd1.
Qed.

Lemma pow2_pos (n : Z) : 0 <= n -> 0 < 2 ^ n.
Proof. intros H. apply Z.pow_pos_nonneg; lia. Qed.

(** Canonical mantissas: a smaller exponent means a smaller magnitude. *)
Lemma mag_lt (m1 : positive) (e1 : Z) (m2 : positive) (e2 : Z) :
  bounded prec emax m1 e1 = true -> bounded prec emax m2 e2 = true ->
  e1 < e2 ->
  Zpos m1 * 2 ^ (e1 - emin) < Zpos m2 * 2 ^ (e2 - emin).
Proof.
  intros H1 H2 He.
  destruct (bounded_facts m1 e1 H1) as (He1 & Hm1 & _).
  destruct (bounded_facts m2 e2 H2) as (He2 & _ & Hm2).
  destruct Hm2 as [Hm2|Hm2]; [lia|].
  replace (e2 - emin) with ((e1 - emin) + (e2 - e1)) by lia.
  rewrite Z.pow_add_r by lia.
  pose proof (pow2_pos (e1 - emin) ltac:(lia)) as Ha.
  assert (Hb : 2 ^ 1 <= 2 ^ (e2 - e1)) by (apply Z.pow_le_mono_r; lia).
  set (a := 2 ^ (e1 - emin)) in *. set (b := 2 ^ (e2 - e1)) in *.
  change (2 ^ prec) with (2 * 2 ^ (prec - 1)) in Hm1.
  set (c := 2 ^ (prec - 1)) in *. change (2 ^ 1) with 2 in Hb.
  assert (Zpos m1 * a < 2 * c * a) by (apply Z.mul_lt_mono_pos_r; lia).
  assert (Hcb : 2 * c <= Zpos m2 * b).
  { apply Z.le_trans with (Zpos m2 * 2); [lia|].
    apply Z.mul_le_mono_nonneg_l; lia. }
  assert (2 * c * a <= Zpos m2 * b * a)
    by (apply Z.mul_le_mono_nonneg_r; lia).
  replace (Zpos m2 * (a * b)) with (Zpos m2 * b * a) by ring.
  lia.
Qed.

Lemma mag_compare (m1 : positive) (e1 : Z) (m2 : positive) (e2 : Z) :
  bounded prec emax m1 e1 = true -> bounded prec emax m2 e2 = true ->
  (Zpos m1 * 2 ^ (e1 - emin) ?= Zpos m2 * 2 ^ (e2 - emin))
  = match e1 ?= e2 with
    | Lt => Lt
    | Gt => Gt
    | Eq => Pos.compare_cont Eq m1 m2
    end.
Proof.
  intros H1 H2. destruct (Z.compare_spec e1 e2) as [He|He|He].
  - subst e2. destruct (bounded_facts m1 e1 H1) as (He1 & _).
    rewrite <- Zmult_compare_compat_r
      by (apply Z.lt_gt, pow2_pos; lia).
    reflexivity.
  - apply Z.compare_lt_iff, mag_lt; assumption.
  - apply Z.compare_gt_iff, mag_lt; assumption.
Qed.

Lemma mag_lt_infinity (m : positive) (e : Z) :
  bounded prec emax m e = true -> 0 < Zpos m * 2 ^ (e - emin) < 2 ^ 2098.
Proof.
  intros H. destruct (bounded_facts m e H) as (He & Hm & _).
  pose proof (pow2_pos (e - emin) ltac:(lia)) as Ha.
  assert (Hb : 2 ^ (e - emin) <= 2 ^ 2045)
    by (apply Z.pow_le_mono_r; unfold SpecFloat.emin, emax, prec in *; lia).
  change (2 ^ 2098) with (2 ^ prec * 2 ^ 2045).
  set (a := 2 ^ (e - emin)) in *. set (b := 2 ^ 2045) in *.
  set (c := 2 ^ prec) in *. split; [lia|].
  assert (Zpos m * a < c * a) by (apply Z.mul_lt_mono_pos_r; lia).
  assert (c * a <= c * b) by (apply Z.mul_le_mono_nonneg_l; lia).
  lia.
Qed.

(** [SFcompare] is the comparison of the integer readings. *)
Lemma SFcompare_ord (x y : spec_float) :
  valid_binary x = true -> valid_binary y = true ->
  SFnan x = false -> SFnan y = false ->
  SFcompare x y = Some (SFord x ?= SFord y).
Proof.
  destruct x as [sx|sx| |sx mx ex], y as [sy|sy| |sy my ey];
    cbn [valid_binary SFnan SFcompare SFord];
    intros Vx Vy Nx Ny; try discriminate; f_equal;
    try pose proof (mag_lt_infinity mx ex Vx) as Hx;
    try pose proof (mag_lt_infinity my ey Vy) as Hy;
    pose proof (pow2_pos 2098 ltac:(lia)) as HB;
    set (B := 2 ^ 2098) in *.
  all: try destruct sx; try destruct sy; cbn [cond_Zopp];
    try reflexivity;
    try (symmetry;
         first [apply Z.compare_eq_iff; lia
               |apply Z.compare_lt_iff; lia
               |apply Z.compare_gt_iff; lia]).
  - rewrite Z.compare_opp, (mag_compare my ey mx ex Vy Vx).
    rewrite (Z.compare_antisym ey ex).
    pose proof (Pos.compare_cont_antisym mx my Eq) as H.
    change (CompOpp Eq) with Eq in H. rewrite <- H.
    destruct (ey ?= ex); reflexivity.
  - rewrite (mag_compare mx ex my ey Vx Vy). reflexivity.
Qed.

(** A positive mantissa at an exponent of at least [emin] never rounds to
    zero. *)
Lemma binary_round_aux_pos (sx : bool) (mx : positive) (ex : Z) (lx : location) :
  emin <= ex ->
  match binary_round_aux prec emax sx (Zpos mx) ex lx with
  | S754_finite s _ _ | S754_infinity s => s = sx
  | _ => False
  end.
Proof.
  intros He.
  destruct (binary_round_aux_cases sx (Zpos mx) ex lx ltac:(lia))
    as (m2 & m3 & e1 & e2 & He1 & Hm2 & _ & He2 & Hm3 & ->).
  pose proof (dropped_small mx ex He) as H1.
  pose proof (dropped_nonneg (Zpos mx) ex) as Hn1.
  assert (H1' : 1 <= Zpos mx / 2 ^ dropped (Zpos mx) ex)
    by (apply Z.div_le_lower_bound; [apply pow2_pos; exact Hn1|lia]).
  destruct m2 as [|m2|m2]; try lia.
  pose proof (dropped_small m2 e1 ltac:(lia)) as H2.
  pose proof (dropped_nonneg (Zpos m2) e1) as Hn2.
  assert (H2' : 1 <= m3)
    by (subst m3; apply Z.div_le_lower_bound; [apply pow2_pos; exact Hn2|lia]).
  destruct m3 as [|m3|m3]; try lia.
  destruct (e2 <=? emax - prec); reflexivity.
Qed.

Lemma iter_xO (d m : positive) : Zpos (Pos.iter xO m d) = Zpos m * 2 ^ Zpos d.
Proof.
  induction d as [|d IH] using Pos.peano_ind.
  - cbn [Pos.iter]. lia.
  - rewrite Pos.iter_succ, Pos2Z.inj_xO, IH, Pos2Z.inj_succ, Z.pow_succ_r by lia.
    ring.
Qed.

Lemma shl_align_spec (m : positive) (e e' : Z) :
  e' <= e ->
  Zpos (fst (shl_align m e e')) = Zpos m * 2 ^ (e - e')
  /\ snd (shl_align m e e') = e'.
Proof.
  intros H. unfold shl_align.
  destruct (e' - e) as [|d|d] eqn:E; cbn [fst snd]; try lia.
  - replace (e - e') with 0 by lia. split; lia.
  - rewrite iter_xO. replace (e - e') with (Zpos d) by lia. split; reflexivity.
Qed.

Lemma binary_round_pos (sx : bool) (m : positive) (e : Z) :
  emin <= e ->
  match binary_round prec emax sx m e with
  | S754_finite s _ _ | S754_infinity s => s = sx
  | _ => False
  end.
Proof.
  intros He. unfold binary_round.
  set (f := fexp prec emax (Zpos (digits2_pos m) + e)).
  assert (Hf : emin <= f) by (unfold f, fexp; lia).
  unfold shl_align.
  destruct (f - e) as [|d|d] eqn:E; apply binary_round_aux_pos; lia.
Qed.

Local Open Scope float_scope.

Lemma ltb_ord (x y : float) :
  is_nan x = false -> is_nan y = false -> (x <? y) = (ord x <? ord y)%Z.
Proof.
  rewrite !is_nan_spec, ltb_spec. intros Hx Hy. unfold SFltb, ord, Z.ltb.
  rewrite SFcompare_ord by auto using Prim2SF_valid. reflexivity.
Qed.

Lemma leb_ord (x y : float) :
  is_nan x = false -> is_nan y = false -> (x <=? y) = (ord x <=? ord y)%Z.
Proof.
  rewrite !is_nan_spec, leb_spec. intros Hx Hy. unfold SFleb, ord, Z.leb.
  rewrite SFcompare_ord by auto using Prim2SF_valid.
  destruct (_ ?= _)%Z; reflexivity.
Qed.

Lemma eqb_ord (x y : float) :
  is_nan x = false -> is_nan y = false -> (x =? y) = (ord x =? ord y)%Z.
Proof.
  rewrite !is_nan_spec, eqb_spec. intros Hx Hy. unfold SFeqb, ord.
  rewrite SFcompare_ord by auto using Prim2SF_valid.
  destruct (Z.compare_spec (SFord (Prim2SF x)) (SFord (Prim2SF y)));
    destruct (Z.eqb_spec (SFord (Prim2SF x)) (SFord (Prim2SF y)));
    try lia; reflexivity.
Qed.

Local Open Scope Z_scope.

Lemma cond_Zopp_mul (s : bool) (a b : Z) : cond_Zopp s a * b = cond_Zopp s (a * b).
Proof. destruct s; cbn [cond_Zopp]; ring. Qed.

(** The aligned mantissas of a sum or difference, read in units of
    [2^emin]. *)
Lemma aligned_ord (s : bool) (m : positive) (e ez : Z) :
  emin <= ez -> ez <= e ->
  cond_Zopp s (Zpos (fst (shl_align m e ez))) * 2 ^ (ez - emin)
  = SFord (S754_finite s m e).
Proof.
  intros H1 H2. destruct (shl_align_spec m e ez H2) as [-> _].
  cbn [SFord]. rewrite cond_Zopp_mul. f_equal.
  rewrite <- Z.mul_assoc, <- Z.pow_add_r by lia. do 2 f_equal. lia.
Qed.

(** A difference is positive exactly when the minuend is the larger
    number. *)
Lemma SFsub_pos (y x : spec_float) :
  valid_binary y = true -> valid_binary x = true ->
  SFnan y = false -> SFnan x = false ->
  SFltb (S754_zero false) (SFsub prec emax y x) = (SFord x <? SFord y).
Proof.
  destruct y as [sy|sy| |sy my ey], x as [sx|sx| |sx mx ex];
    cbn [valid_binary SFnan SFsub SFord];
    intros Vy Vx Ny Nx; try discriminate;
    try pose proof (mag_lt_infinity mx ex Vx) as Hx;
    try pose proof (mag_lt_infinity my ey Vy) as Hy;
    pose proof (pow2_pos 2098 ltac:(lia)) as HB;
    set (B := 2 ^ 2098) in *.
  all: try (try destruct sy; try destruct sx; cbn [cond_Zopp negb SFltb SFcompare];
            symmetry;
            first [apply Z.ltb_lt; lia | apply Z.ltb_ge; lia]).
  destruct (bounded_facts my ey Vy) as (Hey & _).
  destruct (bounded_facts mx ex Vx) as (Hex & _).
  set (ez := Z.min ey ex).
  pose proof (aligned_ord sy my ey ez ltac:(lia) ltac:(lia)) as Ay.
  pose proof (aligned_ord sx mx ex ez ltac:(lia) ltac:(lia)) as Ax.
  cbn [SFord] in Ay, Ax. rewrite <- Ay, <- Ax.
  pose proof (pow2_pos (ez - emin) ltac:(lia)) as Hp.
  set (p := 2 ^ (ez - emin)) in *.
  set (a := cond_Zopp sy _) in *. set (b := cond_Zopp sx _) in *.
  assert (E : (b * p <? a * p) = (0 <? a - b)).
  { destruct (Z.ltb_spec 0 (a - b)); [apply Z.ltb_lt|apply Z.ltb_ge]; nia. }
  rewrite E. clearbody a b. clear E Ay Ax.
  destruct (a - b) as [|M|M] eqn:EM; cbn [binary_normalize].
  - reflexivity.
  - pose proof (binary_round_pos false M ez ltac:(lia)) as H.
    destruct (binary_round prec emax false M ez); try contradiction;
      subst; reflexivity.
  - destruct (binary_round_sign true M ez) as [H1 H2].
    destruct (binary_round prec emax true M ez) as [[|]|[|]| |[|] m e];
      try discriminate; reflexivity.
Qed.

Local Open Scope float_scope.

(** The sign test of the comparator [b.score - a.score]. *)
Lemma sub_pos_ord (x y : float) :
  is_nan x = false -> is_nan y = false ->
  (0 <? y - x) = (ord x <? ord y)%Z.
Proof.
  rewrite !is_nan_spec. intros Hx Hy.
  rewrite ltb_spec, sub_spec, Prim2SF_zero.
  apply SFsub_pos; auto using Prim2SF_valid.
Qed.

(** ** Rounding never adds more than one unit in the last place *)

Local Open Scope Z_scope.

Lemma binary_round_aux_upper (mx : positive) (ex : Z) :
  binary_round_aux prec emax false (Zpos mx) ex loc_Exact = S754_zero false
  \/ exists (m3 : positive) (e2 : Z),
      ex <= e2
      /\ Zpos m3 * 2 ^ (e2 - ex) <= Zpos mx + 2 ^ (e2 - ex)
      /\ ((e2 = ex /\ m3 = mx) \/ e2 = emin \/ 2 ^ (prec - 1) <= Zpos m3)
      /\ binary_round_aux prec emax false (Zpos mx) ex loc_Exact
         = if e2 <=? emax - prec then S754_finite false m3 e2
           else S754_infinity false.
Proof.
  destruct (binary_round_aux_cases false (Zpos mx) ex loc_Exact ltac:(lia))
    as (m2 & m3 & e1 & e2 & He1 & Hm2 & Hx & He2 & Hm3 & ->).
  pose proof (dropped_nonneg (Zpos mx) ex) as Hn1.
  pose proof (dropped_nonneg m2 e1) as Hn2.
  set (n1 := dropped (Zpos mx) ex) in *. set (n2 := dropped m2 e1) in *.
  pose proof (pow2_pos n1 Hn1) as Hp1. pose proof (pow2_pos n2 Hn2) as Hp2.
  assert (Hm1 : 0 <= Zpos mx / 2 ^ n1) by (apply Z.div_pos; lia).
  assert (Hf1 : 2 ^ n1 * (Zpos mx / 2 ^ n1) <= Zpos mx)
    by (apply Z.mul_div_le; lia).
  assert (Hf2 : 2 ^ n2 * (m2 / 2 ^ n2) <= m2) by (apply Z.mul_div_le; lia).
  rewrite <- Hm3 in Hf2.
  assert (H3 : 0 <= m3) by (subst m3; apply Z.div_pos; lia).
  destruct m3 as [|m3|m3]; [left; reflexivity| |lia].
  right. exists m3, e2. split; [lia|]. split; [|split; [|reflexivity]].
  - replace (e2 - ex) with (n2 + n1) by lia.
    rewrite Z.pow_add_r by lia.
    set (p1 := 2 ^ n1) in *. set (p2 := 2 ^ n2) in *.
    set (m1 := Zpos mx / p1) in *.
    assert (Zpos m3 * p2 * p1 <= m2 * p1) by (apply Z.mul_le_mono_nonneg_r; lia).
    assert (m2 * p1 <= (m1 + 1) * p1) by (apply Z.mul_le_mono_nonneg_r; lia).
    assert (p1 <= p2 * p1) by nia.
    lia.
  - destruct m2 as [|m2|m2]; [| |lia].
    { exfalso. rewrite Z.div_0_l in Hm3 by lia. discriminate. }
    destruct (dropped_digits m2 e1) as [D2|[D2|D2]]; fold n2 in D2.
    + destruct (dropped_digits mx ex) as [D1|[D1|D1]]; fold n1 in D1.
      * left. split; [lia|].
        rewrite D2, Z.div_1_r in Hm3.
        specialize (Hx eq_refl D1). congruence.
      * right; left. lia.
      * right; right. rewrite D2, Z.div_1_r in Hm3. rewrite Hm3. lia.
    + right; left. lia.
    + right; right. rewrite Hm3. exact D2.
Qed.

Local Open Scope Q_scope.

Lemma Qpow2_pos (e : Z) : 0 < 2 ^ e.
Proof. apply Qpower_0_lt. reflexivity. Qed.

Lemma Qpow2_add (a b : Z) : 2 ^ (a + b) == 2 ^ a * 2 ^ b.
Proof. apply Qpower_plus. discriminate. Qed.

Lemma Qpow2_inject (k : Z) : (0 <= k)%Z -> inject_Z (2 ^ k) == 2 ^ k.
Proof. intros H. apply (Zpower_Qpower 2 k H). Qed.

Lemma Qpow2_le (a b : Z) : (a <= b)%Z -> 2 ^ a <= 2 ^ b.
Proof. intros H. apply Qpower_le_compat_l; [exact H|discriminate]. Qed.

Lemma eps_pow2 : 2 ^ (-45) == eps.
Proof. reflexivity. Qed.

(** A full mantissa and a value below 127 put the last place below
    [eps]. *)
Lemma ulp_small (m : positive) (P v : Q) :
  (2 ^ (prec - 1) <= Zpos m)%Z -> 0 < P ->
  inject_Z (Zpos m) * P <= v + P -> v <= 127 -> P <= eps.
Proof.
  intros Hm HP H Hv. unfold eps. rewrite Zle_Qle in Hm.
  change (inject_Z (2 ^ (prec - 1))) with (4503599627370496 # 1) in Hm.
  assert ((4503599627370496 - 1) * P <= (inject_Z (Zpos m) - 1) * P).
  { apply Qmult_le_compat_r; [lra|apply Qlt_le_weak, HP]. }
  lra.
Qed.

(** The value produced by [binary_round_aux] from an exact positive
    [mx * 2^ex] of at most 127. *)
Lemma binary_round_aux_value (mx : positive) (ex : Z) :
  inject_Z (Zpos mx) * 2 ^ ex <= 127 ->
  let r := binary_round_aux prec emax false (Zpos mx) ex loc_Exact in
  SFfinite r = true /\ SFnonneg r = true
  /\ SF2Q r <= inject_Z (Zpos mx) * 2 ^ ex + eps.
Proof.
  intros Hv r. subst r.
  pose proof (Qpow2_pos ex) as Ha.
  assert (Hmx : 1 <= inject_Z (Zpos mx))
    by (change 1 with (inject_Z 1); rewrite <- Zle_Qle; lia).
  assert (Hv0 : 0 < inject_Z (Zpos mx) * 2 ^ ex)
    by (apply Qmult_lt_0_compat; lra).
  destruct (binary_round_aux_upper mx ex)
    as [->|(m3 & e2 & He & HU & HD & ->)].
  { repeat split. cbn [SF2Q]. unfold eps. lra. }
  pose proof (Qpow2_pos e2) as HP.
  assert (HPe : 2 ^ e2 == 2 ^ (e2 - ex) * 2 ^ ex)
    by (rewrite <- Qpow2_add; apply Qpower_comp; [reflexivity|lia]).
  assert (HUq : inject_Z (Zpos m3) * 2 ^ e2
                <= inject_Z (Zpos mx) * 2 ^ ex + 2 ^ e2).
  { rewrite Zle_Qle, inject_Z_plus, inject_Z_mult in HU.
    rewrite Qpow2_inject in HU by lia.
    rewrite HPe.
    assert (inject_Z (Zpos m3) * 2 ^ (e2 - ex) * 2 ^ ex
            <= (inject_Z (Zpos mx) + 2 ^ (e2 - ex)) * 2 ^ ex)
      by (apply Qmult_le_compat_r; [exact HU|apply Qlt_le_weak, Ha]).
    lra. }
  assert (Hsmall : 2 ^ e2 <= eps \/ (e2 = ex /\ m3 = mx)).
  { destruct HD as [HD|[HD|HD]]; [right; exact HD|left|left].
    - subst e2. rewrite <- eps_pow2. apply Qpow2_le. vm_compute. discriminate.
    - eapply ulp_small; eauto. }
  assert (Hfin : (e2 <=? emax - prec)%Z = true).
  { apply Z.leb_le. apply Z.nlt_ge. intros Hbig.
    assert (H7 : 2 ^ 7 <= 2 ^ e2)
      by (apply Qpow2_le; unfold emax, prec in Hbig; lia).
    change (2 ^ 7) with 128 in H7.
    destruct Hsmall as [Hs|[-> ->]].
    - unfold eps in Hs. lra.
    - assert (1 * 2 ^ ex <= inject_Z (Zpos mx) * 2 ^ ex)
        by (apply Qmult_le_compat_r; [exact Hmx|apply Qlt_le_weak, Ha]).
      lra. }
  rewrite Hfin. repeat split. cbn [SF2Q cond_Zopp].
  destruct Hsmall as [Hs|[-> ->]]; [lra|unfold eps; lra].
Qed.

Lemma binary_round_value (m : positive) (e : Z) :
  inject_Z (Zpos m) * 2 ^ e <= 127 ->
  let r := binary_round prec emax false m e in
  SFfinite r = true /\ SFnonneg r = true
  /\ SF2Q r <= inject_Z (Zpos m) * 2 ^ e + eps.
Proof.
  intros Hv. unfold binary_round.
  set (f := fexp prec emax (Zpos (digits2_pos m) + e)).
  unfold shl_align.
  destruct (f - e)%Z as [|d|d] eqn:E;
    try (apply binary_round_aux_value; exact Hv).
  assert (Hval : inject_Z (Zpos (Pos.iter xO m d)) * 2 ^ f
                 == inject_Z (Zpos m) * 2 ^ e).
  { rewrite iter_xO, inject_Z_mult, Qpow2_inject by lia.
    rewrite <- Qmult_assoc, <- Qpow2_add.
    replace (Zpos d + f)%Z with e by lia. reflexivity. }
  rewrite <- Hval in Hv |- *. apply binary_round_aux_value. exact Hv.
Qed.

Lemma SF2Q_nonneg (x : spec_float) : SFnonneg x = true -> 0 <= SF2Q x.
Proof.
  destruct x as [s|s| |[|] m e]; cbn; intros H; try discriminate; try lra.
  apply Qmult_le_0_compat; [|apply Qlt_le_weak, Qpow2_pos].
  change 0 with (inject_Z 0). rewrite <- Zle_Qle. lia.
Qed.

(** The aligned mantissa of an operand carries its value. *)
Lemma aligned_value (m : positive) (e ez : Z) :
  (ez <= e)%Z ->
  inject_Z (Zpos (fst (shl_align m e ez))) * 2 ^ ez
  == inject_Z (Zpos m) * 2 ^ e.
Proof.
  intros H. destruct (shl_align_spec m e ez H) as [-> _].
  rewrite inject_Z_mult, Qpow2_inject by lia.
  rewrite <- Qmult_assoc, <- Qpow2_add.
  replace (e - ez + ez)%Z with e by lia. reflexivity.
Qed.

Lemma SFadd_value (x y : spec_float) :
  SFfinite x = true -> SFnonneg x = true ->
  SFfinite y = true -> SFnonneg y = true ->
  SF2Q x + SF2Q y <= 127 ->
  let r := SFadd prec emax x y in
  SFfinite r = true /\ SFnonneg r = true /\ SF2Q r <= SF2Q x + SF2Q y + eps.
Proof.
  destruct x as [[|]|[|]| |[|] mx ex], y as [[|]|[|]| |[|] my ey];
    cbn [SFfinite SFnonneg SFnan SFsign negb andb];
    intros Fx Nx Fy Ny Hv; try discriminate;
    try (cbn [SFadd]; repeat split; unfold eps; cbn [SF2Q] in *; lra).
  cbn [SFadd cond_Zopp Z.add]. cbn [SF2Q cond_Zopp] in *.
  set (ez := Z.min ex ey).
  pose proof (aligned_value mx ex ez ltac:(lia)) as Ax.
  pose proof (aligned_value my ey ez ltac:(lia)) as Ay.
  set (mx' := fst (shl_align mx ex ez)) in *.
  set (my' := fst (shl_align my ey ez)) in *.
  assert (Hsum : inject_Z (Zpos (mx' + my')) * 2 ^ ez
                 == inject_Z (Zpos mx) * 2 ^ ex + inject_Z (Zpos my) * 2 ^ ey).
  { rewrite Pos2Z.inj_add, inject_Z_plus, <- Ax, <- Ay. ring. }
  cbn [binary_normalize]. rewrite <- Hsum in Hv |- *.
  apply binary_round_value. exact Hv.
Qed.

Lemma SFmul_value (x y : spec_float) :
  SFfinite x = true -> SFnonneg x = true ->
  SFfinite y = true -> SFnonneg y = true ->
  SF2Q x * SF2Q y <= 127 ->
  let r := SFmul prec emax x y in
  SFfinite r = true /\ SFnonneg r = true /\ SF2Q r <= SF2Q x * SF2Q y + eps.
Proof.
  destruct x as [[|]|[|]| |[|] mx ex], y as [[|]|[|]| |[|] my ey];
    cbn [SFfinite SFnonneg SFnan SFsign negb andb];
    intros Fx Nx Fy Ny Hv; try discriminate;
    try (cbn [SFmul xorb]; repeat split; unfold eps; cbn [SF2Q] in *; lra).
  cbn [SFmul xorb]. cbn [SF2Q cond_Zopp] in *.
  assert (Hprod : inject_Z (Zpos (mx * my)) * 2 ^ (ex + ey)
                  == inject_Z (Zpos mx) * 2 ^ ex * (inject_Z (Zpos my) * 2 ^ ey)).
  { rewrite Pos2Z.inj_mul, inject_Z_mult, Qpow2_add. ring. }
  rewrite <- Hprod in Hv |- *. apply binary_round_aux_value. exact Hv.
Qed.

(** A difference [x - z] of non-negative numbers is either not positive or
    a finite number that exceeds [x] by at most [eps]. *)
Lemma SFsub_value (x z : spec_float) :
  SFfinite x = true -> SFnonneg x = true -> SFnonneg z = true ->
  SF2Q x <= 127 ->
  let r := SFsub prec emax x z in
  SFltb (S754_zero false) r = false
  \/ (SFfinite r = true /\ SFnonneg r = true /\ SF2Q r <= SF2Q x + eps).
Proof.
  destruct x as [[|]|[|]| |[|] mx ex], z as [[|]|[|]| |[|] mz ez];
    cbn [SFfinite SFnonneg SFnan SFsign negb andb];
    intros Fx Nx Nz Hv; try discriminate;
    try (left; reflexivity);
    try (right; cbn [SFsub]; repeat split; unfold eps; cbn [SF2Q] in *; lra).
  cbn [SFsub cond_Zopp]. cbn [SF2Q cond_Zopp] in *.
  set (e := Z.min ex ez).
  pose proof (aligned_value mx ex e ltac:(lia)) as Ax.
  set (mx' := fst (shl_align mx ex e)) in *.
  set (mz' := fst (shl_align mz ez e)) in *.
  destruct (Zpos mx' - Zpos mz')%Z as [|M|M] eqn:EM; cbn [binary_normalize].
  - left. reflexivity.
  - right.
    assert (HM : inject_Z (Zpos M) * 2 ^ e <= inject_Z (Zpos mx) * 2 ^ ex).
    { rewrite <- Ax. apply Qmult_le_compat_r; [|apply Qlt_le_weak, Qpow2_pos].
      rewrite <- Zle_Qle. lia. }
    destruct (binary_round_value M e ltac:(lra)) as (H1 & H2 & H3).
    repeat split; try assumption. lra.
  - left. destruct (binary_round_sign true M e) as [H1 H2].
    destruct (binary_round prec emax true M e) as [[|]|[|]| |[|] m' e'];
      try discriminate; reflexivity.
Qed.

(** ** Bounds on [float] *)

Local Open Scope float_scope.

Lemma below_weaken (x : float) (a b : Q) : below x a -> (a <= b)%Q -> below x b.
Proof. intros (H1 & H2 & H3) H. repeat split; auto. eapply Qle_trans; eauto. Qed.

Lemma below_value_nonneg (x : float) (a : Q) : below x a -> (0 <= a)%Q.
Proof.
  intros (H1 & H2 & H3). eapply Qle_trans; [|exact H3].
  apply SF2Q_nonneg, H2.
Qed.

Lemma below_const (c : float) :
  SFfinite (Prim2SF c) && nonneg c = true -> below c (F2Q c).
Proof.
  intros H. apply andb_prop in H. destruct H as [H1 H2].
  repeat split; auto. apply Qle_refl.
Qed.

Lemma add_below (x y : float) (a b c : Q) :
  below x a -> below y b -> (a + b + eps <= c)%Q -> (a + b <= 127)%Q ->
  below (x + y) c.
Proof.
  intros (Fx & Nx & Vx) (Fy & Ny & Vy) Hc H127.
  unfold below, nonneg, F2Q in *. rewrite add_spec.
  destruct (SFadd_value (Prim2SF x) (Prim2SF y)) as (H1 & H2 & H3); auto.
  - lra.
  - repeat split; auto. unfold SF64add. lra.
Qed.

Lemma mul_below (x y : float) (a b c : Q) :
  below x a -> below y b -> (a * b + eps <= c)%Q -> (a * b <= 127)%Q ->
  below (x * y) c.
Proof.
  intros (Fx & Nx & Vx) (Fy & Ny & Vy) Hc H127.
  unfold below, nonneg, F2Q in *. rewrite mul_spec.
  assert (Hp : (SF2Q (Prim2SF x) * SF2Q (Prim2SF y) <= a * b)%Q)
    by (apply Qmult_le_compat_nonneg; split; auto using SF2Q_nonneg).
  destruct (SFmul_value (Prim2SF x) (Prim2SF y)) as (H1 & H2 & H3); auto.
  - lra.
  - repeat split; auto. unfold SF64mul. lra.
Qed.

(** The decay term never exceeds the weight by more than [eps]. *)
Lemma decay_below (w d mid v : float) (a c : Q) :
  below w a -> (a + eps <= c)%Q -> (a <= 127)%Q ->
  finite_pos d = true -> is_finite mid = true -> is_nan v = false ->
  below (Math_max 0 (w - Math_abs (mid - v) / d)) c.
Proof.
  intros (Fw & Nw & Vw) Hc H127 Hd Hmid Hv.
  assert (Ha : (0 <= a)%Q) by (eapply below_value_nonneg; repeat split; eauto).
  set (z := Math_abs (mid - v) / d).
  assert (Hz : nonneg z = true).
  { unfold z, nonneg, Math_abs, finite_pos in *.
    rewrite is_nan_spec in Hv. rewrite is_finite_spec in Hmid.
    rewrite div_spec, abs_spec, sub_spec. unfold SF64sub, SF64div.
    destruct (Prim2SF d) as [| | |[|] md ed]; try discriminate.
    apply SFdiv_nonneg, SFabs_nonneg, SFsub_not_nan; auto.
    destruct (Prim2SF mid); try discriminate; reflexivity. }
  assert (Hn : is_nan (w - z) = false).
  { rewrite is_nan_spec, sub_spec. apply SFsub_not_nan; auto.
    - destruct (Prim2SF w); try discriminate; reflexivity.
    - unfold nonneg, SFnonneg in Hz. apply andb_prop in Hz.
      destruct Hz as [Hz _]. apply negb_true_iff in Hz. exact Hz. }
  destruct (Math_max_0 (w - z) Hn) as [-> _].
  assert (H0 : below 0 c) by (repeat split; unfold F2Q; cbn; unfold eps in *; lra).
  destruct (0 <? w - z) eqn:Hlt; [|exact H0].
  rewrite ltb_spec, sub_spec, Prim2SF_zero in Hlt.
  unfold below, nonneg, F2Q in *. rewrite sub_spec.
  destruct (SFsub_value (Prim2SF w) (Prim2SF z)) as [H|(H1 & H2 & H3)]; auto.
  - lra.
  - unfold SF64sub in Hlt. congruence.
  - repeat split; auto. unfold SF64sub. lra.
Qed.

(** ** [Math.round] of a small non-negative number *)

Lemma Prim2SF_zero_inv (x : float) : Prim2SF x = S754_zero false -> x = 0.
Proof. intros H. apply Prim2SF_inj. rewrite H. reflexivity. Qed.

Lemma Math_round_below (x : float) (B : Q) :
  below x B -> (B <= 127)%Q ->
  exists k : Z,
    (0 <= k <= Qfloor (B + (1 # 2)))%Z /\ Math_round x = Z2float k.
Proof.
  intros (Fx & Nx & Vx) HB. unfold nonneg, F2Q in *.
  pose proof (Prim2SF_valid x) as Hval.
  unfold Math_round.
  destruct (Prim2SF x) as [[|]|[|]| |[|] m e] eqn:E; try discriminate.
  - exists 0%Z. split; [|apply Prim2SF_zero_inv, E].
    split; [lia|]. change 0%Z with (Qfloor 0). apply Qfloor_resp_le.
    cbn [SF2Q] in Vx. lra.
  - cbn [SF2Q cond_Zopp valid_binary] in *.
    destruct (bounded_facts m e Hval) as (He & _ & Hm).
    pose proof (Qpow2_pos e) as Hq.
    destruct (Z.leb_spec 0 e) as [Hpos|Hneg].
    + exfalso. destruct Hm as [Hm|Hm]; [vm_compute in Hm; lia|].
      rewrite Zle_Qle in Hm.
      change (inject_Z (2 ^ (prec - 1))) with (4503599627370496 # 1) in Hm.
      assert (H1 : (2 ^ 0 <= 2 ^ e)%Q) by (apply Qpow2_le; exact Hpos).
      change (2 ^ 0)%Q with 1%Q in H1.
      assert ((4503599627370496 * 1 <= inject_Z (Zpos m) * 2 ^ e)%Q)
        by (apply Qmult_le_compat_nonneg; split; lra).
      lra.
    + set (k := ((2 * Zpos m + 2 ^ (- e)) / 2 ^ (1 - e))%Z).
      pose proof (pow2_pos (- e) ltac:(lia)) as Hp.
      pose proof (pow2_pos (1 - e) ltac:(lia)) as Hp1.
      assert (Hk0 : (0 <= k)%Z) by (apply Z.div_pos; lia).
      assert (Hk : (inject_Z k <= inject_Z (Zpos m) * 2 ^ e + (1 # 2))%Q).
      { assert (Hz : (2 ^ (1 - e) * k <= 2 * Zpos m + 2 ^ (- e))%Z)
          by (apply Z.mul_div_le; lia).
        replace (1 - e)%Z with (1 + - e)%Z in Hz by lia.
        rewrite Z.pow_add_r, Z.pow_1_r in Hz by lia.
        rewrite Zle_Qle, inject_Z_plus, !inject_Z_mult in Hz.
        rewrite Qpow2_inject in Hz by lia.
        assert (Hpq : (2 ^ (- e) * 2 ^ e == 1)%Q).
        { rewrite <- Qpow2_add. replace (- e + e)%Z with 0%Z by lia.
          reflexivity. }
        pose proof (Qpow2_pos (- e)) as Hp'.
        set (p := (2 ^ (- e))%Q) in *. set (q := (2 ^ e)%Q) in *.
        set (K := inject_Z k) in *. set (M := inject_Z (Zpos m)) in *.
        assert (Hz' : (inject_Z 2 * p * K * q
                       <= (inject_Z 2 * M + p) * q)%Q)
          by (apply Qmult_le_compat_r; [exact Hz|apply Qlt_le_weak, Hq]).
        setoid_replace (inject_Z 2 * p * K * q)%Q
          with (2 * K * (p * q))%Q in Hz' by (change (inject_Z 2) with 2%Q; ring).
        setoid_replace ((inject_Z 2 * M + p) * q)%Q
          with (2 * M * q + p * q)%Q in Hz' by (change (inject_Z 2) with 2%Q; ring).
        rewrite Hpq in Hz'. lra. }
      exists k. split.
      * split; [exact Hk0|].
        rewrite <- (Qfloor_Z k). apply Qfloor_resp_le. lra.
      * destruct (Z.eqb_spec k 0) as [->|_]; reflexivity.
Qed.

Lemma In_Zrange (k K : Z) :
  (0 <= k <= K)%Z -> In k (Zrange (S (Z.to_nat K))).
Proof.
  intros H. unfold Zrange. apply in_map_iff. exists (Z.to_nat k).
  split; [lia|]. apply in_seq. lia.
Qed.

(** * The scorer *)

(** ** The raw score is a non-negative number *)

Local Open Scope float_scope.

Lemma finite_pos_nonneg (x : float) : finite_pos x = true -> nonneg x = true.
Proof.
  unfold finite_pos, nonneg.
  destruct (Prim2SF x) as [| | |[|] m e]; try discriminate; reflexivity.
Qed.

Lemma finite_pos_finite (x : float) : finite_pos x = true -> is_finite x = true.
Proof.
  unfold finite_pos. rewrite is_finite_spec.
  destruct (Prim2SF x) as [| | |[|] m e]; try discriminate; reflexivity.
Qed.

Lemma cropBank_wf (c : Crop) : In c cropBank -> wf_crop c = true.
Proof.
  assert (H : forallb wf_crop cropBank = true) by (vm_compute; reflexivity).
  rewrite forallb_forall in H. apply H.
Qed.

Lemma rangeStep_nonneg (w d : float) (r : float * float) (v score : float) :
  finite_pos w = true -> finite_pos d = true ->
  is_finite (midpoint r) = true -> is_nan v = false ->
  nonneg score = true ->
  nonneg (rangeStep w d r v score) = true.
Proof.
  intros Hw Hd Hr Hv Hs. unfold rangeStep.
  destruct ((fst r <=? v) && (v <=? snd r)); apply add_nonneg; auto.
  - apply finite_pos_nonneg, Hw.
  - apply decay_nonneg; auto. apply finite_pos_finite, Hw.
Qed.

Lemma prefBonus_nonneg (p : string) (c : Crop) :
  nonneg (prefBonus p c) = true.
Proof.
  unfold prefBonus.
  repeat match goal with
         | |- context [if ?b then _ else _] => destruct b
         end; reflexivity.
Qed.

Lemma rawScore_nonneg (inp : Inputs) (c : Crop) :
  wf_crop c = true ->
  is_nan (ph inp) = false -> is_nan (temperature inp) = false ->
  is_nan (rainfall inp) = false ->
  nonneg (rawScore inp c) = true.
Proof.
  unfold wf_crop. intros Hc Hp Ht Hr.
  repeat (apply andb_prop in Hc; destruct Hc as [Hc ?]).
  unfold rawScore.
  apply add_nonneg; [|apply prefBonus_nonneg].
  assert (H3 : nonneg
            (rangeStep 0.24 2000 (ideal_rainfall (ideal c)) (rainfall inp)
               (rangeStep 0.24 50 (ideal_temp (ideal c)) (temperature inp)
                  (phScore inp c))) = true)
    by (unfold phScore; repeat (apply rangeStep_nonneg; auto)).
  destruct (String_includes _ _), (Array_includes _ _);
    repeat (apply add_nonneg; [|reflexivity]); exact H3.
Qed.

Lemma numeric_not_nan (inp : Inputs) :
  numeric inp = true ->
  is_nan (ph inp) = false /\ is_nan (temperature inp) = false
  /\ is_nan (rainfall inp) = false.
Proof.
  unfold numeric. intros H.
  repeat (apply andb_prop in H; destruct H as [H ?]).
  rewrite !is_nan_spec. auto using is_finite_not_nan.
Qed.

(** ** The sort rearranges its input *)

Section SortPermutation.
Context {A : Type} (cmp : A -> A -> float).

Lemma insert_perm (x : A) (l : list A) : Permutation (insert cmp x l) (x :: l).
Proof.
  induction l as [|y l IH]; cbn [insert]; [reflexivity|].
  destruct (0 <? cmp x y); [|reflexivity].
  rewrite IH. apply perm_swap.
Qed.

Lemma Array_sort_perm (l : list A) : Permutation (Array_sort cmp l) l.
Proof.
  induction l as [|x l IH]; cbn [Array_sort fold_right]; [reflexivity|].
  rewrite insert_perm. constructor. exact IH.
Qed.
End SortPermutation.

Lemma In_firstn {A : Type} (n : nat) (l : list A) (x : A) :
  In x (firstn n l) -> In x l.
Proof.
  revert l. induction n as [|n IH]; intros [|y l]; cbn; try tauto.
  intros [H|H]; [left; exact H|right; apply IH, H].
Qed.

Lemma computeRecommendations_In (bank : list Crop) (inp : Inputs) (r : RankedCrop) :
  In r (computeRecommendationsOn bank inp) ->
  exists c, In c bank /\ r = scoreCrop inp c.
Proof.
  unfold computeRecommendationsOn, slice0. intros H.
  apply In_firstn in H.
  apply (Permutation_in _ (Array_sort_perm _ _)) in H.
  apply in_map_iff in H. destruct H as [c [<- Hc]]. eauto.
Qed.

(** ** Relative order *)

Lemma before_cons {A : Type} (a b y : A) (l : list A) :
  before a b (y :: l) -> (a = y /\ In b l) \/ before a b l.
Proof. inversion 1; subst; auto. Qed.

Lemma before_firstn {A : Type} (n : nat) (a b : A) (l : list A) :
  before a b (firstn n l) -> before a b l.
Proof.
  revert l. induction n as [|n IH]; intros [|y l] H; cbn in H;
    try (inversion H; fail).
  apply before_cons in H. destruct H as [[-> H]|H].
  - apply before_here. eapply In_firstn, H.
  - apply before_later, IH, H.
Qed.

Lemma before_map {A B : Type} (f : A -> B) (x y : B) (l : list A) :
  before x y (map f l) ->
  exists c d, x = f c /\ y = f d /\ before c d l.
Proof.
  induction l as [|z l IH]; cbn [map]; intros H; [inversion H|].
  apply before_cons in H. destruct H as [[-> H]|H].
  - apply in_map_iff in H. destruct H as [d [<- Hd]].
    exists z, d. auto using before_here.
  - destruct (IH H) as (c & d & -> & -> & Hb).
    exists c, d. auto using before_later.
Qed.
(** ** The sort is stable and orders by the comparator *)

Section SortOrder.
Context {A : Type} (cmp : A -> A -> float).

Lemma insert_In (x y : A) (l : list A) :
  In y (insert cmp x l) -> y = x \/ In y l.
Proof.
  intros H. apply (Permutation_in _ (insert_perm cmp x l)) in H.
  destruct H; auto.
Qed.

Lemma insert_before (a b x : A) (l : list A) :
  before a b (insert cmp x l) ->
  (a = x /\ In b l)
  \/ (b = x /\ In a l /\ (0 <? cmp x a) = true)
  \/ before a b l.
Proof.
  induction l as [|y l IH]; cbn [insert]; intros H.
  - apply before_cons in H. destruct H as [[_ []]|H]; inversion H.
  - destruct (0 <? cmp x y) eqn:E.
    + apply before_cons in H. destruct H as [[-> H]|H].
      * apply insert_In in H. destruct H as [->|H].
        -- right; left. cbn [In]. auto.
        -- right; right. apply before_here, H.
      * destruct (IH H) as [[-> Hb]|[(-> & Ha & Hc)|Hb]].
        -- left. cbn [In]. auto.
        -- right; left. cbn [In]. auto.
        -- right; right. apply before_later, Hb.
    + apply before_cons in H. destruct H as [[-> H]|H]; auto.
Qed.

(** Stability: the sort moves an element in front of an earlier one only
    when the comparator ranks it strictly first. *)
Lemma Array_sort_stable (a b : A) (l : list A) :
  before a b (Array_sort cmp l) ->
  (0 <? cmp b a) = true \/ before a b l.
Proof.
  induction l as [|x l IH]; cbn [Array_sort fold_right]; intros H.
  - inversion H.
  - apply insert_before in H.
    destruct H as [[-> Hb]|[(-> & Ha & Hc)|Hb]].
    + right. apply before_here.
      apply (Permutation_in _ (Array_sort_perm cmp l)), Hb.
    + left. exact Hc.
    + destruct (IH Hb) as [Hc|Hc]; [left; exact Hc|right].
      apply before_later, Hc.
Qed.

(** Order: when the comparator is the sign of a difference of integer
    keys, the result is sorted by decreasing key. *)
Variable key : A -> Z.
Variable good : A -> Prop.
Hypothesis cmp_key :
  forall x y, good x -> good y -> (0 <? cmp x y) = (key x <? key y)%Z.

Lemma insert_sorted (x : A) (l : list A) :
  good x -> Forall good l ->
  StronglySorted (fun a b => (key b <= key a)%Z) l ->
  StronglySorted (fun a b => (key b <= key a)%Z) (insert cmp x l).
Proof.
  intros Hx Hl Hs. induction Hs as [|y l Hs IH Hy]; cbn [insert].
  - repeat constructor.
  - inversion Hl as [|? ? Gy Gl]; subst.
    rewrite (cmp_key x y Hx Gy).
    destruct (Z.ltb_spec (key x) (key y)) as [Hlt|Hge].
    + constructor; [apply IH, Gl|].
      apply (Permutation_Forall (Permutation_sym (insert_perm cmp x l))).
      constructor; [lia|exact Hy].
    + constructor; [constructor; assumption|].
      constructor; [exact Hge|].
      eapply Forall_impl; [|exact Hy]. cbn. intros z Hz. lia.
Qed.

Lemma Array_sort_sorted (l : list A) :
  Forall good l ->
  StronglySorted (fun a b => (key b <= key a)%Z) (Array_sort cmp l).
Proof.
  induction l as [|x l IH]; cbn [Array_sort fold_right]; intros H.
  - constructor.
  - inversion H; subst. apply insert_sorted; auto.
    apply (Permutation_Forall (Permutation_sym (Array_sort_perm cmp l))).
    assumption.
Qed.

(** The entries of a given key keep their order: the sort is the stable
    one. *)
Lemma insert_filter (k : Z) (x : A) (l : list A) :
  good x -> Forall good l ->
  filter (fun a => (key a =? k)%Z) (insert cmp x l)
  = filter (fun a => (key a =? k)%Z) (x :: l).
Proof.
  intros Hx Hl. induction Hl as [|y l Gy Gl IH]; cbn [insert]; [reflexivity|].
  rewrite (cmp_key x y Hx Gy).
  destruct (Z.ltb_spec (key x) (key y)) as [Hlt|Hge]; [|reflexivity].
  cbn [filter] in *. rewrite IH.
  destruct (Z.eqb_spec (key x) k), (Z.eqb_spec (key y) k); try reflexivity.
  lia.
Qed.

Lemma Array_sort_filter (k : Z) (l : list A) :
  Forall good l ->
  filter (fun a => (key a =? k)%Z) (Array_sort cmp l)
  = filter (fun a => (key a =? k)%Z) l.
Proof.
  induction 1 as [|x l Gx Gl IH]; cbn [Array_sort fold_right]; [reflexivity|].
  rewrite insert_filter; auto.
  - cbn [filter]. fold (Array_sort cmp l). rewrite IH. reflexivity.
  - apply (Permutation_Forall (Permutation_sym (Array_sort_perm cmp l))), Gl.
Qed.

(** Two sequences sorted by decreasing key that agree key by key are
    equal. *)
Lemma sorted_filter_unique (l1 l2 : list A) :
  StronglySorted (fun a b => (key b <= key a)%Z) l1 ->
  StronglySorted (fun a b => (key b <= key a)%Z) l2 ->
  (forall k, filter (fun a => (key a =? k)%Z) l1
             = filter (fun a => (key a =? k)%Z) l2) ->
  l1 = l2.
Proof.
  intros S1. revert l2. induction S1 as [|x l1 S1 IH Hx]; intros l2 S2 Hf.
  - destruct l2 as [|y l2]; [reflexivity|].
    specialize (Hf (key y)). cbn [filter] in Hf.
    rewrite Z.eqb_refl in Hf. discriminate.
  - destruct S2 as [|y l2 S2 Hy].
    + specialize (Hf (key x)). cbn [filter] in Hf.
      rewrite Z.eqb_refl in Hf. discriminate.
    + rewrite Forall_forall in Hx, Hy.
      assert (Hkey : key x = key y).
      { pose proof (Hf (key x)) as Fx. pose proof (Hf (key y)) as Fy.
        cbn [filter] in Fx, Fy. rewrite Z.eqb_refl in Fx, Fy.
        destruct (Z.eqb_spec (key y) (key x)) as [E|N]; [congruence|].
        destruct (Z.eqb_spec (key x) (key y)) as [E|_]; [congruence|].
        assert (Hxin : In x l2).
        { assert (H : In x (filter (fun a => (key a =? key x)%Z) l2))
            by (rewrite <- Fx; left; reflexivity).
          apply filter_In in H. apply H. }
        assert (Hyin : In y l1).
        { assert (H : In y (filter (fun a => (key a =? key y)%Z) l1))
            by (rewrite Fy; left; reflexivity).
          apply filter_In in H. apply H. }
        apply Hy in Hxin. apply Hx in Hyin. lia. }
      assert (Hxy : x = y).
      { specialize (Hf (key x)). cbn [filter] in Hf.
        rewrite <- Hkey, Z.eqb_refl in Hf. congruence. }
      subst y. f_equal. apply IH; [exact S2|].
      intros k. specialize (Hf k). cbn [filter] in Hf.
      destruct (key x =? k)%Z; congruence.
Qed.

(** Hence every stable sort that orders by the comparator returns what
    [Array_sort] returns. *)
Lemma Array_sort_unique (l l' : list A) :
  Forall good l ->
  StronglySorted (fun a b => (key b <= key a)%Z) l' ->
  (forall k, filter (fun a => (key a =? k)%Z) l'
             = filter (fun a => (key a =? k)%Z) l) ->
  l' = Array_sort cmp l.
Proof.
  intros Hl Hs Hf. apply sorted_filter_unique; auto.
  - apply Array_sort_sorted, Hl.
  - intros k. rewrite Array_sort_filter by exact Hl. apply Hf.
Qed.
End SortOrder.

Lemma StronglySorted_firstn {A : Type} (R : A -> A -> Prop) (n : nat) (l : list A) :
  StronglySorted R l -> StronglySorted R (firstn n l).
Proof.
  intros H. revert n. induction H as [|x l Hs IH Hx]; intros [|n]; cbn;
    try constructor; auto.
  rewrite Forall_forall in *. intros y Hy. apply Hx. eapply In_firstn, Hy.
Qed.

Lemma StronglySorted_weaken {A : Type} (R R' : A -> A -> Prop) (good : A -> Prop)
  (l : list A) :
  (forall a b, good a -> good b -> R a b -> R' a b) ->
  Forall good l -> StronglySorted R l -> StronglySorted R' l.
Proof.
  intros HR Hg Hs. induction Hs as [|x l Hs IH Hx]; [constructor|].
  inversion Hg; subst. constructor; [auto|].
  rewrite Forall_forall in *. auto.
Qed.

Lemma before_In {A : Type} (a b : A) (l : list A) :
  before a b l -> In a l /\ In b l.
Proof.
  induction 1 as [l Hb|y l H [IHa IHb]]; cbn [In]; auto.
Qed.

(** ** Ranking a table of well-formed crops *)

Local Open Scope float_scope.

Lemma leb_not_nan_r (x y : float) : (x <=? y) = true -> is_nan y = false.
Proof.
  rewrite leb_spec, is_nan_spec. unfold SFleb.
  destruct (Prim2SF x), (Prim2SF y); cbn; try reflexivity; discriminate.
Qed.

Lemma score_not_nan (inp : Inputs) (c : Crop) :
  numeric inp = true -> wf_crop c = true ->
  is_nan (score (scoreCrop inp c)) = false.
Proof.
  intros Hn Hc. destruct (numeric_not_nan inp Hn) as (Hp & Ht & Hr).
  cbn [scoreCrop score].
  apply (leb_not_nan_r 0), Math_min_1_range, rawScore_nonneg; auto.
Qed.

(** ** An upper bound of the raw score and of the yield *)

Lemma below_zero : below 0 0.
Proof. repeat split. apply Qle_refl. Qed.

Lemma prefBonus_below (p : string) (c : Crop) :
  below (prefBonus p c) (F2Q 0.08).
Proof.
  unfold prefBonus.
  repeat match goal with
         | |- context [if ?b then _ else _] => destruct b
         end; (repeat split; try reflexivity; qle).
Qed.

Lemma rangeStep_below (w d : float) (r : float * float) (v score : float)
  (a c : Q) :
  below score a -> finite_pos w = true -> finite_pos d = true ->
  is_finite (midpoint r) = true -> is_nan v = false ->
  (a + (F2Q w + eps) + eps <= c)%Q -> (a + (F2Q w + eps) <= 127)%Q ->
  below (rangeStep w d r v score) c.
Proof.
  intros Hs Hw Hd Hr Hv Hc H127.
  pose proof (below_value_nonneg _ _ Hs) as Ha.
  assert (Bw : below w (F2Q w)).
  { apply below_const. unfold finite_pos, nonneg in *.
    destruct (Prim2SF w) as [| | |[|] m e]; try discriminate; reflexivity. }
  pose proof (below_value_nonneg _ _ Bw) as Hw0.
  assert (He : (0 < eps)%Q) by reflexivity.
  unfold rangeStep.
  destruct ((fst r <=? v) && (v <=? snd r)).
  - apply (add_below score w a (F2Q w)); auto; lra.
  - apply (add_below score _ a (F2Q w + eps)); auto; try lra.
    apply (decay_below w d _ v (F2Q w)); auto; lra.
Qed.

Lemma rawScore_below (inp : Inputs) (c : Crop) :
  wf_crop c = true ->
  is_nan (ph inp) = false -> is_nan (temperature inp) = false ->
  is_nan (rainfall inp) = false ->
  below (rawScore inp c) rawMax.
Proof.
  unfold wf_crop. intros Hc Hp Ht Hr.
  repeat (apply andb_prop in Hc; destruct Hc as [Hc ?]).
  unfold rawScore.
  unfold phScore.
  set (s1 := rangeStep 0.28 10 (ideal_ph (ideal c)) (ph inp) 0).
  set (s2 := rangeStep 0.24 50 (ideal_temp (ideal c)) (temperature inp) s1).
  set (s3 := rangeStep 0.24 2000 (ideal_rainfall (ideal c)) (rainfall inp) s2).
  assert (B1 : below s1 (2801 # 10000))
    by (apply (rangeStep_below _ _ _ _ _ 0); auto using below_zero; qle).
  assert (B2 : below s2 (5202 # 10000))
    by (apply (rangeStep_below _ _ _ _ _ (2801 # 10000)); auto; qle).
  assert (B3 : below s3 (7603 # 10000))
    by (apply (rangeStep_below _ _ _ _ _ (5202 # 10000)); auto; qle).
  set (s4 := if Array_includes _ _ then s3 + 0.16 else s3).
  assert (B4 : below s4 (9204 # 10000)).
  { unfold s4. destruct (Array_includes _ _).
    - apply (add_below s3 0.16 (7603 # 10000) (F2Q 0.16)); auto; try qle.
      apply below_const. reflexivity.
    - eapply below_weaken; [exact B3|qle]. }
  set (s5 := if String_includes _ _ then s4 + 0.05 else s4).
  assert (B5 : below s5 (9705 # 10000)).
  { unfold s5. destruct (String_includes _ _).
    - apply (add_below s4 0.05 (9204 # 10000) (F2Q 0.05)); auto; try qle.
      apply below_const. reflexivity.
    - eapply below_weaken; [exact B4|qle]. }
  apply (add_below s5 _ (9705 # 10000) (F2Q 0.08));
    auto using prefBonus_below; qle.
Qed.

(** The yield per hectare is a whole number of tenths, at most
    [tenths_cap R b] of them when the raw score is at most [R]. *)
Lemma yield_tenths (inp : Inputs) (c : Crop) (R : Q) :
  below (rawScore inp c) R -> finite_pos (baseYield c) = true ->
  yield_ok R (baseYield c) = true ->
  exists k : Z,
    (0 <= k <= tenths_cap R (baseYield c))%Z
    /\ expectedYieldValue (scoreCrop inp c) = Z2float k / 10.
Proof.
  intros Hraw Hb Hok. unfold yield_ok in Hok.
  repeat (apply andb_prop in Hok; destruct Hok as [Hok ?]).
  repeat match goal with
         | H : Qle_bool _ _ = true |- _ => apply Qle_bool_iff in H
         end.
  cbn [scoreCrop expectedYieldValue].
  set (raw := rawScore inp c) in *. set (b := baseYield c) in *.
  assert (P1 : below (raw * 0.4) (bound_scaled R)).
  { apply (mul_below raw 0.4 R (F2Q 0.4)); auto.
    - apply below_const. reflexivity.
    - apply Qle_refl. }
  assert (P2 : below (1 + raw * 0.4) (bound_factor R)).
  { apply (add_below 1 _ 1 (bound_scaled R)); auto.
    - repeat split; try reflexivity. qle.
    - apply Qle_refl. }
  assert (Bb : below b (F2Q b)).
  { apply below_const. unfold finite_pos, nonneg in *.
    destruct (Prim2SF b) as [| | |[|] m e]; try discriminate; reflexivity. }
  assert (P3 : below (b * (1 + raw * 0.4)) (bound_yield R b))
    by (apply (mul_below b _ (F2Q b) (bound_factor R)); auto; apply Qle_refl).
  assert (P4 : below (b * (1 + raw * 0.4) * 10) (bound_tenths R b)).
  { apply (mul_below _ 10 (bound_yield R b) (F2Q 10)); auto.
    - apply below_const. reflexivity.
    - apply Qle_refl. }
  destruct (Math_round_below _ _ P4) as (k & Hk & ->); [assumption|].
  exists k. split; [exact Hk|reflexivity].
Qed.

Lemma SF2Q_ord (x : spec_float) :
  SFfinite x = true -> valid_binary x = true ->
  (SF2Q x == inject_Z (SFord x) * 2 ^ emin)%Q.
Proof.
  destruct x as [s|s| |s m e]; cbn [SFfinite valid_binary SF2Q SFord];
    intros F V; try discriminate; [ring|].
  destruct (bounded_facts m e V) as (He & _).
  rewrite <- cond_Zopp_mul, inject_Z_mult, Qpow2_inject by lia.
  rewrite <- Qmult_assoc, <- Qpow2_add.
  replace (e - emin + emin)%Z with e by lia. reflexivity.
Qed.

Lemma leb_F2Q (x y : float) :
  is_finite x = true -> is_finite y = true -> (x <=? y) = true ->
  (F2Q x <= F2Q y)%Q.
Proof.
  intros Fx Fy H. pose proof Fx as Fx'. pose proof Fy as Fy'.
  rewrite is_finite_spec in Fx', Fy'.
  rewrite leb_ord in H
    by (rewrite is_nan_spec; apply is_finite_not_nan; assumption).
  apply Z.leb_le in H. unfold F2Q, ord in *.
  rewrite !SF2Q_ord by auto using Prim2SF_valid.
  apply Qmult_le_compat_r; [|apply Qlt_le_weak, Qpow2_pos].
  rewrite <- Zle_Qle. exact H.
Qed.



Lemma cropBank_cap42 (c : Crop) : In c cropBank -> cap42_check c = true.
Proof.
  assert (H : forallb cap42_check cropBank = true) by (vm_compute; reflexivity).
  rewrite forallb_forall in H. apply H.
Qed.


(** ** The area only enters the total yield *)

Lemma insert_map {A B : Type} (f : A -> B) (cmpA : A -> A -> float)
  (cmpB : B -> B -> float) (x : A) (l : list A) :
  (forall x y, cmpB (f x) (f y) = cmpA x y) ->
  map f (insert cmpA x l) = insert cmpB (f x) (map f l).
Proof.
  intros H. induction l as [|y l IH]; cbn [insert map]; [reflexivity|].
  rewrite H. destruct (0 <? cmpA x y); cbn [map]; congruence.
Qed.

Lemma Array_sort_map {A B : Type} (f : A -> B) (cmpA : A -> A -> float)
  (cmpB : B -> B -> float) (l : list A) :
  (forall x y, cmpB (f x) (f y) = cmpA x y) ->
  map f (Array_sort cmpA l) = Array_sort cmpB (map f l).
Proof.
  intros H. induction l as [|x l IH]; cbn [Array_sort fold_right map];
    [reflexivity|].
  rewrite (insert_map f cmpA cmpB) by exact H.
  fold (Array_sort cmpA l). rewrite IH. reflexivity.
Qed.


(** * Rounding errors on both sides *)

(** ** Rounding never removes more than one unit in the last place *)

Local Open Scope Z_scope.

Lemma div_lt_succ (a b : Z) : 0 < b -> a < (a / b + 1) * b.
Proof.
  intros Hb. pose proof (Z.div_mod a b ltac:(lia)) as H.
  pose proof (Z.mod_pos_bound a b Hb) as Hm. nia.
Qed.

Lemma dropped_zero (e : Z) : emin <= e -> dropped 0 e = 0.
Proof. intros H. unfold dropped, fexp. cbn [Zdigits2]. unfold prec in *. lia. Qed.

Lemma binary_round_aux_lower (mx : positive) (ex : Z) :
  match binary_round_aux prec emax false (Zpos mx) ex loc_Exact with
  | S754_finite _ m e => ex <= e /\ Zpos mx < (Zpos m + 1) * 2 ^ (e - ex)
  | S754_zero _ => ex <= emin /\ Zpos mx < 2 ^ (emin - ex)
  | _ => True
  end.
Proof.
  destruct (binary_round_aux_cases false (Zpos mx) ex loc_Exact ltac:(lia))
    as (m2 & m3 & e1 & e2 & He1 & Hm2 & Hx & He2 & Hm3 & ->).
  pose proof (dropped_nonneg (Zpos mx) ex) as Hn1.
  pose proof (dropped_nonneg m2 e1) as Hn2.
  pose proof (dropped_digits mx ex) as D1.
  set (n1 := dropped (Zpos mx) ex) in *.
  pose proof (pow2_pos n1 Hn1) as Hp1.
  assert (Hm1 : 0 <= Zpos mx / 2 ^ n1) by (apply Z.div_pos; lia).
  pose proof (div_lt_succ (Zpos mx) (2 ^ n1) Hp1) as Hl1.
  set (m1 := Zpos mx / 2 ^ n1) in *.
  assert (Hgen : Zpos mx < (m3 + 1) * 2 ^ (e2 - ex) /\ ex <= e2).
  { pose proof (pow2_pos (dropped m2 e1) Hn2) as Hp2.
    pose proof (div_lt_succ m2 (2 ^ dropped m2 e1) Hp2) as Hl2.
    rewrite <- Hm3 in Hl2.
    replace (e2 - ex) with (dropped m2 e1 + n1) by lia.
    rewrite Z.pow_add_r by lia. split; [|lia].
    set (p2 := 2 ^ dropped m2 e1) in *. set (p1 := 2 ^ n1) in *.
    assert ((m1 + 1) * p1 <= (m2 + 1) * p1)
      by (apply Z.mul_le_mono_nonneg_r; lia).
    assert ((m2 + 1) * p1 <= (m3 + 1) * p2 * p1)
      by (apply Z.mul_le_mono_nonneg_r; lia).
    lia. }
  destruct Hgen as [Hgen Hee].
  assert (H3 : 0 <= m3).
  { subst m3. apply Z.div_pos; [lia|]. apply pow2_pos, Hn2. }
  destruct m3 as [|m3|m3]; [| |lia].
  - assert (E : e2 = emin).
    { destruct m2 as [|m2|m2]; [| |lia].
      - assert (Hz : m1 = 0) by lia.
        destruct D1 as [D1|[D1|D1]].
        + exfalso. unfold m1 in Hz. rewrite D1, Z.div_1_r in Hz. lia.
        + rewrite dropped_zero in He2 by lia. lia.
        + exfalso. fold m1 in D1. rewrite Hz in D1.
          pose proof (pow2_pos (prec - 1) ltac:(unfold prec; lia)). lia.
      - destruct (dropped_digits m2 e1) as [D2|[D2|D2]].
        + exfalso. rewrite D2, Z.div_1_r in Hm3. lia.
        + lia.
        + exfalso. rewrite <- Hm3 in D2.
          pose proof (pow2_pos (prec - 1) ltac:(unfold prec; lia)). lia. }
    subst e2. rewrite E in *. split; [lia|]. lia.
  - destruct (e2 <=? emax - prec); [|exact I]. split; assumption.
Qed.

Local Open Scope Q_scope.

Lemma binary_round_aux_value_lower (mx : positive) (ex : Z) :
  inject_Z (Zpos mx) * 2 ^ ex <= 127 ->
  inject_Z (Zpos mx) * 2 ^ ex - eps
  <= SF2Q (binary_round_aux prec emax false (Zpos mx) ex loc_Exact).
Proof.
  intros Hv.
  pose proof (Qpow2_pos ex) as Ha.
  pose proof (binary_round_aux_lower mx ex) as HL.
  destruct (binary_round_aux_value mx ex Hv) as (Hfin & _ & _).
  destruct (binary_round_aux_upper mx ex)
    as [E|(m3 & e2 & He & HU & HD & E)]; rewrite E in *.
  - destruct HL as [He Hlt]. cbn [SF2Q].
    assert (Hq : inject_Z (Zpos mx) * 2 ^ ex < 2 ^ emin).
    { rewrite Zlt_Qlt, Qpow2_inject in Hlt by lia.
      assert (H : inject_Z (Zpos mx) * 2 ^ ex < 2 ^ (emin - ex) * 2 ^ ex)
        by (apply Qmult_lt_compat_r; assumption).
      rewrite <- Qpow2_add in H.
      replace (emin - ex + ex)%Z with emin in H by lia. exact H. }
    assert (He' : 2 ^ emin <= eps)
      by (rewrite <- eps_pow2; apply Qpow2_le; vm_compute; discriminate).
    lra.
  - destruct (e2 <=? emax - prec)%Z; [|discriminate].
    destruct HL as [_ Hlt]. cbn [SF2Q cond_Zopp].
    pose proof (Qpow2_pos e2) as HP.
    assert (HPe : 2 ^ e2 == 2 ^ (e2 - ex) * 2 ^ ex)
      by (rewrite <- Qpow2_add; apply Qpower_comp; [reflexivity|lia]).
    assert (HUq : inject_Z (Zpos m3) * 2 ^ e2
                  <= inject_Z (Zpos mx) * 2 ^ ex + 2 ^ e2).
    { rewrite Zle_Qle, inject_Z_plus, inject_Z_mult in HU.
      rewrite Qpow2_inject in HU by lia.
      rewrite HPe.
      assert (inject_Z (Zpos m3) * 2 ^ (e2 - ex) * 2 ^ ex
              <= (inject_Z (Zpos mx) + 2 ^ (e2 - ex)) * 2 ^ ex)
        by (apply Qmult_le_compat_r; [exact HU|apply Qlt_le_weak, Ha]).
      lra. }
    assert (HLq : inject_Z (Zpos mx) * 2 ^ ex
                  < inject_Z (Zpos m3) * 2 ^ e2 + 2 ^ e2).
    { rewrite Zlt_Qlt, inject_Z_mult, inject_Z_plus in Hlt.
      rewrite Qpow2_inject in Hlt by lia.
      rewrite HPe.
      assert (inject_Z (Zpos mx) * 2 ^ ex
              < (inject_Z (Zpos m3) + inject_Z 1) * 2 ^ (e2 - ex) * 2 ^ ex)
        by (apply Qmult_lt_compat_r; assumption).
      change (inject_Z 1) with 1 in H. lra. }
    destruct HD as [[-> ->]|[HD|HD]].
    + unfold eps. lra.
    + subst e2.
      assert (He' : 2 ^ emin <= eps)
        by (rewrite <- eps_pow2; apply Qpow2_le; vm_compute; discriminate).
      lra.
    + assert (2 ^ e2 <= eps) by (eapply ulp_small; eauto). lra.
Qed.

Lemma binary_round_value_lower (m : positive) (e : Z) :
  inject_Z (Zpos m) * 2 ^ e <= 127 ->
  inject_Z (Zpos m) * 2 ^ e - eps <= SF2Q (binary_round prec emax false m e).
Proof.
  intros Hv. unfold binary_round.
  set (f := fexp prec emax (Zpos (digits2_pos m) + e)).
  unfold shl_align.
  destruct (f - e)%Z as [|d|d] eqn:E;
    try (apply binary_round_aux_value_lower; exact Hv).
  assert (Hval : inject_Z (Zpos (Pos.iter xO m d)) * 2 ^ f
                 == inject_Z (Zpos m) * 2 ^ e).
  { rewrite iter_xO, inject_Z_mult, Qpow2_inject by lia.
    rewrite <- Qmult_assoc, <- Qpow2_add.
    replace (Zpos d + f)%Z with e by lia. reflexivity. }
  rewrite <- Hval in Hv |- *. apply binary_round_aux_value_lower. exact Hv.
Qed.

Lemma SFadd_value_lower (x y : spec_float) :
  SFfinite x = true -> SFnonneg x = true ->
  SFfinite y = true -> SFnonneg y = true ->
  SF2Q x + SF2Q y <= 127 ->
  SF2Q x + SF2Q y - eps <= SF2Q (SFadd prec emax x y).
Proof.
  destruct x as [[|]|[|]| |[|] mx ex], y as [[|]|[|]| |[|] my ey];
    cbn [SFfinite SFnonneg SFnan SFsign negb andb];
    intros Fx Nx Fy Ny Hv; try discriminate;
    try (cbn [SFadd]; unfold eps; cbn [SF2Q] in *; lra).
  cbn [SFadd cond_Zopp Z.add]. cbn [SF2Q cond_Zopp] in *.
  set (ez := Z.min ex ey).
  pose proof (aligned_value mx ex ez ltac:(lia)) as Ax.
  pose proof (aligned_value my ey ez ltac:(lia)) as Ay.
  set (mx' := fst (shl_align mx ex ez)) in *.
  set (my' := fst (shl_align my ey ez)) in *.
  assert (Hsum : inject_Z (Zpos (mx' + my')) * 2 ^ ez
                 == inject_Z (Zpos mx) * 2 ^ ex + inject_Z (Zpos my) * 2 ^ ey).
  { rewrite Pos2Z.inj_add, inject_Z_plus, <- Ax, <- Ay. ring. }
  cbn [binary_normalize]. rewrite <- Hsum in Hv |- *.
  apply binary_round_value_lower. exact Hv.
Qed.

Lemma SFmul_value_lower (x y : spec_float) :
  SFfinite x = true -> SFnonneg x = true ->
  SFfinite y = true -> SFnonneg y = true ->
  SF2Q x * SF2Q y <= 127 ->
  SF2Q x * SF2Q y - eps <= SF2Q (SFmul prec emax x y).
Proof.
  destruct x as [[|]|[|]| |[|] mx ex], y as [[|]|[|]| |[|] my ey];
    cbn [SFfinite SFnonneg SFnan SFsign negb andb];
    intros Fx Nx Fy Ny Hv; try discriminate;
    try (cbn [SFmul xorb]; unfold eps; cbn [SF2Q] in *; lra).
  cbn [SFmul xorb]. cbn [SF2Q cond_Zopp] in *.
  assert (Hprod : inject_Z (Zpos (mx * my)) * 2 ^ (ex + ey)
                  == inject_Z (Zpos mx) * 2 ^ ex * (inject_Z (Zpos my) * 2 ^ ey)).
  { rewrite Pos2Z.inj_mul, inject_Z_mult, Qpow2_add. ring. }
  rewrite <- Hprod in Hv |- *. apply binary_round_aux_value_lower. exact Hv.
Qed.

(** ** Two-sided bounds on [float] *)

Local Open Scope float_scope.

Lemma between_const (c : float) :
  SFfinite (Prim2SF c) && nonneg c = true -> between c (F2Q c) (F2Q c).
Proof. intros H. split; [apply below_const, H|apply Qle_refl]. Qed.

Lemma between_weaken (x : float) (a b a' b' : Q) :
  between x a b -> (a' <= a)%Q -> (b <= b')%Q -> between x a' b'.
Proof.
  intros [H1 H2] Ha Hb. split; [eapply below_weaken; eauto|].
  eapply Qle_trans; eauto.
Qed.

Lemma add_between (x y : float) (a a' b b' lo hi : Q) :
  between x a a' -> between y b b' ->
  (a' + b' <= 127)%Q -> (lo <= a + b - eps)%Q -> (a' + b' + eps <= hi)%Q ->
  between (x + y) lo hi.
Proof.
  intros [Bx Lx] [By Ly] H127 Hlo Hhi.
  split; [apply (add_below x y a' b'); auto|].
  destruct Bx as (Fx & Nx & Vx), By as (Fy & Ny & Vy).
  unfold nonneg, F2Q in *. rewrite add_spec.
  pose proof (SFadd_value_lower (Prim2SF x) (Prim2SF y) Fx Nx Fy Ny ltac:(lra)).
  unfold SF64add. lra.
Qed.

Lemma mul_between (x y : float) (a a' b b' lo hi : Q) :
  between x a a' -> between y b b' -> (0 <= a)%Q -> (0 <= b)%Q ->
  (a' * b' <= 127)%Q -> (lo <= a * b - eps)%Q -> (a' * b' + eps <= hi)%Q ->
  between (x * y) lo hi.
Proof.
  intros [Bx Lx] [By Ly] Ha Hb H127 Hlo Hhi.
  split; [apply (mul_below x y a' b'); auto|].
  destruct Bx as (Fx & Nx & Vx), By as (Fy & Ny & Vy).
  unfold nonneg, F2Q in *. rewrite mul_spec.
  assert (Hup : (SF2Q (Prim2SF x) * SF2Q (Prim2SF y) <= a' * b')%Q)
    by (apply Qmult_le_compat_nonneg; split; auto using SF2Q_nonneg).
  assert (Hlow : (a * b <= SF2Q (Prim2SF x) * SF2Q (Prim2SF y))%Q)
    by (apply Qmult_le_compat_nonneg; split; auto).
  pose proof (SFmul_value_lower (Prim2SF x) (Prim2SF y) Fx Nx Fy Ny ltac:(lra)).
  unfold SF64mul. lra.
Qed.

(** The value and the order of finite numbers. *)
Lemma ltb_F2Q (x y : float) :
  is_finite x = true -> is_finite y = true -> (F2Q x < F2Q y)%Q ->
  (x <? y) = true.
Proof.
  intros Fx Fy H. pose proof Fx as Fx'. pose proof Fy as Fy'.
  rewrite is_finite_spec in Fx', Fy'.
  rewrite ltb_ord by (rewrite is_nan_spec; apply is_finite_not_nan; assumption).
  apply Z.ltb_lt. unfold F2Q, ord in *.
  rewrite !SF2Q_ord in H by auto using Prim2SF_valid.
  apply Z.nle_gt. intros Hle. rewrite Zle_Qle in Hle.
  assert ((inject_Z (SFord (Prim2SF y)) * 2 ^ emin
           <= inject_Z (SFord (Prim2SF x)) * 2 ^ emin)%Q)
    by (apply Qmult_le_compat_r; [exact Hle|apply Qlt_le_weak, Qpow2_pos]).
  lra.
Qed.

Lemma leb_of_F2Q (x y : float) :
  is_finite x = true -> is_finite y = true -> (F2Q x <= F2Q y)%Q ->
  (x <=? y) = true.
Proof.
  intros Fx Fy H. pose proof Fx as Fx'. pose proof Fy as Fy'.
  rewrite is_finite_spec in Fx', Fy'.
  rewrite leb_ord by (rewrite is_nan_spec; apply is_finite_not_nan; assumption).
  apply Z.leb_le. unfold F2Q, ord in *.
  rewrite !SF2Q_ord in H by auto using Prim2SF_valid.
  apply Z.nlt_ge. intros Hlt. rewrite Zlt_Qlt in Hlt.
  assert ((inject_Z (SFord (Prim2SF y)) * 2 ^ emin
           < inject_Z (SFord (Prim2SF x)) * 2 ^ emin)%Q)
    by (apply Qmult_lt_compat_r; [apply Qpow2_pos|exact Hlt]).
  lra.
Qed.

Lemma Qfloor_unique (r : Q) (k : Z) :
  (inject_Z k <= r)%Q -> (r < inject_Z (k + 1))%Q -> Qfloor r = k.
Proof.
  intros H1 H2. apply Z.le_antisymm.
  - apply Z.lt_succ_r. rewrite <- Z.add_1_r, Zlt_Qlt.
    eapply Qle_lt_trans; [apply Qfloor_le|exact H2].
  - rewrite <- (Qfloor_Z k). apply Qfloor_resp_le, H1.
Qed.

(** Below [2^52], [Math.round] is the floor of the value plus one half. *)
Lemma Math_round_floor_wide (x : float) :
  SFfinite (Prim2SF x) = true -> nonneg x = true ->
  (F2Q x < 4503599627370496)%Q ->
  Math_round x = Z2float (Qfloor (F2Q x + (1 # 2)))
  /\ (0 <= Qfloor (F2Q x + (1 # 2)))%Z.
Proof.
  intros Fx Nx Vx. unfold nonneg, F2Q in *.
  pose proof (Prim2SF_valid x) as Hval.
  unfold Math_round.
  destruct (Prim2SF x) as [[|]|[|]| |[|] m e] eqn:E; try discriminate.
  - cbn [SF2Q]. split; [apply Prim2SF_zero_inv, E|]. vm_compute. discriminate.
  - cbn [SF2Q cond_Zopp valid_binary] in *.
    destruct (bounded_facts m e Hval) as (He & _ & Hm).
    pose proof (Qpow2_pos e) as Hq.
    destruct (Z.leb_spec 0 e) as [Hpos|Hneg].
    + exfalso. destruct Hm as [Hm|Hm]; [vm_compute in Hm; lia|].
      rewrite Zle_Qle in Hm.
      change (inject_Z (2 ^ (prec - 1))) with (4503599627370496 # 1) in Hm.
      assert (H1 : (2 ^ 0 <= 2 ^ e)%Q) by (apply Qpow2_le; exact Hpos).
      change (2 ^ 0)%Q with 1%Q in H1.
      assert ((4503599627370496 * 1 <= inject_Z (Zpos m) * 2 ^ e)%Q)
        by (apply Qmult_le_compat_nonneg; split; lra).
      lra.
    + set (k := ((2 * Zpos m + 2 ^ (- e)) / 2 ^ (1 - e))%Z).
      pose proof (pow2_pos (- e) ltac:(lia)) as Hp.
      pose proof (pow2_pos (1 - e) ltac:(lia)) as Hp1.
      assert (Hk0 : (0 <= k)%Z) by (apply Z.div_pos; lia).
      assert (Hpq : (2 ^ (- e) * 2 ^ e == 1)%Q).
      { rewrite <- Qpow2_add. replace (- e + e)%Z with 0%Z by lia.
        reflexivity. }
      assert (Hlo : (inject_Z k <= inject_Z (Zpos m) * 2 ^ e + (1 # 2))%Q).
      { assert (Hz : (2 ^ (1 - e) * k <= 2 * Zpos m + 2 ^ (- e))%Z)
          by (apply Z.mul_div_le; lia).
        replace (1 - e)%Z with (1 + - e)%Z in Hz by lia.
        rewrite Z.pow_add_r, Z.pow_1_r in Hz by lia.
        rewrite Zle_Qle, inject_Z_plus, !inject_Z_mult in Hz.
        rewrite Qpow2_inject in Hz by lia.
        set (p := (2 ^ (- e))%Q) in *. set (q := (2 ^ e)%Q) in *.
        set (K := inject_Z k) in *. set (M := inject_Z (Zpos m)) in *.
        assert (Hz' : (inject_Z 2 * p * K * q
                       <= (inject_Z 2 * M + p) * q)%Q)
          by (apply Qmult_le_compat_r; [exact Hz|apply Qlt_le_weak, Hq]).
        setoid_replace (inject_Z 2 * p * K * q)%Q
          with (2 * K * (p * q))%Q in Hz' by (change (inject_Z 2) with 2%Q; ring).
        setoid_replace ((inject_Z 2 * M + p) * q)%Q
          with (2 * M * q + p * q)%Q in Hz' by (change (inject_Z 2) with 2%Q; ring).
        rewrite Hpq in Hz'. lra. }
      assert (Hhi : (inject_Z (Zpos m) * 2 ^ e + (1 # 2) < inject_Z (k + 1))%Q).
      { pose proof (div_lt_succ (2 * Zpos m + 2 ^ (- e)) (2 ^ (1 - e)) Hp1) as Hz.
        fold k in Hz.
        replace (1 - e)%Z with (1 + - e)%Z in Hz by lia.
        rewrite Z.pow_add_r, Z.pow_1_r in Hz by lia.
        rewrite Zlt_Qlt, inject_Z_plus, !inject_Z_mult in Hz.
        rewrite Qpow2_inject in Hz by lia.
        set (p := (2 ^ (- e))%Q) in *. set (q := (2 ^ e)%Q) in *.
        set (K := inject_Z (k + 1)) in *. set (M := inject_Z (Zpos m)) in *.
        assert (Hz' : ((inject_Z 2 * M + p) * q
                       < K * (inject_Z 2 * p) * q)%Q)
          by (apply Qmult_lt_compat_r; assumption).
        setoid_replace (K * (inject_Z 2 * p) * q)%Q
          with (2 * K * (p * q))%Q in Hz' by (change (inject_Z 2) with 2%Q; ring).
        setoid_replace ((inject_Z 2 * M + p) * q)%Q
          with (2 * M * q + p * q)%Q in Hz' by (change (inject_Z 2) with 2%Q; ring).
        rewrite Hpq in Hz'. lra. }
      rewrite (Qfloor_unique _ k Hlo Hhi). split; [|exact Hk0].
      destruct (Z.eqb_spec k 0) as [->|_]; reflexivity.
Qed.

Lemma Math_round_floor (x : float) (B : Q) :
  below x B -> (B <= 127)%Q ->
  Math_round x = Z2float (Qfloor (F2Q x + (1 # 2)))
  /\ (0 <= Qfloor (F2Q x + (1 # 2)))%Z.
Proof.
  intros (Fx & Nx & Vx) HB. apply Math_round_floor_wide; auto. lra.
Qed.

(** [Math.round] of a number between [L] and [B]. *)
Lemma Math_round_between (x : float) (L B : Q) :
  between x L B -> (B <= 127)%Q ->
  exists k : Z,
    (0 <= k)%Z
    /\ (Qfloor (L + (1 # 2)) <= k <= Qfloor (B + (1 # 2)))%Z
    /\ Math_round x = Z2float k.
Proof.
  intros [Bx Lx] HB.
  destruct (Math_round_floor x B Bx HB) as [E H0].
  exists (Qfloor (F2Q x + (1 # 2))). repeat split; auto.
  - apply Qfloor_resp_le. lra.
  - apply Qfloor_resp_le. destruct Bx as (_ & _ & Vx). lra.
Qed.

(** * The attainable yields *)

Local Open Scope float_scope.

Lemma below_between (x : float) (a : Q) : below x a -> between x 0 a.
Proof.
  intros H. split; [exact H|]. destruct H as (_ & N & _).
  apply SF2Q_nonneg, N.
Qed.

Lemma In_Zinterval (lo hi k : Z) :
  (lo <= k <= hi)%Z -> In k (Zinterval lo hi).
Proof.
  intros H. unfold Zinterval. apply in_map_iff.
  exists (Z.to_nat (k - lo)). split; [lia|]. apply in_seq. lia.
Qed.

(** The number of tenths that [Math.round] returns for the yield per
    hectare lies between [tenths_floor] and [tenths_cap]. *)
Lemma yield_tenths_between (inp : Inputs) (c : Crop) (R : Q) :
  below (rawScore inp c) R -> finite_pos (baseYield c) = true ->
  yield_ok R (baseYield c) = true ->
  (0 <= low_yield (baseYield c))%Q ->
  exists k : Z,
    (tenths_floor (baseYield c) <= k <= tenths_cap R (baseYield c))%Z
    /\ expectedYieldValue (scoreCrop inp c) = Z2float k / 10.
Proof.
  intros Hraw Hb Hok Hlow. unfold yield_ok in Hok.
  repeat (apply andb_prop in Hok; destruct Hok as [Hok ?]).
  repeat match goal with
         | H : Qle_bool _ _ = true |- _ => apply Qle_bool_iff in H
         end.
  cbn [scoreCrop expectedYieldValue].
  set (raw := rawScore inp c) in *. set (b := baseYield c) in *.
  assert (P1 : between (raw * 0.4) 0 (bound_scaled R)).
  { apply below_between.
    apply (mul_below raw 0.4 R (F2Q 0.4)); auto.
    - apply below_const. reflexivity.
    - apply Qle_refl. }
  assert (P2 : between (1 + raw * 0.4) (1 - eps) (bound_factor R)).
  { apply (add_between 1 _ 1 1 0 (bound_scaled R)); auto.
    - apply (between_weaken 1 (F2Q 1) (F2Q 1));
        [apply between_const; reflexivity|qle|qle].
    - lra.
    - apply Qle_refl. }
  assert (Bb : between b (F2Q b) (F2Q b)).
  { apply between_const. unfold finite_pos, nonneg in *.
    destruct (Prim2SF b) as [| | |[|] m e]; try discriminate; reflexivity. }
  assert (Hb0 : (0 <= F2Q b)%Q) by (apply (below_value_nonneg b), Bb).
  assert (P3 : between (b * (1 + raw * 0.4)) (low_yield b) (bound_yield R b)).
  { apply (mul_between b _ (F2Q b) (F2Q b) (1 - eps) (bound_factor R)); auto.
    - qle.
    - apply Qle_refl.
    - apply Qle_refl. }
  assert (P4 : between (b * (1 + raw * 0.4) * 10)
                       (low_tenths b) (bound_tenths R b)).
  { apply (mul_between _ 10 (low_yield b) (bound_yield R b)
                       (F2Q 10) (F2Q 10)); auto.
    - apply between_const. reflexivity.
    - qle.
    - apply Qle_refl.
    - apply Qle_refl. }
  destruct (Math_round_between _ _ _ P4) as (k & _ & Hk & ->); [assumption|].
  exists k. split; [exact Hk|reflexivity].
Qed.

Lemma cropBank_yield_range (c : Crop) :
  In c cropBank -> yield_range_check c = true.
Proof.
  assert (H : forallb yield_range_check cropBank = true)
    by (vm_compute; reflexivity).
  rewrite forallb_forall in H. apply H.
Qed.

(** The yield per hectare of a crop of the table is one of finitely many
    tenths. *)
Lemma yield_attainable_numbers (inp : Inputs) (c : Crop) :
  anyNaN inp = false -> In c cropBank ->
  exists k : Z,
    In k (Zinterval (tenths_floor (baseYield c))
                    (tenths_cap rawMax (baseYield c)))
    /\ expectedYieldValue (scoreCrop inp c) = Z2float k / 10.
Proof.
  intros Hn Hc.
  unfold anyNaN in Hn. apply orb_false_elim in Hn. destruct Hn as [Hn Hr].
  apply orb_false_elim in Hn. destruct Hn as [Hp Ht].
  pose proof (cropBank_wf c Hc) as Hwf.
  pose proof (rawScore_below inp c Hwf Hp Ht Hr) as Hraw.
  assert (Hb : finite_pos (baseYield c) = true).
  { unfold wf_crop in Hwf. apply andb_prop in Hwf. apply Hwf. }
  pose proof (cropBank_cap42 c Hc) as Hk. unfold cap42_check in Hk.
  apply andb_prop in Hk. destruct Hk as [Hok _].
  pose proof (cropBank_yield_range c Hc) as Hy. unfold yield_range_check in Hy.
  apply andb_prop in Hy. destruct Hy as [Hlow _].
  apply Qle_bool_iff in Hlow.
  destruct (yield_tenths_between inp c rawMax Hraw Hb Hok Hlow)
    as (k & Hk & E).
  exists k. split; [apply In_Zinterval, Hk|exact E].
Qed.

Lemma numeric_anyNaN (inp : Inputs) : numeric inp = true -> anyNaN inp = false.
Proof.
  intros Hn. destruct (numeric_not_nan inp Hn) as (Hp & Ht & Hr).
  unfold anyNaN. rewrite Hp, Ht, Hr. reflexivity.
Qed.

Lemma yield_attainable (inp : Inputs) (c : Crop) :
  numeric inp = true -> In c cropBank ->
  exists k : Z,
    In k (Zinterval (tenths_floor (baseYield c))
                    (tenths_cap rawMax (baseYield c)))
    /\ expectedYieldValue (scoreCrop inp c) = Z2float k / 10.
Proof. intros Hn. apply yield_attainable_numbers, numeric_anyNaN, Hn. Qed.

(** * Numbers and NaN *)

(** ** NaN goes through the arithmetic *)

Local Open Scope float_scope.

Lemma leb_nan_r (x v : float) : is_nan v = true -> (x <=? v) = false.
Proof.
  rewrite is_nan_spec, leb_spec. unfold SFleb.
  destruct (Prim2SF x), (Prim2SF v); cbn; intros H; try discriminate;
    reflexivity.
Qed.

Lemma ltb_nan_r (x v : float) : is_nan v = true -> (x <? v) = false.
Proof.
  rewrite is_nan_spec, ltb_spec. unfold SFltb.
  destruct (Prim2SF x), (Prim2SF v); cbn; intros H; try discriminate;
    reflexivity.
Qed.

Lemma add_nan_l (x y : float) : is_nan x = true -> is_nan (x + y) = true.
Proof.
  rewrite !is_nan_spec, add_spec.
  destruct (Prim2SF x), (Prim2SF y); cbn; intros H; try discriminate;
    reflexivity.
Qed.

Lemma add_nan_r (x y : float) : is_nan y = true -> is_nan (x + y) = true.
Proof.
  rewrite !is_nan_spec, add_spec.
  destruct (Prim2SF x), (Prim2SF y); cbn; intros H; try discriminate;
    reflexivity.
Qed.

Lemma sub_nan_l (x y : float) : is_nan x = true -> is_nan (x - y) = true.
Proof.
  rewrite !is_nan_spec, sub_spec.
  destruct (Prim2SF x), (Prim2SF y); cbn; intros H; try discriminate;
    reflexivity.
Qed.

Lemma sub_nan_r (x y : float) : is_nan y = true -> is_nan (x - y) = true.
Proof.
  rewrite !is_nan_spec, sub_spec.
  destruct (Prim2SF x), (Prim2SF y); cbn; intros H; try discriminate;
    reflexivity.
Qed.

Lemma div_nan_l (x y : float) : is_nan x = true -> is_nan (x / y) = true.
Proof.
  rewrite !is_nan_spec, div_spec.
  destruct (Prim2SF x), (Prim2SF y); cbn; intros H; try discriminate;
    reflexivity.
Qed.

Lemma abs_nan (x : float) : is_nan x = true -> is_nan (abs x) = true.
Proof.
  rewrite !is_nan_spec, abs_spec.
  destruct (Prim2SF x); cbn; intros H; try discriminate; reflexivity.
Qed.

Lemma is_nan_nan : is_nan nan = true.
Proof. reflexivity. Qed.

Lemma Math_max_nan_r (a b : float) :
  is_nan b = true -> is_nan (Math_max a b) = true.
Proof. intros H. unfold Math_max. rewrite H, orb_true_r. reflexivity. Qed.

Lemma Math_min_nan_r (a b : float) :
  is_nan b = true -> is_nan (Math_min a b) = true.
Proof. intros H. unfold Math_min. rewrite H, orb_true_r. reflexivity. Qed.

(** A range statement turns a NaN measurement, or a NaN score so far, into
    a NaN score. *)
Lemma rangeStep_nan_v (w d : float) (r : float * float) (v score : float) :
  is_nan v = true -> is_nan (rangeStep w d r v score) = true.
Proof.
  intros H. unfold rangeStep.
  rewrite (leb_nan_r (fst r) v H). cbn [andb].
  apply add_nan_r, Math_max_nan_r, sub_nan_r, div_nan_l, abs_nan, sub_nan_r, H.
Qed.

Lemma rangeStep_nan_score (w d : float) (r : float * float) (v score : float) :
  is_nan score = true -> is_nan (rangeStep w d r v score) = true.
Proof.
  intros H. unfold rangeStep.
  destruct ((fst r <=? v) && (v <=? snd r)); apply add_nan_l, H.
Qed.

Lemma rawScore_nan (inp : Inputs) (c : Crop) :
  anyNaN inp = true -> is_nan (rawScore inp c) = true.
Proof.
  unfold anyNaN. intros H. unfold rawScore, phScore.
  apply add_nan_l.
  assert (H3 : is_nan (rangeStep 0.24 2000 (ideal_rainfall (ideal c))
                         (rainfall inp)
                         (rangeStep 0.24 50 (ideal_temp (ideal c))
                            (temperature inp)
                            (rangeStep 0.28 10 (ideal_ph (ideal c))
                               (ph inp) 0))) = true).
  { destruct (is_nan (rainfall inp)) eqn:Hr;
      [apply rangeStep_nan_v, Hr|].
    apply rangeStep_nan_score.
    destruct (is_nan (temperature inp)) eqn:Ht;
      [apply rangeStep_nan_v, Ht|].
    apply rangeStep_nan_score.
    destruct (is_nan (ph inp)) eqn:Hp; [apply rangeStep_nan_v, Hp|].
    discriminate H. }
  destruct (String_includes _ _); [apply add_nan_l|];
    (destruct (Array_includes _ _); [apply add_nan_l|]); exact H3.
Qed.

(** The reported score of a crop of well-formed reference data is NaN
    exactly when one of the three measurements is. *)
Lemma score_is_nan (inp : Inputs) (c : Crop) :
  wf_crop c = true -> is_nan (score (scoreCrop inp c)) = anyNaN inp.
Proof.
  intros Hc. cbn [scoreCrop score].
  destruct (anyNaN inp) eqn:E.
  - apply Math_min_nan_r, rawScore_nan, E.
  - unfold anyNaN in E. apply orb_false_elim in E. destruct E as [E Hr].
    apply orb_false_elim in E. destruct E as [Hp Ht].
    apply (leb_not_nan_r 0), Math_min_1_range, rawScore_nonneg; auto.
Qed.

(** A positive difference tells which number is the larger. *)
Lemma sub_pos_ltb (x y : float) : (0 <? x - y) = true -> (y <? x) = true.
Proof.
  intros H.
  destruct (is_nan x) eqn:Hx.
  { rewrite (ltb_nan_r 0 _ (sub_nan_l x y Hx)) in H. discriminate H. }
  destruct (is_nan y) eqn:Hy.
  { rewrite (ltb_nan_r 0 _ (sub_nan_r x y Hy)) in H. discriminate H. }
  rewrite (sub_pos_ord y x Hy Hx) in H.
  rewrite (ltb_ord y x Hy Hx). exact H.
Qed.

(** ** Sorting scores that are all numbers, or all NaN *)

Lemma StronglySorted_before {A : Type} (R : A -> A -> Prop) (l : list A) :
  StronglySorted R l -> forall a b, before a b l -> R a b.
Proof.
  induction 1 as [|x l Hs IH Hx]; intros a b Hab; [inversion Hab|].
  apply before_cons in Hab. destruct Hab as [[-> Hb]|Hab].
  - rewrite Forall_forall in Hx. apply Hx, Hb.
  - apply IH, Hab.
Qed.

Lemma before_StronglySorted {A : Type} (R : A -> A -> Prop) (l : list A) :
  (forall a b, before a b l -> R a b) -> StronglySorted R l.
Proof.
  induction l as [|x l IH]; intros H; constructor.
  - apply IH. intros a b Hab. apply H, before_later, Hab.
  - rewrite Forall_forall. intros b Hb. apply H, before_here, Hb.
Qed.

(** With a comparator that is never positive the sort changes nothing. *)
Lemma Array_sort_id {A : Type} (cmp : A -> A -> float) (l : list A) :
  (forall x y, In x l -> In y l -> (0 <? cmp x y) = false) ->
  Array_sort cmp l = l.
Proof.
  induction l as [|x l IH]; intros H; [reflexivity|].
  cbn [Array_sort fold_right]. fold (Array_sort cmp l).
  rewrite IH by (intros a b Ha Hb; apply H; right; assumption).
  destruct l as [|y l]; [reflexivity|]. cbn [insert].
  rewrite H; [reflexivity|left; reflexivity|right; left; reflexivity].
Qed.

(** Sorted by [(a, b) => sc(b) - sc(a)], no element is followed by one
    that the comparator puts strictly first. *)
Lemma Array_sort_ordered {A : Type} (sc : A -> float) (l : list A) :
  Forall (fun x => is_nan (sc x) = false) l
  \/ Forall (fun x => is_nan (sc x) = true) l ->
  forall a b,
    before a b (Array_sort (fun a b => sc b - sc a) l) ->
    (0 <? sc b - sc a) = false.
Proof.
  set (cmp := fun a b : A => sc b - sc a).
  intros [Hl|Hl] a b Hab.
  - set (good := fun x : A => is_nan (sc x) = false).
    assert (Hk : forall x y, good x -> good y ->
                   (0 <? cmp x y) = (ord (sc x) <? ord (sc y))%Z)
      by (intros x y Hx Hy; apply sub_pos_ord; assumption).
    pose proof (Array_sort_sorted cmp (fun x => ord (sc x)) good Hk l Hl) as Hs.
    pose proof (StronglySorted_before _ _ Hs a b Hab) as Hle. cbn beta in Hle.
    assert (Hg : Forall good (Array_sort cmp l))
      by (apply (Permutation_Forall (Permutation_sym (Array_sort_perm cmp l))), Hl).
    rewrite Forall_forall in Hg.
    destruct (before_In _ _ _ Hab) as [Ha Hb].
    change (sc b - sc a) with (cmp a b).
    rewrite (Hk a b (Hg a Ha) (Hg b Hb)). apply Z.ltb_ge, Hle.
  - destruct (before_In _ _ _ Hab) as [Ha _].
    apply (Permutation_in _ (Array_sort_perm cmp l)) in Ha.
    rewrite Forall_forall in Hl.
    apply ltb_nan_r, sub_nan_r, Hl, Ha.
Qed.

(** The scores of a table of well-formed crops are all numbers, or all
    NaN. *)
Lemma scores_numbers_or_nan (bank : list Crop) (inp : Inputs) :
  Forall (fun c => wf_crop c = true) bank ->
  Forall (fun r => is_nan (score r) = false) (map (scoreCrop inp) bank)
  \/ Forall (fun r => is_nan (score r) = true) (map (scoreCrop inp) bank).
Proof.
  intros Hb. rewrite Forall_forall in Hb.
  destruct (anyNaN inp) eqn:E; [right|left];
    rewrite Forall_forall; intros r Hr;
    apply in_map_iff in Hr; destruct Hr as [c [<- Hc]];
    rewrite score_is_nan by auto; exact E.
Qed.

(** ** Every engine sorts alike *)

Lemma before_neq {A : Type} (a b : A) (l : list A) :
  NoDup l -> before a b l -> a <> b.
Proof.
  intros Hnd Hab. induction Hab as [l Hb|y l Hab IH].
  - inversion Hnd; subst. intros ->. contradiction.
  - inversion Hnd; subst. auto.
Qed.

Lemma before_asym {A : Type} (a b : A) (l : list A) :
  NoDup l -> before a b l -> before b a l -> False.
Proof.
  intros Hnd Hab. induction Hab as [l Hb|y l Hab IH]; intros Hba;
    inversion Hnd as [|? ? Hy Hl]; subst.
  - apply before_cons in Hba. destruct Hba as [[-> _]|Hba].
    + contradiction.
    + apply before_In in Hba. destruct Hba as [_ Ha]. contradiction.
  - apply before_cons in Hba. destruct Hba as [[-> Ha]|Hba].
    + apply before_In in Hab. destruct Hab as [_ Hb]. contradiction.
    + auto.
Qed.

Lemma before_total {A : Type} (a b : A) (l : list A) :
  In a l -> In b l -> a <> b -> before a b l \/ before b a l.
Proof.
  induction l as [|y l IH]; cbn [In]; intros Ha Hb Hne; [destruct Ha|].
  destruct Ha as [->|Ha], Hb as [->|Hb].
  - congruence.
  - left. apply before_here, Hb.
  - right. apply before_here, Ha.
  - destruct (IH Ha Hb Hne); [left|right]; apply before_later; assumption.
Qed.

(** Two arrangements of the same elements, without repetition, in which
    every two elements come in the same order, are equal. *)
Lemma same_order_eq {A : Type} (l1 l2 : list A) :
  NoDup l1 -> NoDup l2 -> Permutation l1 l2 ->
  (forall a b, before a b l1 -> before a b l2) -> l1 = l2.
Proof.
  revert l2. induction l1 as [|x t IH]; intros l2 N1 N2 P H.
  - apply Permutation_nil in P. congruence.
  - destruct l2 as [|y t2];
      [apply Permutation_sym, Permutation_nil in P; discriminate|].
    assert (Exy : x = y).
    { assert (Hx : In x (y :: t2))
        by (apply (Permutation_in _ P); left; reflexivity).
      destruct Hx as [E|Hx]; [congruence|].
      assert (Hy : In y (x :: t))
        by (apply (Permutation_in _ (Permutation_sym P)); left; reflexivity).
      destruct Hy as [E|Hy]; [congruence|].
      exfalso. apply (before_asym x y (y :: t2) N2).
      - apply H, before_here, Hy.
      - apply before_here, Hx. }
    subst y. f_equal.
    apply NoDup_cons_iff in N1, N2.
    destruct N1 as [Nx1 N1], N2 as [Nx2 N2].
    apply IH; auto.
    + eapply Permutation_cons_inv, P.
    + intros a b Hab.
      pose proof (H a b (before_later _ _ x _ Hab)) as Hab2.
      apply before_cons in Hab2. destruct Hab2 as [[-> _]|Hab2]; [|exact Hab2].
      apply before_In in Hab. destruct Hab as [Ha _]. contradiction.
Qed.

Lemma all_pairs_before {A : Type} (R : A -> A -> bool) (l : list A) :
  all_pairs R l = true <-> (forall a b, before a b l -> R a b = true).
Proof.
  induction l as [|x t IH]; cbn [all_pairs].
  - split; [intros _ a b H; inversion H|reflexivity].
  - rewrite andb_true_iff, forallb_forall, IH. split.
    + intros [Hx Ht] a b Hab. apply before_cons in Hab.
      destruct Hab as [[-> Hb]|Hab]; auto.
    + intros H. split.
      * intros b Hb. apply H, before_here, Hb.
      * intros a b Hab. apply H, before_later, Hab.
Qed.

Lemma is_permutation_spec (n : nat) (p : list nat) :
  is_permutation n p = true <-> Permutation (seq 0 n) p.
Proof.
  unfold is_permutation. rewrite andb_true_iff, forallb_forall. split.
  - intros [Hlen Hall]. apply Nat.eqb_eq in Hlen.
    apply NoDup_Permutation_bis.
    + apply seq_NoDup.
    + rewrite length_seq. lia.
    + intros i Hi. specialize (Hall i Hi). apply existsb_exists in Hall.
      destruct Hall as (j & Hj & E). apply Nat.eqb_eq in E. subst j. exact Hj.
  - intros P. split.
    + apply Nat.eqb_eq. rewrite <- (Permutation_length P). apply length_seq.
    + intros i Hi. apply existsb_exists. exists i.
      split; [apply (Permutation_in _ P), Hi|apply Nat.eqb_refl].
Qed.

(** The contract leaves the engine no choice. *)
Lemma sort_contract_unique {A : Type} (cmp : A -> A -> float) (l : list A)
  (p1 p2 : list nat) :
  sort_contract cmp l p1 = true -> sort_contract cmp l p2 = true -> p1 = p2.
Proof.
  unfold sort_contract. rewrite !andb_true_iff, !is_permutation_spec.
  rewrite !all_pairs_before. intros [P1 R1] [P2 R2].
  assert (N1 : NoDup p1) by (apply (Permutation_NoDup P1), seq_NoDup).
  assert (N2 : NoDup p2) by (apply (Permutation_NoDup P2), seq_NoDup).
  apply same_order_eq; auto.
  - etransitivity; [symmetry; exact P1|exact P2].
  - intros i j Hij.
    destruct (before_In _ _ _ Hij) as [Hi Hj].
    assert (Hne : i <> j) by exact (before_neq i j p1 N1 Hij).
    assert (Hi2 : In i p2)
      by (apply (Permutation_in _ P2), (Permutation_in _ (Permutation_sym P1)), Hi).
    assert (Hj2 : In j p2)
      by (apply (Permutation_in _ P2), (Permutation_in _ (Permutation_sym P1)), Hj).
    destruct (before_total i j p2 Hi2 Hj2 Hne) as [H|H]; [exact H|exfalso].
    specialize (R1 i j Hij). specialize (R2 j i H). cbn beta in R1, R2.
    destruct (nth_error l i) as [a|]; [|discriminate R1].
    destruct (nth_error l j) as [b|]; [|discriminate R1].
    apply andb_prop in R1. destruct R1 as [A1 B1].
    apply andb_prop in R2. destruct R2 as [A2 B2].
    apply negb_true_iff in A1, A2. rewrite A2 in B1. rewrite A1 in B2.
    cbn [orb] in B1, B2. apply Nat.ltb_lt in B1, B2. lia.
Qed.

(** ** The insertion sort keeps the contract *)

Lemma In_combine_seq {A : Type} (l : list A) (start i : nat) (x : A) :
  In (i, x) (combine (seq start (length l)) l) ->
  (start <= i)%nat /\ nth_error l (i - start) = Some x.
Proof.
  revert start. induction l as [|y l IH]; intros start; cbn; [tauto|].
  intros [E|H].
  - injection E as <- <-. rewrite Nat.sub_diag. split; [lia|reflexivity].
  - destruct (IH _ H) as [Hle Hn]. split; [lia|].
    replace (i - start)%nat with (S (i - S start)) by lia. exact Hn.
Qed.

Lemma before_combine_seq {A : Type} (l : list A) (start : nat)
  (x y : nat * A) :
  before x y (combine (seq start (length l)) l) -> (fst x < fst y)%nat.
Proof.
  revert start. induction l as [|z l IH]; intros start H; cbn in H;
    [inversion H|].
  apply before_cons in H. destruct H as [[-> Hy]|H].
  - destruct y as [j b]. apply In_combine_seq in Hy. cbn. lia.
  - apply (IH _ H).
Qed.

Lemma map_fst_combine_seq {A : Type} (l : list A) (start : nat) :
  map fst (combine (seq start (length l)) l) = seq start (length l).
Proof.
  revert start. induction l as [|y l IH]; intros start; cbn; [reflexivity|].
  f_equal. apply IH.
Qed.

Lemma map_snd_combine_seq {A : Type} (l : list A) (start : nat) :
  map snd (combine (seq start (length l)) l) = l.
Proof.
  revert start. induction l as [|y l IH]; intros start; cbn; [reflexivity|].
  f_equal. apply IH.
Qed.

Lemma pick_indexed {A : Type} (l : list A) (s : list (nat * A)) :
  (forall i x, In (i, x) s -> nth_error l i = Some x) ->
  pick l (map fst s) = map snd s.
Proof.
  unfold pick. induction s as [|[i x] s IH]; intros H; cbn; [reflexivity|].
  rewrite (H i x) by (left; reflexivity). cbn. f_equal.
  apply IH. intros j y Hj. apply H. right. exact Hj.
Qed.

(** The indices that [Array_sort] applies: a permutation that keeps the
    contract and picks the sorted array, when the keys [sc] are all
    numbers or all NaN. *)
Lemma Array_sort_contract {A : Type} (sc : A -> float) (l : list A) :
  Forall (fun x => is_nan (sc x) = false) l
  \/ Forall (fun x => is_nan (sc x) = true) l ->
  exists p : list nat,
    sort_contract (fun a b => sc b - sc a) l p = true
    /\ pick l p = Array_sort (fun a b => sc b - sc a) l.
Proof.
  intros Hl.
  set (cmp := fun a b : A => sc b - sc a).
  set (il := combine (seq 0 (length l)) l).
  set (sci := fun x : nat * A => sc (snd x)).
  set (s := Array_sort (fun a b => sci b - sci a) il).
  assert (Ps : Permutation s il) by apply Array_sort_perm.
  assert (Hin : forall i x, In (i, x) s -> nth_error l i = Some x).
  { intros i x H. apply (Permutation_in _ Ps) in H.
    apply In_combine_seq in H. destruct H as [_ H].
    rewrite Nat.sub_0_r in H. exact H. }
  assert (Hsnd : map snd s = Array_sort cmp l).
  { unfold s. rewrite (Array_sort_map snd _ cmp) by reflexivity.
    unfold il. rewrite map_snd_combine_seq. reflexivity. }
  exists (map fst s). split; [|rewrite pick_indexed; assumption].
  unfold sort_contract. rewrite andb_true_iff, is_permutation_spec. split.
  - rewrite <- (map_fst_combine_seq l 0). fold il.
    apply Permutation_map, Permutation_sym, Ps.
  - apply all_pairs_before. intros i j Hij.
    apply before_map in Hij. destruct Hij as ([i' a] & [j' b] & -> & -> & Hab).
    cbn [fst].
    destruct (before_In _ _ _ Hab) as [Ha Hb].
    rewrite (Hin _ _ Ha), (Hin _ _ Hb).
    assert (Hli : Forall (fun x => is_nan (sci x) = false) il
                  \/ Forall (fun x => is_nan (sci x) = true) il).
    { unfold sci, il. destruct Hl as [H|H]; [left|right];
        rewrite Forall_forall in *; intros [k x] Hk;
        apply In_combine_seq in Hk; destruct Hk as [_ Hk];
        apply nth_error_In in Hk; cbn; auto. }
    pose proof (Array_sort_ordered sci il Hli _ _ Hab) as Hord.
    unfold sci in Hord. cbn [snd] in Hord. fold (cmp a b) in Hord.
    rewrite Hord. cbn [negb andb].
    apply Array_sort_stable in Hab. destruct Hab as [Hc|Hc].
    + unfold sci in Hc. cbn [snd] in Hc. fold (cmp b a) in Hc.
      rewrite Hc. reflexivity.
    + apply before_combine_seq in Hc. cbn [fst] in Hc.
      apply Nat.ltb_lt in Hc. rewrite Hc. apply orb_true_r.
Qed.

(** * Rounding errors relative to the value *)

(** ** One rounding, up to [2^53] *)

Local Open Scope Q_scope.



Local Open Scope float_scope.


(** * The yields are rounded to one decimal place *)

(** ** The yield per hectare *)

Local Open Scope float_scope.






(** ** The total yield *)



(** * The specification *)

(** ** Shape of the result *)

Local Open Scope float_scope.

Section SortShape.
Context {A : Type} (cmp : A -> A -> float).

Lemma insert_length (x : A) (l : list A) :
  length (insert cmp x l) = S (length l).
Proof.
  induction l as [|y l IH]; simpl; [reflexivity|].
  destruct (0 <? cmp x y); simpl; congruence.
Qed.

Lemma Array_sort_length (l : list A) :
  length (Array_sort cmp l) = length l.
Proof.
  induction l as [|x l IH]; simpl; [reflexivity|].
  rewrite insert_length. congruence.
Qed.
End SortShape.

(** C3: the result has exactly [min 3 tableSize] records, and exactly 3 with
    the six-crop reference table. *)
Theorem computeRecommendations_length (inp : Inputs) :
  (forall bank : list Crop,
      length (computeRecommendationsOn bank inp) = Nat.min 3 (length bank))
  /\ length (computeRecommendations inp) = 3%nat.
Proof.
  assert (H : forall bank,
             length (computeRecommendationsOn bank inp)
             = Nat.min 3 (length bank)).
  { intros bank. unfold computeRecommendationsOn, slice0.
    rewrite length_firstn, Array_sort_length, length_map. reflexivity. }
  split; [exact H|].
  unfold computeRecommendations. rewrite H. reflexivity.
Qed.

(** ** The reported score *)

(** C1: for every scenario with finite numeric fields and every crop of
    the reference table, the [score] that [scoreCrop] reports lies in the
    closed interval from 0 to 1, and so does the [score] of every record
    returned by [computeRecommendations]. *)
Theorem score_in_unit_interval (inp : Inputs) :
  numeric inp = true ->
  (forall c : Crop, In c cropBank ->
      (0 <=? score (scoreCrop inp c)) = true
      /\ (score (scoreCrop inp c) <=? 1) = true)
  /\ (forall r : RankedCrop, In r (computeRecommendations inp) ->
         (0 <=? score r) = true /\ (score r <=? 1) = true).
Proof.
  intros Hn. destruct (numeric_not_nan inp Hn) as (Hp & Ht & Hr).
  assert (H : forall c : Crop, In c cropBank ->
            (0 <=? score (scoreCrop inp c)) = true
            /\ (score (scoreCrop inp c) <=? 1) = true).
  { intros c Hc. cbn [scoreCrop score].
    apply Math_min_1_range, rawScore_nonneg; auto using cropBank_wf. }
  split; [exact H|].
  intros r Hin. apply computeRecommendations_In in Hin.
  destruct Hin as [c [Hc ->]]. apply H, Hc.
Qed.

Lemma score_in_unit_interval_witness :
  (forall c : Crop, In c cropBank ->
      (0 <=? score (scoreCrop defaultInputs c)) = true
      /\ (score (scoreCrop defaultInputs c) <=? 1) = true)
  /\ (forall r : RankedCrop, In r (computeRecommendations defaultInputs) ->
         (0 <=? score r) = true /\ (score r <=? 1) = true).
Proof. apply (score_in_unit_interval defaultInputs). reflexivity. Defined.

(** ** Ranking *)

(** C2: for every scenario, the sequence returned by
    [computeRecommendations] is sorted in descending order of the clamped
    [score]: every record's score is at least that of each record after
    it.  The only scores that cannot be compared are NaN, which all
    records have when [ph], [temperature] or [rainfall] is NaN and none
    has otherwise (infinite measurements give numbers).  Two records of
    which the later does not score strictly less, equal scores among them,
    appear in the relative order of their crops in the reference table. *)
Theorem ranking_sorted_stable (inp : Inputs) :
  (forall r : RankedCrop, In r (computeRecommendations inp) ->
      is_nan (score r) = anyNaN inp)
  /\ StronglySorted
       (fun a b => (score b <=? score a) = true \/ is_nan (score a) = true)
       (computeRecommendations inp)
  /\ (forall a b : RankedCrop,
         before a b (computeRecommendations inp) ->
         (score b <? score a) = false ->
         before (crop a) (crop b) cropBank).
Proof.
  assert (Hwf : Forall (fun c => wf_crop c = true) cropBank)
    by (rewrite Forall_forall; apply cropBank_wf).
  assert (Hnan : forall r : RankedCrop, In r (computeRecommendations inp) ->
                   is_nan (score r) = anyNaN inp).
  { intros r Hr. apply computeRecommendations_In in Hr.
    destruct Hr as (c & Hc & ->). apply score_is_nan, cropBank_wf, Hc. }
  split; [exact Hnan|]. split.
  - apply before_StronglySorted. intros a b Hab.
    destruct (before_In _ _ _ Hab) as [Ha Hb].
    pose proof (Hnan a Ha) as Na. pose proof (Hnan b Hb) as Nb.
    unfold computeRecommendations, computeRecommendationsOn, slice0 in Hab.
    apply before_firstn in Hab.
    pose proof (Array_sort_ordered score _
                  (scores_numbers_or_nan cropBank inp Hwf) a b Hab) as Hord.
    destruct (anyNaN inp); [right; exact Na|left].
    rewrite (sub_pos_ord a.(score) b.(score) Na Nb) in Hord.
    rewrite leb_ord by assumption. apply Z.leb_le. apply Z.ltb_ge in Hord.
    exact Hord.
  - intros a b Hab Htie.
    unfold computeRecommendations, computeRecommendationsOn, slice0 in Hab.
    apply before_firstn in Hab.
    apply Array_sort_stable in Hab. destruct Hab as [Hc|Hc].
    + apply sub_pos_ltb in Hc. congruence.
    + apply before_map in Hc. destruct Hc as (c & d & -> & -> & Hc).
      exact Hc.
Qed.

(** With an infinite temperature the scores are numbers still; Wheat and
    Mustard tie and keep their table order. *)
Example ranking_infinite :
  map (fun r => (name (crop r), score r))
      (computeRecommendations (withTemperature defaultInputs infinity))
  = [("Pulses"%string, 0.58000000000000007);
     ("Wheat"%string, 0.57000000000000006);
     ("Mustard"%string, 0.57000000000000006)].
Proof. vm_compute. reflexivity. Qed.

(** With a pH that is NaN every score is NaN and the table order is
    kept. *)
Example ranking_nan :
  map (fun r => (name (crop r), is_nan (score r)))
      (computeRecommendations (withPh defaultInputs nan))
  = [("Wheat"%string, true); ("Rice"%string, true); ("Maize"%string, true)].
Proof. vm_compute. reflexivity. Qed.

(** In the default scenario Rice and Maize tie at 0.79 behind Pulses, and
    Rice, which precedes Maize in the table, is ranked first of the two. *)
Example ranking_default :
  map (fun r => (name (crop r), score r)) (computeRecommendations defaultInputs)
  = [("Pulses"%string, 0.82000000000000006);
     ("Rice"%string, 0.79000000000000004);
     ("Maize"%string, 0.79000000000000004)].
Proof. vm_compute. reflexivity. Qed.

(** ** The preference bonus *)

Local Open Scope string_scope.

(** C5: [prefBonus] is the first-match evaluation of the four rules in the
    stated priority order, with default 0. *)
Theorem prefBonus_first_match (preference : string) (c : Crop) :
  prefBonus preference c = spec_prefBonus preference c.
Proof.
  unfold prefBonus, spec_prefBonus, prefRules, Array_includes.
  cbn [find existsb rule_preference rule_applies rule_bonus].
  rewrite !orb_false_r, orb_assoc.
  repeat match goal with
         | |- context [if ?b && ?d then _ else _] =>
             destruct b; cbn [andb]; [destruct d|]; try reflexivity
         end.
Qed.

(** The bonus of each crop of the reference table under each of the four
    preferences (rows: Wheat, Rice, Maize, Cotton, Mustard, Pulses). *)
Lemma prefBonus_table :
  map (fun c => map (fun p => prefBonus p c)
                  ["Low water"; "High yield"; "Short duration"; "Market demand"])
      cropBank
  = [ [0; 0; 0; 0.04]; [0; 0.06; 0; 0.04]; [0; 0.06; 0.06; 0];
      [0; 0; 0; 0.04]; [0.08; 0; 0; 0]; [0.08; 0; 0.06; 0] ]%float.
Proof. vm_compute. reflexivity. Qed.

Local Open Scope float_scope.

(** ** The pH term *)

(** C4: the pH term of the score is the full weight 0.28 whenever [ph]
    lies within the crop's [idealPh] range inclusive, and otherwise
    [max(0, 0.28 - |midpoint(idealPh) - ph| / 10)]; for every crop of the
    reference table the full weight is awarded at both endpoints of the
    range. *)
Theorem ph_term_spec :
  (forall (inp : Inputs) (c : Crop),
      phScore inp c = spec_phTerm (ideal_ph (ideal c)) (ph inp))
  /\ (forall (inp : Inputs) (c : Crop),
         within (ideal_ph (ideal c)) (ph inp) = true -> phScore inp c = 0.28)
  /\ (forall (inp : Inputs) (c : Crop),
         In c cropBank ->
         ph inp = fst (ideal_ph (ideal c)) \/ ph inp = snd (ideal_ph (ideal c)) ->
         phScore inp c = 0.28).
Proof.
  assert (H : forall (inp : Inputs) (c : Crop),
             phScore inp c = spec_phTerm (ideal_ph (ideal c)) (ph inp)).
  { intros inp c. unfold phScore, rangeStep, spec_phTerm, within, midpoint.
    destruct ((fst (ideal_ph (ideal c)) <=? ph inp)
              && (ph inp <=? snd (ideal_ph (ideal c)))).
    - reflexivity.
    - apply zero_add_Math_max. }
  split; [exact H|split].
  - intros inp c Hw. rewrite H. unfold spec_phTerm. rewrite Hw. reflexivity.
  - intros inp c Hc Hph. rewrite H.
    cbn in Hc.
    repeat (destruct Hc as [<-|Hc];
            [destruct Hph as [-> | ->]; vm_compute; reflexivity|]).
    destruct Hc.
Qed.

(** ** Derived yields *)


(** The values at that input. *)
Example yields_overflow :
  expectedYieldValue (scoreCrop (withArea defaultInputs 1e307) pulses)
  = 1.8999999999999999
  /\ is_finite (1.8999999999999999 * 1e307) = true
  /\ expectedYield (scoreCrop (withArea defaultInputs 1e307) pulses)
     = infinity.
Proof. vm_compute. repeat split. Qed.



(** The tolerance is needed: for Cotton in a Rabi scenario on clay the
    yield per hectare is 2.9, and on half a hectare the total is 1.5,
    fifteen tenths, although ten times the product of the two binary64
    values is below 14.5. *)
Example total_not_nearest :
  let inp := {| ph := 6.5; temperature := 26; rainfall := 700;
                soilType := "Clay"; area := 0.5; season := "Rabi";
                preference := "High yield" |} in
  let cotton := cropAt 3 in
  expectedYieldValue (scoreCrop inp cotton) = 2.8999999999999999
  /\ expectedYield (scoreCrop inp cotton) = tenths 15
  /\ (10 * exactYieldTotal inp cotton < 29 # 2)%Q.
Proof.
  cbn zeta. split; [vm_compute; reflexivity|].
  split; [vm_compute; reflexivity|].
  apply Qlt_alt. vm_compute. reflexivity.
Qed.

(** ** Determinism *)

(** The embedding of [computeRecommendations] is one of the results that
    the contract of [sort] allows, for every scenario. *)
Lemma computeRecommendations_recommends (inp : Inputs) :
  recommends inp (computeRecommendations inp).
Proof.
  assert (Hwf : Forall (fun c => wf_crop c = true) cropBank)
    by (rewrite Forall_forall; apply cropBank_wf).
  destruct (Array_sort_contract score (map (scoreCrop inp) cropBank)
              (scores_numbers_or_nan cropBank inp Hwf)) as (p & Hp & E).
  exists p. split; [exact Hp|].
  unfold computeRecommendations, computeRecommendationsOn. rewrite E.
  reflexivity.
Qed.

(** C9: [computeRecommendations] reads nothing but its argument and the
    table that it builds itself, and the one step that ECMAScript leaves to
    the engine, the sort, has a single outcome permitted by its contract:
    two calls with the same scenario, whatever the engine does within the
    contract, return identical sequences (the same crops in the same order
    with the same [score] and yield values; equality of [float] is
    equality of the binary64 value), namely what the embedding
    computes. *)
Theorem computeRecommendations_deterministic
  (inp : Inputs) (out1 out2 : list RankedCrop) :
  recommends inp out1 -> recommends inp out2 ->
  out1 = out2 /\ out1 = computeRecommendations inp.
Proof.
  assert (U : forall a b, recommends inp a -> recommends inp b -> a = b).
  { intros a b (p1 & C1 & ->) (p2 & C2 & ->).
    rewrite (sort_contract_unique _ _ p1 p2 C1 C2). reflexivity. }
  intros H1 H2. split; [exact (U _ _ H1 H2)|].
  apply (U _ _ H1), computeRecommendations_recommends.
Qed.

(** Two engines on the default scenario: one is told to sort by the
    indices 5, 1, 2, 3, 0, 4 and the other runs the insertion sort. *)
Lemma computeRecommendations_deterministic_witness :
  slice0 3 (pick (map (scoreCrop defaultInputs) cropBank) [5; 1; 2; 3; 0; 4]%nat)
  = computeRecommendations defaultInputs
  /\ slice0 3 (pick (map (scoreCrop defaultInputs) cropBank) [5; 1; 2; 3; 0; 4]%nat)
     = computeRecommendations defaultInputs.
Proof.
  apply (computeRecommendations_deterministic defaultInputs).
  - exists [5; 1; 2; 3; 0; 4]%nat. split; [vm_compute|]; reflexivity.
  - exists [5; 1; 2; 3; 0; 4]%nat. split; vm_compute; reflexivity.
Defined.

(** Any other order of the indices breaks the contract: here Maize is put
    before Rice, which ties with it and comes first in the table. *)
Example sort_contract_rejects :
  sort_contract (fun a b : RankedCrop => score b - score a)
                (map (scoreCrop defaultInputs) cropBank)
                [5; 2; 1; 3; 0; 4]%nat = false.
Proof. vm_compute. reflexivity. Qed.

(** ** The low-water preference *)

Local Open Scope string_scope.

(** The raw score is the score before the preference statement plus the
    bonus (line 159). *)
Lemma rawScore_withPreference (inp : Inputs) (p : string) (c : Crop) :
  exists base : float,
    rawScore inp c = (base + prefBonus (preference inp) c)%float
    /\ rawScore (withPreference inp p) c = (base + prefBonus p c)%float.
Proof. eexists. split; reflexivity. Qed.

(** C8, as amended: for a crop whose water need is Low, the raw score under
    preference "Low water" is the raw score of the otherwise-identical
    scenario plus 0.08, whenever the other preference awards that crop no
    bonus. *)
Theorem low_water_gain (inp : Inputs) (p : string) (c : Crop) :
  water c = "Low" ->
  prefBonus p c = 0%float ->
  rawScore (withPreference inp "Low water") c
  = (rawScore (withPreference inp p) c + 0.08)%float.
Proof.
  intros Hw Hp.
  destruct (rawScore_withPreference (withPreference inp p) "Low water" c)
    as [base [H1 H2]].
  cbn [withPreference preference ph temperature rainfall soilType area season]
    in H1, H2.
  change (withPreference (withPreference inp p) "Low water")
    with (withPreference inp "Low water") in H2.
  rewrite H1, H2, Hp.
  unfold prefBonus. rewrite Hw. cbn [String.eqb Ascii.eqb Bool.eqb andb].
  symmetry. eapply add_zero_then_add. vm_compute. reflexivity.
Qed.

Lemma low_water_gain_witness :
  rawScore (withPreference defaultInputs "Low water") mustard
  = (rawScore (withPreference defaultInputs "Market demand") mustard + 0.08)%float.
Proof.
  apply (low_water_gain defaultInputs "Market demand" mustard);
    vm_compute; reflexivity.
Defined.

(** For Mustard every preference other than "Low water" is such a
    preference; for Pulses every preference other than "Low water" and
    "Short duration". *)
Lemma no_bonus_mustard (p : string) :
  p <> "Low water" -> prefBonus p mustard = 0%float.
Proof.
  intros Hp. apply String.eqb_neq in Hp.
  unfold prefBonus. rewrite Hp. cbn [andb].
  destruct (p =? "High yield"), (p =? "Short duration"), (p =? "Market demand");
    vm_compute; reflexivity.
Qed.

Lemma no_bonus_pulses (p : string) :
  p <> "Low water" -> p <> "Short duration" -> prefBonus p pulses = 0%float.
Proof.
  intros Hp Hq. apply String.eqb_neq in Hp, Hq.
  unfold prefBonus. rewrite Hp, Hq. cbn [andb].
  destruct (p =? "High yield"), (p =? "Market demand");
    vm_compute; reflexivity.
Qed.

(** C8 as stated fails: for Pulses, against the otherwise-identical scenario
    with preference "Short duration" (which awards Pulses 0.06), the raw
    score is not 0.08 higher. *)
Lemma low_water_gain_counterexample :
  ~ (forall (inp : Inputs) (p : string) (c : Crop),
        numeric inp = true ->
        In c cropBank -> water c = "Low" -> p <> "Low water" ->
        rawScore (withPreference inp "Low water") c
        = (rawScore (withPreference inp p) c + 0.08)%float).
Proof.
  intros H.
  specialize (H (rabiInputs "Low water") "Short duration" pulses eq_refl).
  assert (Hin : In pulses cropBank) by (cbv [pulses cropBank In]; tauto).
  specialize (H Hin eq_refl ltac:(discriminate)).
  vm_compute in H. discriminate H.
Qed.

Local Open Scope float_scope.

(** ** The 40 percent uplift *)


(** The values at that input. *)
Example uplift_mustard :
  rawScore (rabiInputs "Low water") mustard = 1.05
  /\ score (scoreCrop (rabiInputs "Low water") mustard) = 1
  /\ expectedYieldValue (scoreCrop (rabiInputs "Low water") mustard) = 1.6
  /\ round1 (baseYield mustard * 1.4) = 1.5.
Proof. vm_compute. repeat split. Qed.



(** Without the condition the raw score stays below 1.051 (the weights and
    the largest bonus add up to 1.05), and the uplift below 42 percent. *)
Lemma uplift_cap_general (inp : Inputs) (c : Crop) :
  numeric inp = true -> In c cropBank ->
  (expectedYieldValue (scoreCrop inp c) <=? round1 (baseYield c * 1.42)) = true.
Proof.
  intros Hn Hc. destruct (numeric_not_nan inp Hn) as (Hp & Ht & Hr).
  pose proof (cropBank_wf c Hc) as Hwf.
  pose proof (rawScore_below inp c Hwf Hp Ht Hr) as Hraw.
  assert (Hb : finite_pos (baseYield c) = true).
  { unfold wf_crop in Hwf. apply andb_prop in Hwf. apply Hwf. }
  pose proof (cropBank_cap42 c Hc) as Hk. unfold cap42_check in Hk.
  apply andb_prop in Hk. destruct Hk as [Hok Hall].
  destruct (yield_tenths inp c rawMax Hraw Hb Hok) as (k & Hk & ->).
  rewrite forallb_forall in Hall. apply Hall, In_Zrange, Hk.
Qed.

(** ** A zero area *)




(** The default scenario with its area set to 0. *)
Example zero_area_default :
  map (fun r => (name (crop r), expectedYieldValue r, expectedYield r))
      (computeRecommendations (withArea defaultInputs 0))
  = [("Pulses"%string, 1.8999999999999999, 0);
     ("Rice"%string, 5.2999999999999998, 0);
     ("Maize"%string, 7.2000000000000002, 0)].
Proof. vm_compute. reflexivity. Qed.

(** * More of the component *)

(** ** What is recommended *)

Import App.

Local Open Scope float_scope.

Lemma cropBank_names_NoDup : NoDup (map name cropBank).
Proof.
  cbn. repeat constructor; cbn; intros H;
    repeat (destruct H as [H|H]; [discriminate H|]); exact H.
Qed.

Lemma NoDup_firstn {A : Type} (n : nat) (l : list A) :
  NoDup l -> NoDup (firstn n l).
Proof.
  intros H. revert n. induction H as [|x l Hx Hl IH]; intros [|n]; cbn;
    try constructor; auto.
  intros Hin. apply Hx. eapply In_firstn, Hin.
Qed.

(** X1: every record returned is the scored record of a crop of the
    reference table, and no crop is returned twice. *)
Theorem recommendations_from_table (inp : Inputs) :
  (forall r : RankedCrop, In r (computeRecommendations inp) ->
      In (crop r) cropBank /\ r = scoreCrop inp (crop r))
  /\ NoDup (map (fun r => name (crop r)) (computeRecommendations inp)).
Proof.
  split.
  - intros r Hr. apply computeRecommendations_In in Hr.
    destruct Hr as (c & Hc & ->). split; [exact Hc|reflexivity].
  - unfold computeRecommendations, computeRecommendationsOn, slice0.
    rewrite <- firstn_map. apply NoDup_firstn.
    eapply Permutation_NoDup; [|exact cropBank_names_NoDup].
    symmetry.
    etransitivity; [apply Permutation_map, Array_sort_perm|].
    rewrite map_map. reflexivity.
Qed.

Lemma StronglySorted_app {A : Type} (R : A -> A -> Prop) (l1 l2 : list A) :
  StronglySorted R (l1 ++ l2) ->
  forall a b, In a l1 -> In b l2 -> R a b.
Proof.
  induction l1 as [|x l1 IH]; cbn; intros H a b Ha Hb; [destruct Ha|].
  inversion H as [|? ? Hs Hx]; subst.
  destruct Ha as [<-|Ha]; [|eapply IH; eauto].
  rewrite Forall_forall in Hx. apply Hx, in_or_app. right. exact Hb.
Qed.

(** The whole table, scored and sorted, before [slice(0, 3)]. *)
Lemma scored_sorted (inp : Inputs) :
  numeric inp = true ->
  StronglySorted (fun a b => (score b <=? score a) = true)
    (Array_sort (fun a b => score b - score a) (map (scoreCrop inp) cropBank)).
Proof.
  intros Hn.
  set (cmp := fun a b : RankedCrop => score b - score a).
  set (l := map (scoreCrop inp) cropBank).
  set (good := fun r : RankedCrop => is_nan (score r) = false).
  assert (Hl : Forall good l).
  { unfold l. rewrite Forall_forall. intros r Hr.
    apply in_map_iff in Hr. destruct Hr as [c [<- Hc]].
    apply score_not_nan; auto using cropBank_wf. }
  assert (Hk : forall x y, good x -> good y ->
                 (0 <? cmp x y) = (ord (score x) <? ord (score y))%Z)
    by (intros x y Hx Hy; apply sub_pos_ord; assumption).
  apply (StronglySorted_weaken
           (fun a b => (ord (score b) <= ord (score a))%Z) _ good).
  - intros a b Ha Hb H. rewrite leb_ord by assumption. apply Z.leb_le, H.
  - apply (Permutation_Forall (Permutation_sym (Array_sort_perm cmp l))), Hl.
  - apply (Array_sort_sorted cmp (fun r => ord (score r)) good Hk l Hl).
Qed.

(** X2: the three records returned are the best of the table: a crop that
    is not returned scores no higher than any record returned. *)
Theorem top_three_are_best (inp : Inputs) (r : RankedCrop) (c : Crop) :
  numeric inp = true ->
  In r (computeRecommendations inp) -> In c cropBank ->
  ~ In c (map crop (computeRecommendations inp)) ->
  (score (scoreCrop inp c) <=? score r) = true.
Proof.
  intros Hn Hr Hc Hout.
  pose proof (scored_sorted inp Hn) as Hs.
  unfold computeRecommendations, computeRecommendationsOn, slice0 in *.
  set (L := Array_sort _ _) in *.
  rewrite <- (firstn_skipn 3 L) in Hs.
  apply (StronglySorted_app _ _ _ Hs r (scoreCrop inp c) Hr).
  assert (HL : In (scoreCrop inp c) L).
  { apply (Permutation_in _ (Permutation_sym (Array_sort_perm _ _))).
    apply in_map, Hc. }
  rewrite <- (firstn_skipn 3 L) in HL. apply in_app_or in HL.
  destruct HL as [HL|HL]; [|exact HL].
  exfalso. apply Hout. apply in_map_iff.
  exists (scoreCrop inp c). split; [reflexivity|exact HL].
Qed.

Lemma top_three_are_best_witness :
  (score (scoreCrop defaultInputs wheat)
   <=? score (scoreCrop defaultInputs pulses)) = true.
Proof.
  apply (top_three_are_best defaultInputs (scoreCrop defaultInputs pulses) wheat).
  - reflexivity.
  - vm_compute. left. reflexivity.
  - cbv [wheat cropBank In]. tauto.
  - vm_compute. intros H.
    repeat (destruct H as [H|H]; [discriminate H|]). exact H.
Defined.

(** ** The run history *)

Lemma cropBank_names_nonempty (c : Crop) :
  In c cropBank -> (name c =? "")%string = false.
Proof.
  assert (H : forallb (fun c => negb (name c =? "")%string) cropBank = true)
    by reflexivity.
  rewrite forallb_forall in H. intros Hc.
  apply negb_true_iff, H, Hc.
Qed.

Lemma recommendations_head (inp : Inputs) :
  exists (r : RankedCrop) (rest : list RankedCrop),
    computeRecommendations inp = r :: rest.
Proof.
  assert (H : length (computeRecommendations inp) = 3%nat).
  { unfold computeRecommendations, computeRecommendationsOn, slice0.
    rewrite length_firstn, Array_sort_length, length_map. reflexivity. }
  destruct (computeRecommendations inp) as [|r rest]; [discriminate H|].
  eauto.
Qed.

(** X3: the top crop that [handleRecommend] records in the history is the
    name of a crop of the reference table whose score no other crop of the
    table exceeds; the placeholder "-" is never recorded. *)
Theorem top_crop_is_best (inputs : FormInputs) :
  numeric (scored inputs) = true ->
  exists c : Crop,
    In c cropBank
    /\ topCrop (computeRecommendations (scored inputs)) = name c
    /\ topCrop (computeRecommendations (scored inputs)) <> "-"%string
    /\ forall c' : Crop, In c' cropBank ->
         (score (scoreCrop (scored inputs) c')
          <=? score (scoreCrop (scored inputs) c)) = true.
Proof.
  intros Hn. set (inp := scored inputs) in *.
  destruct (recommendations_head inp) as (r & rest & E).
  assert (Hr : In r (computeRecommendations inp)) by (rewrite E; left; reflexivity).
  destruct (computeRecommendations_In cropBank inp r Hr) as (c0 & Hc & Er).
  assert (Ec : crop r = c0) by (rewrite Er; reflexivity).
  rewrite <- Ec in Hc, Er. clear c0 Ec.
  exists (crop r).
  assert (Et : topCrop (computeRecommendations inp) = name (crop r)).
  { rewrite E. cbn [topCrop]. unfold orElseStr.
    rewrite (cropBank_names_nonempty _ Hc). reflexivity. }
  split; [exact Hc|]. split; [exact Et|]. split.
  - rewrite Et. intros Hd.
    pose proof (cropBank_names_nonempty _ Hc) as Hne.
    revert Hd. clear - Hc. cbn in Hc.
    repeat (destruct Hc as [<-|Hc]; [discriminate|]). destruct Hc.
  - intros c' Hc'. rewrite <- Er.
    pose proof (scored_sorted inp Hn) as Hs.
    unfold computeRecommendations, computeRecommendationsOn, slice0 in E.
    set (L := Array_sort _ _) in *.
    assert (HL : In (scoreCrop inp c') L).
    { apply (Permutation_in _ (Permutation_sym (Array_sort_perm _ _))).
      apply in_map, Hc'. }
    destruct L as [|x L']; [destruct HL|].
    cbn [firstn] in E. injection E as -> _.
    inversion Hs as [|? ? _ Hx]; subst.
    destruct HL as [<-|HL].
    + rewrite Er. rewrite leb_ord; [apply Z.leb_refl| |];
        apply score_not_nan; auto using cropBank_wf.
    + rewrite Forall_forall in Hx. apply Hx, HL.
Qed.

Lemma top_crop_is_best_witness :
  exists c : Crop,
    In c cropBank
    /\ topCrop (computeRecommendations defaultInputs) = name c
    /\ topCrop (computeRecommendations defaultInputs) <> "-"%string
    /\ forall c' : Crop, In c' cropBank ->
         (score (scoreCrop defaultInputs c')
          <=? score (scoreCrop defaultInputs c)) = true.
Proof.
  apply (top_crop_is_best
           {| location := "Agra, IN"; soilMoisture := 30; irrigation := "Canal";
              scored := defaultInputs |}).
  reflexivity.
Defined.

Lemma firstn_cons_firstn {A : Type} (n : nat) (x : A) (l : list A) :
  firstn (S n) (x :: firstn (S n) l) = firstn (S n) (x :: l).
Proof.
  rewrite !firstn_cons. f_equal. rewrite firstn_firstn.
  f_equal. lia.
Qed.

(** X4: when the timer of each recommendation fires before the next one
    is submitted, then after one or more recommendations, whatever the
    history was, the history holds the entries of the runs, newest first,
    followed by the earlier entries, cut to the 200 newest.  When a second
    recommendation is submitted before the timer of the first has fired,
    the entry of the first is lost: both callbacks hold the same
    history. *)
Theorem history_after_runs
  (runs : list (float * string * FormInputs)) (history : list HistoryEntry) :
  runs <> [] ->
  let entry := fun run : float * string * FormInputs =>
    historyEntry (fst (fst run)) (snd (fst run)) (snd run)
                 (computeRecommendations (scored (snd run))) in
  let start := {| st_history := history; st_timers := [] |} in
  let one_by_one :=
    flat_map (fun run => [Submit (snd run);
                          TimerFires (fst (fst run)) (snd (fst run))]) runs in
  runEvents start one_by_one
  = {| st_history := firstn 200 (rev (map entry runs) ++ history);
       st_timers := [] |}
  /\ (forall r1 r2 : float * string * FormInputs,
         runEvents start
           [Submit (snd r1); Submit (snd r2);
            TimerFires (fst (fst r1)) (snd (fst r1));
            TimerFires (fst (fst r2)) (snd (fst r2))]
         = {| st_history := firstn 200 (entry r2 :: history);
              st_timers := [] |}).
Proof.
  intros Hruns. cbn zeta.
  set (entry := fun run : float * string * FormInputs =>
    historyEntry (fst (fst run)) (snd (fst run)) (snd run)
                 (computeRecommendations (scored (snd run)))).
  set (events := fun run : float * string * FormInputs =>
    [Submit (snd run); TimerFires (fst (fst run)) (snd (fst run))]).
  assert (Hone : forall h run,
             runEvents {| st_history := h; st_timers := [] |} (events run)
             = {| st_history := firstn 200 (entry run :: h);
                  st_timers := [] |})
    by reflexivity.
  assert (Hgen : forall runs h,
             runEvents {| st_history := firstn 200 h; st_timers := [] |}
                       (flat_map events runs)
             = {| st_history := firstn 200 (rev (map entry runs) ++ h);
                  st_timers := [] |}).
  { induction runs0 as [|run runs0 IH]; intros h.
    - reflexivity.
    - cbn [flat_map map rev]. unfold runEvents in *.
      rewrite fold_left_app, Hone, firstn_cons_firstn, IH, <- app_assoc.
      reflexivity. }
  split; [|reflexivity].
  destruct runs as [|run runs]; [congruence|].
  cbn [flat_map map rev]. unfold runEvents in *.
  rewrite fold_left_app, Hone, Hgen, <- app_assoc. reflexivity.
Qed.

Lemma history_after_runs_witness :
  let e1 := historyEntry 1 "a" defaultForm (computeRecommendations defaultInputs) in
  let e2 := historyEntry 2 "b" defaultForm (computeRecommendations defaultInputs) in
  let start := {| st_history := []; st_timers := [] |} in
  runEvents start [Submit defaultForm; TimerFires 1 "a";
                   Submit defaultForm; TimerFires 2 "b"]
  = {| st_history := firstn 200 [e2; e1]; st_timers := [] |}
  /\ (forall r1 r2 : float * string * FormInputs,
         runEvents start
           [Submit (snd r1); Submit (snd r2);
            TimerFires (fst (fst r1)) (snd (fst r1));
            TimerFires (fst (fst r2)) (snd (fst r2))]
         = {| st_history :=
                firstn 200
                  [historyEntry (fst (fst r2)) (snd (fst r2)) (snd r2)
                     (computeRecommendations (scored (snd r2)))];
              st_timers := [] |}).
Proof.
  intros e1 e2 start.
  apply (history_after_runs
           [(1, "a"%string, defaultForm); (2, "b"%string, defaultForm)] []).
  discriminate.
Defined.

(** ** Saved scenarios *)

Lemma delete_fresh (id : float) (l : list Scenario) :
  (forall s, In s l -> (sc_id s =? id) = false) -> deleteScenario id l = l.
Proof.
  intros H. unfold deleteScenario. induction l as [|s l IH]; cbn [filter].
  - reflexivity.
  - rewrite (H s (or_introl eq_refl)). cbn [negb]. f_equal.
    apply IH. intros t Ht. apply H. right. exact Ht.
Qed.

(** X5: a saved scenario loads back the inputs it was saved from; deleting
    it again (its id being a number that no other saved scenario has)
    leaves the 49 newest of the earlier scenarios, that is all of them when
    there were fewer than 50: a scenario pushed out by the save does not
    come back. *)
Theorem save_then_delete (now : float) (iso : string) (inputs : FormInputs)
  (saved : list Scenario) :
  is_nan now = false ->
  (forall s, In s saved -> (sc_id s =? now) = false) ->
  (exists s rest, saveScenario now iso inputs saved = s :: rest
                  /\ loadScenario s = inputs)
  /\ deleteScenario now (saveScenario now iso inputs saved) = firstn 49 saved
  /\ ((length saved < 50)%nat ->
      deleteScenario now (saveScenario now iso inputs saved) = saved).
Proof.
  intros Hn Hfresh.
  assert (E : saveScenario now iso inputs saved
              = {| sc_id := now; sc_createdAt := iso; sc_inputs := inputs |}
                :: firstn 49 saved)
    by (unfold saveScenario, slice0; apply firstn_cons).
  assert (Hself : (now =? now) = true).
  { unfold is_nan in Hn. apply negb_false_iff in Hn. exact Hn. }
  assert (Hdel : deleteScenario now (saveScenario now iso inputs saved)
                 = firstn 49 saved).
  { rewrite E. unfold deleteScenario. cbn [filter sc_id].
    rewrite Hself. cbn [negb]. apply delete_fresh.
    intros s Hs. apply Hfresh. eapply In_firstn, Hs. }
  split; [|split].
  - rewrite E. eauto.
  - exact Hdel.
  - intros Hlen. rewrite Hdel. apply firstn_all2. lia.
Qed.

(** Fifty scenarios are saved already: the new one pushes the oldest out,
    and deleting the new one leaves 49. *)
Lemma save_then_delete_witness :
  (exists s rest,
      saveScenario 1700000000000 "t" defaultForm fiftyScenarios = s :: rest
      /\ loadScenario s = defaultForm)
  /\ deleteScenario 1700000000000
       (saveScenario 1700000000000 "t" defaultForm fiftyScenarios)
     = firstn 49 fiftyScenarios
  /\ length (firstn 49 fiftyScenarios) = 49%nat
  /\ length fiftyScenarios = 50%nat.
Proof.
  destruct (save_then_delete 1700000000000 "t" defaultForm fiftyScenarios)
    as (H1 & H2 & _).
  - reflexivity.
  - intros s Hs.
    assert (H : forallb (fun s => negb (sc_id s =? 1700000000000))
                        fiftyScenarios = true) by (vm_compute; reflexivity).
    rewrite forallb_forall in H. apply negb_true_iff, H, Hs.
  - split; [exact H1|]. split; [exact H2|]. split; reflexivity.
Defined.

(** X6: the id of a scenario is the time of the save, so two scenarios
    saved at the same millisecond share it, and deleting one of them
    deletes both. *)
Theorem delete_same_millisecond (now : float) (iso1 iso2 : string)
  (in1 in2 : FormInputs) (saved : list Scenario) :
  is_nan now = false ->
  deleteScenario now
    (saveScenario now iso2 in2 (saveScenario now iso1 in1 saved))
  = deleteScenario now (firstn 48 saved).
Proof.
  intros Hn.
  assert (Hself : (now =? now) = true).
  { unfold is_nan in Hn. apply negb_false_iff in Hn. exact Hn. }
  unfold saveScenario, slice0.
  change 50%nat with (S (S 48)).
  rewrite !firstn_cons, firstn_firstn.
  replace (Nat.min 48 (S 48)) with 48%nat by reflexivity.
  unfold deleteScenario. cbn [filter sc_id]. rewrite Hself. reflexivity.
Qed.

Lemma delete_same_millisecond_witness :
  let inputs := {| location := "Agra, IN"; soilMoisture := 30;
                   irrigation := "Canal"; scored := defaultInputs |} in
  deleteScenario 1700000000000
    (saveScenario 1700000000000 "b" inputs
       (saveScenario 1700000000000 "a" inputs []))
  = deleteScenario 1700000000000 (firstn 48 []).
Proof.
  intros inputs. apply (delete_same_millisecond 1700000000000). reflexivity.
Defined.

(** ** The comparison tray *)

(** Removing records from a tray keeps the crop names pairwise
    different. *)
Lemma filter_names_NoDup (keep : RankedCrop -> bool) (items : list RankedCrop) :
  NoDup (map (fun i => name (crop i)) items) ->
  NoDup (map (fun i => name (crop i)) (filter keep items)).
Proof.
  intros H. induction items as [|x items IH]; [constructor|].
  cbn [map] in H. apply NoDup_cons_iff in H. destruct H as [Hx Hl].
  cbn [filter]. destruct (keep x); [|exact (IH Hl)].
  cbn [map]. apply NoDup_cons; [|exact (IH Hl)].
  rewrite in_map_iff in *. intros (y & Ey & Hy).
  apply Hx. exists y. split; [exact Ey|].
  apply filter_In in Hy. apply Hy.
Qed.

Lemma compare_absent (rec : RankedCrop) (items : list RankedCrop) :
  existsb (fun i => (name (crop i) =? name (crop rec))%string) items = false
  <-> ~ In (name (crop rec)) (map (fun i => name (crop i)) items).
Proof.
  split.
  - intros H Hin. apply in_map_iff in Hin. destruct Hin as (i & Ei & Hi).
    assert (Ht : existsb (fun i => (name (crop i) =? name (crop rec))%string)
                         items = true).
    { apply existsb_exists. exists i. split; [exact Hi|].
      apply String.eqb_eq, Ei. }
    congruence.
  - intros H. destruct (existsb _ items) eqn:E; [|reflexivity].
    exfalso. apply H. apply existsb_exists in E. destruct E as (i & Hi & Ei).
    apply String.eqb_eq in Ei. apply in_map_iff. eauto.
Qed.

Lemma toggleCompare_invariant (rec : RankedCrop) (items : list RankedCrop) :
  (length items <= 3)%nat /\ NoDup (map (fun i => name (crop i)) items) ->
  (length (toggleCompare rec items) <= 3)%nat
  /\ NoDup (map (fun i => name (crop i)) (toggleCompare rec items)).
Proof.
  intros [Hlen Hnd]. unfold toggleCompare, slice0.
  destruct (existsb _ items) eqn:E.
  - split; [|apply filter_names_NoDup, Hnd].
    eapply Nat.le_trans; [apply filter_length_le|exact Hlen].
  - split; [rewrite length_firstn; lia|].
    rewrite <- firstn_map. apply NoDup_firstn.
    rewrite map_app. cbn [map].
    apply compare_absent in E.
    apply NoDup_app; [exact Hnd|repeat constructor; intros []|].
    intros x Hx [<-|[]]. exact (E Hx).
Qed.

(** X7: whatever records are toggled, in whatever order, the comparison
    tray holds at most three records, of pairwise different crops. *)
Theorem compare_tray_invariant (recs : list RankedCrop) :
  let items := fold_left (fun items rec => toggleCompare rec items) recs [] in
  (length items <= 3)%nat /\ NoDup (map (fun i => name (crop i)) items).
Proof.
  cbn zeta.
  assert (H : forall items,
             (length items <= 3)%nat
             /\ NoDup (map (fun i => name (crop i)) items) ->
             (length (fold_left (fun items rec => toggleCompare rec items)
                                recs items) <= 3)%nat
             /\ NoDup (map (fun i => name (crop i))
                           (fold_left (fun items rec => toggleCompare rec items)
                                      recs items))).
  { induction recs as [|rec recs IH]; intros items Hi; cbn [fold_left].
    - exact Hi.
    - apply IH, toggleCompare_invariant, Hi. }
  apply H. cbn. split; [lia|constructor].
Qed.

(** The three cases of a toggle: the crop is added when it is absent and
    there is room, ignored when it is absent and the tray is full, and
    removed when it is present. *)
Lemma toggle_compare_cases (rec : RankedCrop) (items : list RankedCrop) :
  (~ In (name (crop rec)) (map (fun i => name (crop i)) items) ->
   (length items < 3)%nat ->
   toggleCompare rec items = (items ++ [rec])%list
   /\ toggleCompare rec (toggleCompare rec items) = items)
  /\ (~ In (name (crop rec)) (map (fun i => name (crop i)) items) ->
      (3 <= length items)%nat ->
      toggleCompare rec items = firstn 3 items)
  /\ (In (name (crop rec)) (map (fun i => name (crop i)) items) ->
      ~ In (name (crop rec))
           (map (fun i => name (crop i)) (toggleCompare rec items))).
Proof.
  set (same := fun i : RankedCrop => (name (crop i) =? name (crop rec))%string).
  assert (Hkeep : ~ In (name (crop rec)) (map (fun i => name (crop i)) items) ->
                  filter (fun i => negb (same i)) items = items).
  { intros Habs. induction items as [|x l IH]; cbn [filter]; [reflexivity|].
    cbn [map In] in Habs.
    destruct (same x) eqn:Ex.
    - exfalso. apply Habs. left. apply String.eqb_eq, Ex.
    - cbn [negb]. f_equal. apply IH. tauto. }
  split; [|split].
  - intros Habs Hlen. pose proof Habs as Hex. apply compare_absent in Hex.
    assert (E1 : toggleCompare rec items = (items ++ [rec])%list).
    { unfold toggleCompare, slice0. rewrite Hex.
      apply firstn_all2. rewrite length_app. cbn [length]. lia. }
    split; [exact E1|]. rewrite E1. unfold toggleCompare. cbn zeta.
    change (fun i : RankedCrop => (name (crop i) =? name (crop rec))%string)
      with same.
    assert (Hin : existsb same (items ++ [rec])%list = true).
    { rewrite existsb_app. cbn [existsb]. unfold same at 2.
      rewrite String.eqb_refl. rewrite orb_true_r. reflexivity. }
    rewrite Hin, filter_app. unfold same in Hkeep. rewrite (Hkeep Habs).
    cbn [filter]. rewrite String.eqb_refl. cbn [negb]. apply app_nil_r.
  - intros Habs Hlen. apply compare_absent in Habs.
    unfold toggleCompare, slice0. rewrite Habs.
    rewrite firstn_app.
    replace (3 - length items)%nat with 0%nat by lia.
    cbn [firstn]. apply app_nil_r.
  - intros Hin Hout. unfold toggleCompare in Hout. cbn zeta in Hout.
    change (fun i : RankedCrop => (name (crop i) =? name (crop rec))%string)
      with same in Hout.
    destruct (existsb same items) eqn:E.
    + apply in_map_iff in Hout. destruct Hout as (i & Ei & Hi).
      apply filter_In in Hi. destruct Hi as [_ Hi].
      apply negb_true_iff in Hi. unfold same in Hi.
      apply String.eqb_neq in Hi. congruence.
    + apply compare_absent in E. exact (E Hin).
Qed.

(** X8: toggling a record twice restores the tray, when the record's crop
    was not in it and it held fewer than three records. *)
Theorem toggle_twice (rec : RankedCrop) (items : list RankedCrop) :
  ~ In (name (crop rec)) (map (fun i => name (crop i)) items) ->
  (length items < 3)%nat ->
  toggleCompare rec (toggleCompare rec items) = items.
Proof.
  intros Habs Hlen.
  destruct (toggle_compare_cases rec items) as [H _].
  apply (H Habs Hlen).
Qed.

Lemma toggle_twice_witness :
  toggleCompare (scoreCrop defaultInputs wheat)
    (toggleCompare (scoreCrop defaultInputs wheat)
                   [scoreCrop defaultInputs pulses])
  = [scoreCrop defaultInputs pulses].
Proof.
  apply (toggle_twice (scoreCrop defaultInputs wheat)
                      [scoreCrop defaultInputs pulses]).
  - cbn. intros [H|[]]. discriminate H.
  - cbn. lia.
Defined.

(** X9: a tray that holds three records ignores a record of a fourth
    crop: it is not added and nothing is said. *)
Theorem toggle_full_tray (rec : RankedCrop) (items : list RankedCrop) :
  ~ In (name (crop rec)) (map (fun i => name (crop i)) items) ->
  length items = 3%nat ->
  toggleCompare rec items = items.
Proof.
  intros Habs Hlen.
  destruct (toggle_compare_cases rec items) as (_ & H & _).
  rewrite (H Habs) by lia. apply firstn_all2. lia.
Qed.

Lemma toggle_full_tray_witness :
  toggleCompare (scoreCrop defaultInputs wheat)
                (computeRecommendations defaultInputs)
  = computeRecommendations defaultInputs.
Proof.
  apply (toggle_full_tray (scoreCrop defaultInputs wheat)
                          (computeRecommendations defaultInputs)).
  - vm_compute. intros H.
    repeat (destruct H as [H|H]; [discriminate H|]). exact H.
  - reflexivity.
Defined.

(** ** The percentage shown *)

Lemma Math_min_1_below (s : float) :
  nonneg s = true -> below (Math_min 1 s) 1.
Proof.
  intros Hs. pose proof (nonneg_not_nan s Hs) as Hn.
  unfold Math_min. rewrite Hn.
  change (is_nan 1) with false. change (get_sign 1) with false. cbn [orb].
  destruct (1 <? s) eqn:H1.
  - repeat split; try reflexivity. qle.
  - assert (E : (if s <? 1 then s else s) = s) by (destruct (s <? 1); reflexivity).
    rewrite E.
    assert (Hle : (s <=? 1) = true)
      by (apply leb_of_not_ltb; [reflexivity|exact Hn|exact H1]).
    assert (Hf : SFfinite (Prim2SF s) = true).
    { rewrite ltb_spec in H1. unfold nonneg in Hs.
      destruct (Prim2SF s) as [[|]|[|]| |[|] m e]; try discriminate;
        try reflexivity. }
    repeat split; auto.
    apply Qle_trans with (F2Q 1); [|qle].
    apply leb_F2Q; auto. rewrite is_finite_spec. exact Hf.
Qed.

(** X10: the percentage shown for a returned record,
    [Math.round(rec.score * 100)], is a whole number from 0 to 100. *)
Theorem percent_range (inp : Inputs) (r : RankedCrop) :
  numeric inp = true -> In r (computeRecommendations inp) ->
  exists k : Z, (0 <= k <= 100)%Z /\ percent r = Z2float k.
Proof.
  intros Hn Hr. destruct (computeRecommendations_In _ _ _ Hr) as (c & Hc & ->).
  destruct (numeric_not_nan inp Hn) as (Hp & Ht & Hrain).
  pose proof (rawScore_nonneg inp c (cropBank_wf c Hc) Hp Ht Hrain) as Hraw.
  pose proof (Math_min_1_below _ Hraw) as Hs.
  unfold percent. cbn [scoreCrop score].
  assert (Hm : below (Math_min 1 (rawScore inp c) * 100) (100 + eps)).
  { apply (mul_below _ 100 1 (F2Q 100)); auto.
    - apply below_const. reflexivity.
    - qle.
    - qle. }
  destruct (Math_round_below _ _ Hm ltac:(qle)) as (k & Hk & E).
  exists k. split; [|exact E].
  change (Qfloor (100 + eps + (1 # 2))) with 100%Z in Hk. exact Hk.
Qed.

Lemma percent_range_witness :
  exists k : Z,
    (0 <= k <= 100)%Z /\ percent (scoreCrop defaultInputs pulses) = Z2float k.
Proof.
  apply (percent_range defaultInputs (scoreCrop defaultInputs pulses)).
  - reflexivity.
  - vm_compute. left. reflexivity.
Defined.

(** ** The yield per hectare is never below the base yield *)

(** X11: for every scenario with finite numeric fields and every crop of
    the table, the yield per hectare that [scoreCrop] reports is at least
    the crop's base yield, and at most 1.42 times it rounded to tenths. *)
Theorem yield_at_least_base (inp : Inputs) (c : Crop) :
  numeric inp = true -> In c cropBank ->
  (baseYield c <=? expectedYieldValue (scoreCrop inp c)) = true
  /\ (expectedYieldValue (scoreCrop inp c)
      <=? round1 (baseYield c * 1.42)) = true.
Proof.
  intros Hn Hc. destruct (numeric_not_nan inp Hn) as (Hp & Ht & Hr).
  pose proof (cropBank_wf c Hc) as Hwf.
  pose proof (rawScore_below inp c Hwf Hp Ht Hr) as Hraw.
  assert (Hb : finite_pos (baseYield c) = true).
  { unfold wf_crop in Hwf. apply andb_prop in Hwf. apply Hwf. }
  pose proof (cropBank_cap42 c Hc) as Hk. unfold cap42_check in Hk.
  apply andb_prop in Hk. destruct Hk as [Hok _].
  pose proof (cropBank_yield_range c Hc) as Hy. unfold yield_range_check in Hy.
  apply andb_prop in Hy. destruct Hy as [Hlow Hall].
  apply Qle_bool_iff in Hlow.
  destruct (yield_tenths_between inp c rawMax Hraw Hb Hok Hlow)
    as (k & Hk & ->).
  rewrite forallb_forall in Hall.
  specialize (Hall k (In_Zinterval _ _ _ Hk)).
  apply andb_prop in Hall. exact Hall.
Qed.

Lemma yield_at_least_base_witness :
  (baseYield mustard <=? expectedYieldValue (scoreCrop defaultInputs mustard))
  = true
  /\ (expectedYieldValue (scoreCrop defaultInputs mustard)
      <=? round1 (baseYield mustard * 1.42)) = true.
Proof.
  apply (yield_at_least_base defaultInputs mustard); [reflexivity|].
  cbv [mustard cropBank In]. tauto.
Defined.

(** ** The season and the soil type *)

Lemma rawScore_steps (inp : Inputs) (c : Crop) :
  rawScore inp c
  = bonusSteps (Array_includes (seasons (ideal c)) (season inp))
               (String_includes (toLowerCase (soilType inp)) "loam")
               (prefBonus (preference inp) c) (rangeScore inp c).
Proof. reflexivity. Qed.

Lemma rangeScore_below (inp : Inputs) (c : Crop) :
  wf_crop c = true ->
  is_nan (ph inp) = false -> is_nan (temperature inp) = false ->
  is_nan (rainfall inp) = false ->
  below (rangeScore inp c) (7603 # 10000).
Proof.
  unfold wf_crop. intros Hc Hp Ht Hr.
  repeat (apply andb_prop in Hc; destruct Hc as [Hc ?]).
  unfold rangeScore, phScore.
  set (s1 := rangeStep 0.28 10 (ideal_ph (ideal c)) (ph inp) 0).
  set (s2 := rangeStep 0.24 50 (ideal_temp (ideal c)) (temperature inp) s1).
  assert (B1 : below s1 (2801 # 10000))
    by (apply (rangeStep_below _ _ _ _ _ 0); auto using below_zero; qle).
  assert (B2 : below s2 (5202 # 10000))
    by (apply (rangeStep_below _ _ _ _ _ (2801 # 10000)); auto; qle).
  apply (rangeStep_below _ _ _ _ _ (5202 # 10000)); auto; qle.
Qed.

(** The value after the three statements is the exact sum of what they
    add, up to three rounding errors. *)
Lemma bonusSteps_between (b4 b5 : bool) (pb s3 : float) :
  below s3 (7603 # 10000) -> below pb (F2Q 0.08) ->
  between (bonusSteps b4 b5 pb s3)
    (F2Q s3 + (if b4 then F2Q 0.16 else 0) + (if b5 then F2Q 0.05 else 0)
     + F2Q pb - 3 * eps)%Q
    (F2Q s3 + (if b4 then F2Q 0.16 else 0) + (if b5 then F2Q 0.05 else 0)
     + F2Q pb + 3 * eps)%Q.
Proof.
  intros B3 Bp. unfold bonusSteps.
  assert (He : (0 < eps)%Q) by reflexivity.
  assert (He' : (eps <= 1 # 1000)%Q) by qle.
  assert (K16 : between 0.16 (F2Q 0.16) (F2Q 0.16))
    by (apply between_const; reflexivity).
  assert (K5 : between 0.05 (F2Q 0.05) (F2Q 0.05))
    by (apply between_const; reflexivity).
  assert (Q16 : (0 <= F2Q 0.16 <= 17 # 100)%Q) by (split; qle).
  assert (Q5 : (0 <= F2Q 0.05 <= 6 # 100)%Q) by (split; qle).
  assert (Q8 : (F2Q 0.08 <= 9 # 100)%Q) by qle.
  revert K16 K5 Q16 Q5 Q8 Bp.
  generalize (F2Q 0.16) (F2Q 0.05) (F2Q 0.08). intros q16 q5 q8.
  intros K16 K5 Q16 Q5 Q8 Bp.
  assert (P3 : between s3 (F2Q s3) (F2Q s3)).
  { destruct B3 as (F & N & V). repeat split; auto; apply Qle_refl. }
  assert (V3 : (0 <= F2Q s3 <= 7603 # 10000)%Q).
  { destruct B3 as (F & N & V). split; [apply SF2Q_nonneg, N|exact V]. }
  assert (Pp : between pb (F2Q pb) (F2Q pb)).
  { destruct Bp as (F & N & V). repeat split; auto; apply Qle_refl. }
  assert (Vp : (0 <= F2Q pb <= q8)%Q).
  { destruct Bp as (F & N & V). split; [apply SF2Q_nonneg, N|exact V]. }
  set (q4' := (if b4 then q16 else 0)%Q).
  set (q5' := (if b5 then q5 else 0)%Q).
  assert (R4 : (0 <= q4' <= 17 # 100)%Q) by (unfold q4'; destruct b4; lra).
  assert (R5 : (0 <= q5' <= 6 # 100)%Q) by (unfold q5'; destruct b5; lra).
  set (s4 := if b4 then s3 + 0.16 else s3).
  assert (P4 : between s4 (F2Q s3 + q4' - eps) (F2Q s3 + q4' + eps)).
  { unfold s4, q4'. destruct b4.
    - apply (add_between s3 0.16 (F2Q s3) (F2Q s3) q16 q16); auto; lra.
    - apply (between_weaken s3 (F2Q s3) (F2Q s3)); auto; lra. }
  set (s5 := if b5 then s4 + 0.05 else s4).
  assert (P5 : between s5 (F2Q s3 + q4' + q5' - 2 * eps)
                          (F2Q s3 + q4' + q5' + 2 * eps)).
  { unfold s5, q5'. destruct b5.
    - apply (add_between s4 0.05 (F2Q s3 + q4' - eps) (F2Q s3 + q4' + eps)
                         q5 q5); auto; lra.
    - eapply between_weaken; [exact P4| |]; lra. }
  apply (add_between s5 pb (F2Q s3 + q4' + q5' - 2 * eps)
                     (F2Q s3 + q4' + q5' + 2 * eps) (F2Q pb) (F2Q pb));
    auto; lra.
Qed.

Lemma between_finite (x : float) (a b : Q) : between x a b -> is_finite x = true.
Proof. intros [(F & _) _]. rewrite is_finite_spec. exact F. Qed.

(** The clamp [Math.min(1, score)] is monotone on the non-negative
    numbers. *)
Lemma Math_min_1_mono (x y : float) :
  nonneg x = true -> nonneg y = true -> (x <=? y) = true ->
  (Math_min 1 x <=? Math_min 1 y) = true.
Proof.
  intros Nx Ny H.
  pose proof (nonneg_not_nan x Nx) as Hx. pose proof (nonneg_not_nan y Ny) as Hy.
  assert (H1 : is_nan 1 = false) by reflexivity.
  unfold Math_min. rewrite Hx, Hy.
  change (is_nan 1) with false. change (get_sign 1) with false. cbn [orb].
  assert (Ex : (if x <? 1 then x else x) = x) by (destruct (x <? 1); reflexivity).
  assert (Ey : (if y <? 1 then y else y) = y) by (destruct (y <? 1); reflexivity).
  rewrite Ex, Ey. clear Ex Ey.
  rewrite leb_ord in H by assumption. apply Z.leb_le in H.
  destruct (1 <? x) eqn:Cx, (1 <? y) eqn:Cy;
    rewrite ltb_ord in Cx, Cy by assumption;
    rewrite leb_ord by assumption; apply Z.leb_le;
    try (apply Z.ltb_lt in Cx); try (apply Z.ltb_ge in Cx);
    try (apply Z.ltb_lt in Cy); try (apply Z.ltb_ge in Cy); lia.
Qed.

Lemma ltb_leb (x y : float) :
  is_nan x = false -> is_nan y = false -> (x <? y) = true -> (x <=? y) = true.
Proof.
  intros Hx Hy. rewrite ltb_ord, leb_ord by assumption.
  intros H. apply Z.ltb_lt in H. apply Z.leb_le. lia.
Qed.

(** What the season test and the loam test add decides the order of two
    raw scores that share the range score and the preference bonus. *)
Lemma bonusSteps_lt (b4 b5 b4' b5' : bool) (pb s3 : float) :
  below s3 (7603 # 10000) -> below pb (F2Q 0.08) ->
  ((if b4 then F2Q 0.16 else 0) + (if b5 then F2Q 0.05 else 0) + 6 * eps
   < (if b4' then F2Q 0.16 else 0) + (if b5' then F2Q 0.05 else 0))%Q ->
  (bonusSteps b4 b5 pb s3 <? bonusSteps b4' b5' pb s3) = true.
Proof.
  intros B3 Bp H.
  pose proof (bonusSteps_between b4 b5 pb s3 B3 Bp) as P.
  pose proof (bonusSteps_between b4' b5' pb s3 B3 Bp) as P'.
  apply ltb_F2Q; eauto using between_finite.
  destruct P as [(_ & _ & U) _], P' as [_ L]. lra.
Qed.

(** X12: for a scenario with finite numeric fields and a crop of the
    table, a season that the crop lists gives a strictly higher raw score
    than a season it does not list, everything else unchanged; the score
    reported after the clamp is never lower. *)
Theorem season_match_raises (inp : Inputs) (c : Crop) (s s' : string) :
  numeric inp = true -> In c cropBank ->
  Array_includes (seasons (ideal c)) s = true ->
  Array_includes (seasons (ideal c)) s' = false ->
  (rawScore (withSeason inp s') c <? rawScore (withSeason inp s) c) = true
  /\ (score (scoreCrop (withSeason inp s') c)
      <=? score (scoreCrop (withSeason inp s) c)) = true.
Proof.
  intros Hn Hc Hs Hs'. destruct (numeric_not_nan inp Hn) as (Hp & Ht & Hr).
  pose proof (cropBank_wf c Hc) as Hwf.
  assert (Hlt : (rawScore (withSeason inp s') c
                 <? rawScore (withSeason inp s) c) = true).
  { rewrite !rawScore_steps. cbn [withSeason season soilType preference].
    rewrite Hs, Hs'.
    change (rangeScore (withSeason inp s') c) with (rangeScore inp c).
    change (rangeScore (withSeason inp s) c) with (rangeScore inp c).
    apply bonusSteps_lt; auto using rangeScore_below, prefBonus_below.
    destruct (String_includes _ _);
      apply Qlt_alt; vm_compute; reflexivity. }
  split; [exact Hlt|].
  cbn [scoreCrop score].
  assert (N : forall t, nonneg (rawScore (withSeason inp t) c) = true)
    by (intros t; apply rawScore_nonneg; auto).
  apply Math_min_1_mono; auto.
  apply ltb_leb; auto using nonneg_not_nan.
Qed.

Lemma season_match_raises_witness :
  (rawScore (withSeason defaultInputs "Kharif") wheat
   <? rawScore (withSeason defaultInputs "Rabi") wheat) = true
  /\ (score (scoreCrop (withSeason defaultInputs "Kharif") wheat)
      <=? score (scoreCrop (withSeason defaultInputs "Rabi") wheat)) = true.
Proof.
  apply (season_match_raises defaultInputs wheat "Rabi" "Kharif");
    try reflexivity.
  cbv [wheat cropBank In]. tauto.
Defined.

(** X13: for a scenario with finite numeric fields and a crop of the
    table, a soil type whose lower-cased name contains [loam] gives a
    strictly higher raw score than one whose name does not, everything
    else unchanged; the score reported after the clamp is never lower. *)
Theorem loam_raises (inp : Inputs) (c : Crop) (t t' : string) :
  numeric inp = true -> In c cropBank ->
  String_includes (toLowerCase t) "loam" = true ->
  String_includes (toLowerCase t') "loam" = false ->
  (rawScore (withSoilType inp t') c <? rawScore (withSoilType inp t) c) = true
  /\ (score (scoreCrop (withSoilType inp t') c)
      <=? score (scoreCrop (withSoilType inp t) c)) = true.
Proof.
  intros Hn Hc Hs Hs'. destruct (numeric_not_nan inp Hn) as (Hp & Ht & Hr).
  pose proof (cropBank_wf c Hc) as Hwf.
  assert (Hlt : (rawScore (withSoilType inp t') c
                 <? rawScore (withSoilType inp t) c) = true).
  { rewrite !rawScore_steps. cbn [withSoilType season soilType preference].
    rewrite Hs, Hs'.
    change (rangeScore (withSoilType inp t') c) with (rangeScore inp c).
    change (rangeScore (withSoilType inp t) c) with (rangeScore inp c).
    apply bonusSteps_lt; auto using rangeScore_below, prefBonus_below.
    destruct (Array_includes _ _);
      apply Qlt_alt; vm_compute; reflexivity. }
  split; [exact Hlt|].
  cbn [scoreCrop score].
  assert (N : forall u, nonneg (rawScore (withSoilType inp u) c) = true)
    by (intros u; apply rawScore_nonneg; auto).
  apply Math_min_1_mono; auto.
  apply ltb_leb; auto using nonneg_not_nan.
Qed.

Lemma loam_raises_witness :
  (rawScore (withSoilType defaultInputs "Clay") wheat
   <? rawScore (withSoilType defaultInputs "Sandy LOAM") wheat) = true
  /\ (score (scoreCrop (withSoilType defaultInputs "Clay") wheat)
      <=? score (scoreCrop (withSoilType defaultInputs "Sandy LOAM") wheat))
     = true.
Proof.
  apply (loam_raises defaultInputs wheat "Sandy LOAM" "Clay");
    try reflexivity.
  cbv [wheat cropBank In]. tauto.
Defined.

(** ** The chart preview *)

Lemma cropBank_chart (c : Crop) : In c cropBank -> chart_check c = true.
Proof.
  assert (H : forallb chart_check cropBank = true) by (vm_compute; reflexivity).
  rewrite forallb_forall in H. apply H.
Qed.

(** X14: after a recommendation for a scenario with finite numeric fields
    the chart is drawn from the yield per hectare of the top record, a
    positive number: the fallback 2.5 is not used. *)
Theorem chart_baseline_top_yield (inp : Inputs) :
  numeric inp = true ->
  exists (r : RankedCrop) (rest : list RankedCrop),
    computeRecommendations inp = r :: rest
    /\ chartBaseline (computeRecommendations inp) = expectedYieldValue r
    /\ (0 <? expectedYieldValue r) = true.
Proof.
  intros Hn. destruct (recommendations_head inp) as (r & rest & E).
  exists r, rest. split; [exact E|]. rewrite E. cbn [chartBaseline].
  assert (Hr : In r (computeRecommendations inp)) by (rewrite E; left; reflexivity).
  destruct (computeRecommendations_In cropBank inp r Hr) as (c & Hc & ->).
  destruct (yield_attainable inp c Hn Hc) as (k & Hk & ->).
  pose proof (cropBank_chart c Hc) as H. unfold chart_check in H.
  rewrite forallb_forall in H. specialize (H k Hk). cbn zeta in H.
  apply andb_prop in H. destruct H as [H _].
  apply andb_prop in H. destruct H as [Htr Hpos].
  unfold orElse. rewrite Htr. split; [reflexivity|exact Hpos].
Qed.

Lemma chart_baseline_top_yield_witness :
  exists (r : RankedCrop) (rest : list RankedCrop),
    computeRecommendations defaultInputs = r :: rest
    /\ chartBaseline (computeRecommendations defaultInputs)
       = expectedYieldValue r
    /\ (0 <? expectedYieldValue r) = true.
Proof. apply (chart_baseline_top_yield defaultInputs). reflexivity. Defined.

(** X15: the chart has one point for each of the twelve months, in order;
    after a recommendation for a scenario with finite numeric fields its
    values never decrease from January to June, and July to December
    repeat them. *)
Theorem chart_shape (inp : Inputs) :
  numeric inp = true ->
  let data := chartData (computeRecommendations inp) in
  let half := firstn 6 (map snd data) in
  map fst data = months
  /\ map snd data = (half ++ half)%list
  /\ rising half = true.
Proof.
  intros Hn. cbn zeta.
  destruct (recommendations_head inp) as (r & rest & E).
  assert (Hr : In r (computeRecommendations inp)) by (rewrite E; left; reflexivity).
  destruct (computeRecommendations_In cropBank inp r Hr) as (c & Hc & Er).
  destruct (yield_attainable inp c Hn Hc) as (k & Hk & Ey).
  pose proof (cropBank_chart c Hc) as H. unfold chart_check in H.
  rewrite forallb_forall in H. specialize (H k Hk). cbn zeta in H.
  apply andb_prop in H. destruct H as [H Hrise].
  apply andb_prop in H. destruct H as [Htr _].
  assert (Eb : chartBaseline (computeRecommendations inp) = Z2float k / 10).
  { rewrite E. cbn [chartBaseline]. rewrite Er, Ey. unfold orElse.
    rewrite Htr. reflexivity. }
  unfold chartData. rewrite Eb. clear Eb Ey Htr.
  revert Hrise. generalize (Z2float k / 10). intros y Hrise.
  split; [reflexivity|]. split; [reflexivity|exact Hrise].
Qed.

Lemma chart_shape_witness :
  let data := chartData (computeRecommendations defaultInputs) in
  let half := firstn 6 (map snd data) in
  map fst data = months
  /\ map snd data = (half ++ half)%list
  /\ rising half = true.
Proof. apply (chart_shape defaultInputs). reflexivity. Defined.

(** ** The placeholder feature importances *)

Lemma below_of_leb_1 (x : float) :
  nonneg x = true -> (x <=? 1) = true -> below x 1.
Proof.
  intros Nx H. pose proof (nonneg_not_nan x Nx) as Hn.
  assert (Hf : SFfinite (Prim2SF x) = true).
  { rewrite leb_spec in H. unfold nonneg in Nx.
    destruct (Prim2SF x) as [[|]|[|]| |[|] m e]; try discriminate;
      try reflexivity. }
  repeat split; auto.
  apply Qle_trans with (F2Q 1); [|qle].
  apply leb_F2Q; auto. rewrite is_finite_spec. exact Hf.
Qed.

(** A random number rounded to hundredths is a whole number of hundredths
    between 0 and 1. *)
Lemma hundredths_random (x : float) :
  random01 x = true ->
  (exists k : Z, (0 <= k <= 100)%Z /\ hundredths x = Z2float k / 100)
  /\ (0 <=? hundredths x) = true /\ (hundredths x <=? 1) = true.
Proof.
  unfold random01. intros H. apply andb_prop in H. destruct H as [Nx Hlt].
  assert (Hle : (x <=? 1) = true)
    by (apply ltb_leb; [apply nonneg_not_nan, Nx|reflexivity|exact Hlt]).
  pose proof (below_of_leb_1 x Nx Hle) as Bx.
  assert (Hm : below (x * 100) (100 + eps)).
  { apply (mul_below _ 100 1 (F2Q 100)); auto.
    - apply below_const. reflexivity.
    - qle.
    - qle. }
  destruct (Math_round_below _ _ Hm ltac:(qle)) as (k & Hk & E).
  change (Qfloor (100 + eps + (1 # 2))) with 100%Z in Hk.
  unfold hundredths. rewrite E.
  split; [exists k; split; [exact Hk|reflexivity]|].
  assert (Hc : hundredths_check = true) by (vm_compute; reflexivity).
  unfold hundredths_check in Hc. rewrite forallb_forall in Hc.
  apply andb_prop. apply Hc. apply (In_Zrange k 100). exact Hk.
Qed.

(** X16: for five results of [Math.random()] the panel lists each of the
    five features once, with its own random number rounded to a whole
    number of hundredths between 0 and 1, the larger importances first. *)
Theorem shapData_sorted_hundredths (r1 r2 r3 r4 r5 : float) :
  forallb random01 [r1; r2; r3; r4; r5] = true ->
  let sh := shapData r1 r2 r3 r4 r5 in
  Permutation sh
    [("Soil pH"%string, hundredths r1); ("Temperature"%string, hundredths r2);
     ("Rainfall"%string, hundredths r3); ("Area"%string, hundredths r4);
     ("Soil Type"%string, hundredths r5)]
  /\ (forall x, In x sh ->
        exists k : Z, (0 <= k <= 100)%Z /\ snd x = Z2float k / 100)
  /\ StronglySorted (fun a b => (snd b <=? snd a) = true) sh.
Proof.
  intros Hr. cbn zeta. rewrite forallb_forall in Hr.
  set (cmp := fun a b : string * float => snd b - snd a).
  set (l := [("Soil pH"%string, hundredths r1);
             ("Temperature"%string, hundredths r2);
             ("Rainfall"%string, hundredths r3);
             ("Area"%string, hundredths r4);
             ("Soil Type"%string, hundredths r5)]).
  change (shapData r1 r2 r3 r4 r5) with (Array_sort cmp l).
  pose proof (Array_sort_perm cmp l) as Hperm.
  assert (Hin : forall x, In x l -> exists r, random01 r = true
                                          /\ snd x = hundredths r).
  { intros x Hx. unfold l in Hx. cbn [In] in Hx.
    repeat (destruct Hx as [<-|Hx];
            [eexists; split; [|reflexivity]; apply Hr; cbn [In]; tauto|]).
    destruct Hx. }
  set (good := fun x : string * float => is_nan (snd x) = false).
  assert (Hl : Forall good l).
  { rewrite Forall_forall. intros x Hx. unfold good.
    destruct (Hin x Hx) as (r & Hrand & ->).
    apply (leb_not_nan_r 0). apply (hundredths_random r Hrand). }
  assert (Hk : forall x y, good x -> good y ->
                 (0 <? cmp x y) = (ord (snd x) <? ord (snd y))%Z)
    by (intros x y Hx Hy; apply sub_pos_ord; assumption).
  split; [exact Hperm|]. split.
  - intros x Hx.
    apply (Permutation_in _ Hperm) in Hx.
    destruct (Hin x Hx) as (r & Hrand & ->).
    apply (hundredths_random r Hrand).
  - apply (StronglySorted_weaken
             (fun a b => (ord (snd b) <= ord (snd a))%Z) _ good).
    + intros a b Ha Hb H. rewrite leb_ord by assumption. apply Z.leb_le, H.
    + apply (Permutation_Forall (Permutation_sym Hperm)), Hl.
    + apply (Array_sort_sorted cmp (fun x => ord (snd x)) good Hk l Hl).
Qed.

Lemma shapData_sorted_hundredths_witness :
  let sh := shapData 0.25 0.5 0.125 0.75 0 in
  Permutation sh
    [("Soil pH"%string, hundredths 0.25); ("Temperature"%string, hundredths 0.5);
     ("Rainfall"%string, hundredths 0.125); ("Area"%string, hundredths 0.75);
     ("Soil Type"%string, hundredths 0)]
  /\ (forall x, In x sh ->
        exists k : Z, (0 <= k <= 100)%Z /\ snd x = Z2float k / 100)
  /\ StronglySorted (fun a b => (snd b <=? snd a) = true) sh.
Proof. apply (shapData_sorted_hundredths 0.25 0.5 0.125 0.75 0). reflexivity. Defined.

(** ** One hectare *)

Lemma cropBank_unit_area (c : Crop) : In c cropBank -> unit_area_check c = true.
Proof.
  assert (H : forallb unit_area_check cropBank = true)
    by (vm_compute; reflexivity).
  rewrite forallb_forall in H. apply H.
Qed.

(** X17: for a scenario with finite numeric fields and an area of one
    hectare, the total yield of every record returned equals its yield per
    hectare: rounding to tenths a second time changes nothing. *)
Theorem one_hectare_total (inp : Inputs) (r : RankedCrop) :
  numeric inp = true -> area inp = 1 ->
  In r (computeRecommendations inp) ->
  (expectedYield r =? expectedYieldValue r) = true.
Proof.
  intros Hn Ha Hr.
  destruct (computeRecommendations_In cropBank inp r Hr) as (c & Hc & ->).
  change (expectedYield (scoreCrop inp c))
    with (round1 (expectedYieldValue (scoreCrop inp c) * area inp)).
  rewrite Ha.
  destruct (yield_attainable inp c Hn Hc) as (k & Hk & ->).
  pose proof (cropBank_unit_area c Hc) as H. unfold unit_area_check in H.
  rewrite forallb_forall in H. apply H, Hk.
Qed.

Lemma one_hectare_total_witness :
  (expectedYield (scoreCrop defaultInputs pulses)
   =? expectedYieldValue (scoreCrop defaultInputs pulses)) = true.
Proof.
  apply (one_hectare_total defaultInputs (scoreCrop defaultInputs pulses)).
  - reflexivity.
  - reflexivity.
  - vm_compute. left. reflexivity.
Defined.
